(** * Encrypted HLS streaming: manifest codec, segment cipher and loader

    A shallow embedding of the authenticated-encryption streaming core:
    - [server/encryption.js]: [ChaChaEncryption.encryptSegment],
      [ChaChaEncryption.decryptSegment] and [generateCustomM3U8];
    - the client loader [EncryptedSegmentLoader]: [parseEncryptionKey],
      [parseSegmentNonces], [decryptSegment], [cleanM3U8ForHls] and the
      [onload] handler installed by [load].

    JavaScript strings are modelled as [string], one [ascii] per code unit
    (code units 0..255).  Buffers and [Uint8Array]s are [list byte].  The
    shared [Map] of nonces is a [gmap string string]. *)

From Stdlib Require Import ZArith Ascii String List Lia.
From Stdlib Require Strings.Byte.
From Stdlib Require Import Init.Byte.
From stdpp Require Import gmap strings list pretty.

Local Open Scope Z_scope.

(* ===================================================================== *)
(** ** JavaScript string primitives                                        *)
(* ===================================================================== *)

Module JsString.

Definition LF : ascii := "010"%char.
Definition DQUOTE : ascii := "034"%char.
Definition nl : string := String LF "".

(** [s.split(sep)] for a one-character separator. *)
Fixpoint split (sep : ascii) (s : string) : list string :=
  match s with
  | EmptyString => [""]
  | String c s' =>
      if Ascii.eqb c sep then "" :: split sep s'
      else match split sep s' with
           | w :: ws => String c w :: ws
           | [] => [String c ""]
           end
  end.

(** [ls.join(sep)]. *)
Fixpoint join (sep : string) (ls : list string) : string :=
  match ls with
  | [] => ""
  | l :: ls' =>
      match ls' with
      | [] => l
      | _ :: _ => l +:+ sep +:+ join sep ls'
      end
  end.

(** [s.startsWith(p)]. *)
Fixpoint startsWith (s p : string) {struct p} : bool :=
  match p with
  | EmptyString => true
  | String a p' =>
      match s with
      | EmptyString => false
      | String b s' => Ascii.eqb a b && startsWith s' p'
      end
  end.

Fixpoint skip (n : nat) (s : string) : string :=
  match n with
  | O => s
  | S n' => match s with EmptyString => "" | String _ s' => skip n' s' end
  end.

(** [s.endsWith(p)]: the last [p.length] code units of [s] are [p]. *)
Definition endsWith (s p : string) : bool :=
  (String.length p <=? String.length s)%nat
  && String.eqb (skip (String.length s - String.length p) s) p.

(** White space as [String.prototype.trim] sees it, among the code units
    0..255: TAB, LF, VT, FF, CR, SPACE and NBSP. *)
Definition is_js_space (c : ascii) : bool :=
  match N_of_ascii c with
  | 9 | 10 | 11 | 12 | 13 | 32 | 160 => true
  | _ => false
  end%N.

Fixpoint trimStart (s : string) : string :=
  match s with
  | EmptyString => ""
  | String c s' => if is_js_space c then trimStart s' else s
  end.

Fixpoint trimEnd (s : string) : string :=
  match s with
  | EmptyString => ""
  | String c s' =>
      match trimEnd s' with
      | EmptyString => if is_js_space c then "" else String c ""
      | t => String c t
      end
  end.

Definition trim (s : string) : string := trimEnd (trimStart s).

(** Truthiness of a string: non-empty. *)
Definition truthy (s : string) : bool :=
  match s with EmptyString => false | String _ _ => true end.

(** [s] holds no occurrence of the code unit [c]. *)
Fixpoint lacks (c : ascii) (s : string) : bool :=
  match s with
  | EmptyString => true
  | String a s' => negb (Ascii.eqb a c) && lacks c s'
  end.

(** [ls.pop()] on the result of a split: the last element. *)
Definition pop (ls : list string) : option string := last ls.

End JsString.
Import JsString.

(* ===================================================================== *)
(** ** Bytes and base64                                                    *)
(* ===================================================================== *)

Module Bytes.

#[global] Instance byte_eq_dec : EqDecision byte := Byte.byte_eq_dec.

Definition Z_of_byte (b : byte) : Z := Z.of_N (Byte.to_N b).

(** Storing a number into a [Uint8Array] slot keeps its low eight bits. *)
Definition byte_of_Z (z : Z) : byte :=
  match Byte.of_N (Z.to_N (z mod 256)) with
  | Some b => b
  | None => Byte.x00
  end.

Definition byte_xor (a b : byte) : byte :=
  byte_of_Z (Z.lxor (Z_of_byte a) (Z_of_byte b)).

(** Little-endian number held by a byte sequence, and its inverse on [n]
    bytes. *)
Definition le_num (bs : list byte) : Z :=
  fold_right (fun b acc => Z_of_byte b + 256 * acc) 0 bs.

Fixpoint le_bytes (n : nat) (z : Z) : list byte :=
  match n with
  | O => []
  | S n' => byte_of_Z z :: le_bytes n' (z / 256)
  end.

(** The loop [decoded[i] = binaryString.charCodeAt(i)]. *)
Fixpoint bytes_of_binary_string (s : string) : list byte :=
  match s with
  | EmptyString => []
  | String c s' => byte_of_ascii c :: bytes_of_binary_string s'
  end.

End Bytes.
Import Bytes.

Module Base64.

Definition std_alphabet : string :=
  "ABCDEFGHIJKLMNOPQRSTUVWXYZabcdefghijklmnopqrstuvwxyz0123456789+/".
Definition url_alphabet : string :=
  "ABCDEFGHIJKLMNOPQRSTUVWXYZabcdefghijklmnopqrstuvwxyz0123456789-_".
Definition PAD : ascii := "="%char.

Fixpoint char_at (alphabet : string) (i : nat) : ascii :=
  match alphabet with
  | EmptyString => PAD
  | String c rest => match i with O => c | S i' => char_at rest i' end
  end.

Fixpoint index_in (alphabet : string) (c : ascii) : option Z :=
  match alphabet with
  | EmptyString => None
  | String a rest =>
      if Ascii.eqb a c then Some 0 else Z.succ <$> index_in rest c
  end.

Definition enc (i : Z) : ascii := char_at std_alphabet (Z.to_nat i).

(** [buf.toString('base64')] of Node: the standard alphabet, padded. *)
Fixpoint to_base64 (bs : list byte) : string :=
  match bs with
  | [] => ""
  | a :: bs1 =>
      let a := Z_of_byte a in
      match bs1 with
      | [] =>
          String (enc (a / 4))
            (String (enc (a mod 4 * 16)) (String PAD (String PAD "")))
      | b :: bs2 =>
          let b := Z_of_byte b in
          match bs2 with
          | [] =>
              String (enc (a / 4))
                (String (enc (a mod 4 * 16 + b / 16))
                   (String (enc (b mod 16 * 4)) (String PAD "")))
          | c :: rest =>
              let c := Z_of_byte c in
              String (enc (a / 4))
                (String (enc (a mod 4 * 16 + b / 16))
                   (String (enc (b mod 16 * 4 + c / 64))
                      (String (enc (c mod 64)) (to_base64 rest))))
          end
      end
  end.

(** Sextets of a string over an alphabet; [None] as soon as a code unit is
    outside it. *)
Fixpoint sextets (alphabet : string) (s : string) : option (list Z) :=
  match s with
  | EmptyString => Some []
  | String c s' =>
      match index_in alphabet c, sextets alphabet s' with
      | Some i, Some l => Some (i :: l)
      | _, _ => None
      end
  end.

(** Bytes held by a run of sextets; the bits left over at the end are
    dropped. *)
Fixpoint decode_sextets (l : list Z) : list byte :=
  match l with
  | a :: b :: c :: d :: rest =>
      byte_of_Z (a * 4 + b / 16)
      :: byte_of_Z (b mod 16 * 16 + c / 4)
      :: byte_of_Z (c mod 4 * 64 + d)
      :: decode_sextets rest
  | [a; b; c] =>
      [byte_of_Z (a * 4 + b / 16); byte_of_Z (b mod 16 * 16 + c / 4)]
  | [a; b] => [byte_of_Z (a * 4 + b / 16)]
  | _ => []
  end.

(** The bits left over after the last whole byte: zero when the encoding
    is canonical.  A single trailing sextet leaves six bits. *)
Fixpoint trailing_ok (l : list Z) : bool :=
  match l with
  | _ :: _ :: _ :: _ :: rest => trailing_ok rest
  | [_; _; c] => c mod 4 =? 0
  | [_; b] => b mod 16 =? 0
  | [_] => false
  | [] => true
  end.

(** libsodium-wrappers' [from_base64] with its default variant (URL-safe
    alphabet, no padding): every code unit must be in the alphabet and the
    trailing bits must be zero, otherwise it throws. *)
Definition from_base64 (s : string) : option (list byte) :=
  match sextets url_alphabet s with
  | Some l => if trailing_ok l then Some (decode_sextets l) else None
  | None => None
  end.

(** The browser's [atob] (forgiving base64 decode): ASCII white space is
    removed, one or two padding signs are removed when the length is a
    multiple of four, a length of 1 modulo 4 or a code unit outside the
    standard alphabet throws.  The result is a binary string. *)
Definition is_ascii_whitespace (c : ascii) : bool :=
  match N_of_ascii c with
  | 9 | 10 | 12 | 13 | 32 => true
  | _ => false
  end%N.

Fixpoint remove_whitespace (s : string) : string :=
  match s with
  | EmptyString => ""
  | String c s' =>
      if is_ascii_whitespace c then remove_whitespace s'
      else String c (remove_whitespace s')
  end.

Definition strip_padding (s : string) : string :=
  if (String.length s mod 4 =? 0)%nat then
    if endsWith s "==" then substring 0 (String.length s - 2) s
    else if endsWith s "=" then substring 0 (String.length s - 1) s
    else s
  else s.

Fixpoint binary_string (bs : list byte) : string :=
  match bs with
  | [] => ""
  | b :: bs' => String (ascii_of_byte b) (binary_string bs')
  end.

Definition atob (s : string) : option string :=
  let data := strip_padding (remove_whitespace s) in
  if (String.length data mod 4 =? 1)%nat then None
  else binary_string <$> (decode_sextets <$> sextets std_alphabet data).

End Base64.

(* ===================================================================== *)
(** ** The AEAD primitive: ChaCha20-Poly1305 (IETF, RFC 8439)              *)
(* ===================================================================== *)

(** [crypto_aead_chacha20poly1305_ietf_encrypt] and [_decrypt] of libsodium,
    which both the server binding and the browser binding call.  Words are
    32-bit integers held in [Z], reduced modulo [2^32] after each addition
    and rotation. *)
Module ChaCha20Poly1305.

Definition KEYBYTES : nat := 32.
Definition NPUBBYTES : nat := 12.
Definition ABYTES : nat := 16.

Definition add32 (a b : Z) : Z := (a + b) mod 2 ^ 32.
Definition rotl32 (x n : Z) : Z :=
  Z.lor (Z.shiftl x n mod 2 ^ 32) (Z.shiftr x (32 - n)).

Definition quarter_round (st : Z * Z * Z * Z) : Z * Z * Z * Z :=
  let '(a, b, c, d) := st in
  let a := add32 a b in let d := rotl32 (Z.lxor d a) 16 in
  let c := add32 c d in let b := rotl32 (Z.lxor b c) 12 in
  let a := add32 a b in let d := rotl32 (Z.lxor d a) 8 in
  let c := add32 c d in let b := rotl32 (Z.lxor b c) 7 in
  (a, b, c, d).

(** A quarter round on four words of the sixteen-word state. *)
Definition QR (i j k l : nat) (st : list Z) : list Z :=
  let '(a, b, c, d) :=
    quarter_round (nth i st 0, nth j st 0, nth k st 0, nth l st 0) in
  <[l := d]> (<[k := c]> (<[j := b]> (<[i := a]> st))).

Definition inner_block (st : list Z) : list Z :=
  QR 3 4 9 14 (QR 2 7 8 13 (QR 1 6 11 12 (QR 0 5 10 15
  (QR 3 7 11 15 (QR 2 6 10 14 (QR 1 5 9 13 (QR 0 4 8 12 st))))))).

(** The [i]-th little-endian 32-bit word of a byte sequence. *)
Definition word_at (bs : list byte) (i : nat) : Z :=
  le_num (take 4 (drop (4 * i) bs)).

Definition init_state (key : list byte) (counter : Z) (nonce : list byte)
  : list Z :=
  [1634760805; 857760878; 2036477234; 1797285236]
  ++ map (word_at key) (seq 0 8)
  ++ [counter mod 2 ^ 32]
  ++ map (word_at nonce) (seq 0 3).

Definition chacha20_block (key : list byte) (counter : Z) (nonce : list byte)
  : list byte :=
  let st := init_state key counter nonce in
  let working := Nat.iter 10 inner_block st in
  flat_map (le_bytes 4) (zip_with add32 working st).

(** Key stream of [n] consecutive blocks from [counter] on. *)
Definition key_stream (key : list byte) (counter : Z) (nonce : list byte)
  (n : nat) : list byte :=
  flat_map (fun j => chacha20_block key (counter + Z.of_nat j) nonce)
           (seq 0 n).

Definition blocks_for (len : nat) : nat := (len + 63) / 64.

Definition chacha20_xor (key : list byte) (counter : Z) (nonce : list byte)
  (data : list byte) : list byte :=
  zip_with byte_xor data
    (key_stream key counter nonce (blocks_for (length data))).

(** Poly1305 with the one-time key [otk] = r || s. *)
Definition P1305 : Z := 2 ^ 130 - 5.
Definition clamp (r : Z) : Z :=
  Z.land r 21267647620597763993911028882763415551.

Fixpoint poly1305_blocks (n : nat) (msg : list byte) (r acc : Z) : Z :=
  match n with
  | O => acc
  | S n' =>
      let block := le_num (take 16 msg ++ [Byte.x01]) in
      poly1305_blocks n' (drop 16 msg) r (((acc + block) * r) mod P1305)
  end.

Definition poly1305_mac (msg otk : list byte) : list byte :=
  let r := clamp (le_num (take 16 otk)) in
  let s := le_num (take 16 (drop 16 otk)) in
  let acc := poly1305_blocks ((length msg + 15) / 16) msg r 0 in
  le_bytes 16 ((acc + s) mod 2 ^ 128).

Definition poly1305_key_gen (key nonce : list byte) : list byte :=
  take 32 (chacha20_block key 0 nonce).

Definition pad16 (bs : list byte) : list byte :=
  replicate ((16 - length bs mod 16) mod 16) Byte.x00.

Definition mac_data (ad ct : list byte) : list byte :=
  ad ++ pad16 ad ++ ct ++ pad16 ct
  ++ le_bytes 8 (Z.of_nat (length ad)) ++ le_bytes 8 (Z.of_nat (length ct)).

Definition tag_of (ct ad npub k : list byte) : list byte :=
  poly1305_mac (mac_data ad ct) (poly1305_key_gen k npub).

(** Ciphertext followed by the 16-byte tag. *)
Definition aead_encrypt (m ad npub k : list byte) : list byte :=
  let ct := chacha20_xor k 1 npub m in
  ct ++ tag_of ct ad npub k.

(** The tag is verified first; nothing is decrypted unless it matches. *)
Definition aead_decrypt (c ad npub k : list byte) : option (list byte) :=
  if (length c <? ABYTES)%nat then None
  else
    let ct := take (length c - ABYTES) c in
    let tag := drop (length c - ABYTES) c in
    if bool_decide (tag_of ct ad npub k = tag)
    then Some (chacha20_xor k 1 npub ct)
    else None.

End ChaCha20Poly1305.

(* ===================================================================== *)
(** ** Exceptions                                                          *)
(* ===================================================================== *)

(** What the two bindings of libsodium and the runtime throw. *)
Inductive lib_failure :=
| BadLength (argument : string)   (* an argument of the wrong length *)
| CiphertextTooShort              (* fewer bytes than the tag *)
| VerificationFailed              (* the tag does not verify *)
| InvalidCharacter                (* atob rejects its input *)
| InvalidBufferSize.              (* Buffer.alloc of a negative size *)

(** Every [throw] of the loader, one constructor per message. *)
Inductive js_error :=
| InvalidBase64KeyFormat
| EncryptionKeyNotFound
| SodiumNotInitialized
| InvalidKeySize (got : nat)
| InvalidNonceSize (got : nat)
| DecryptionFailed (cause : js_error)
| NonceNotFound (filename : string)
| DecryptionKeyNotAvailable
| Thrown (e : lib_failure).

(** [error.message].  The text of an exception of a library is the
    library's own: [lib_text] gives it. *)
Fixpoint message (lib_text : lib_failure -> string) (e : js_error)
  : string :=
  match e with
  | InvalidBase64KeyFormat => "Invalid base64 key format"
  | EncryptionKeyNotFound => "Encryption key not found in playlist"
  | SodiumNotInitialized => "Sodium not initialized"
  | InvalidKeySize n =>
      "Invalid key size: expected 32 bytes, got " +:+ pretty n
  | InvalidNonceSize n =>
      "Invalid nonce size: expected 12 bytes, got " +:+ pretty n
  | DecryptionFailed c => "Decryption failed: " +:+ message lib_text c
  | NonceNotFound f => "Nonce not found for segment: " +:+ f
  | DecryptionKeyNotAvailable => "Decryption key not available"
  | Thrown e => lib_text e
  end.

(** A call either returns a value or throws. *)
Inductive result (E A : Type) :=
| Ok (a : A)
| Throw (e : E).
Arguments Ok {E A} a.
Arguments Throw {E A} e.

(** Sequencing: a throw skips what follows. *)
#[global] Instance result_bind {E} : MBind (result E) :=
  fun A B k r =>
    match r with
    | Ok a => k a
    | Throw e => Throw e
    end.

(** [try { r } catch (e) { h e }]. *)
Definition try_catch {E F A} (r : result E A) (h : E -> result F A)
  : result F A :=
  match r with
  | Ok a => Ok a
  | Throw e => h e
  end.

(** An exception of a library, propagating as it is. *)
Definition lift {A} (r : result lib_failure A) : result js_error A :=
  try_catch r (fun e => Throw (Thrown e)).

(** The two kinds of failure of the cipher: a tag that does not verify,
    and key material of the wrong length. *)
Fixpoint is_integrity_error (e : js_error) : bool :=
  match e with
  | Thrown VerificationFailed => true
  | DecryptionFailed c => is_integrity_error c
  | _ => false
  end.

Fixpoint is_malformed_key_material (e : js_error) : bool :=
  match e with
  | InvalidKeySize _ | InvalidNonceSize _ => true
  | Thrown (BadLength a) =>
      String.eqb a "npub" || String.eqb a "k"
      || String.eqb a "public_nonce" || String.eqb a "key"
  | DecryptionFailed c => is_malformed_key_material c
  | _ => false
  end.

(* ===================================================================== *)
(** ** server/encryption.js                                                *)
(* ===================================================================== *)

Module Server.
Import ChaCha20Poly1305.

(** sodium-native's binding: the lengths of the output buffer, of [npub]
    and of [k] are asserted, in this order, before libsodium is called.
    The value returned is what the call leaves in the output buffer. *)
Definition sn_encrypt (c_len : nat) (m : list byte) (ad : option (list byte))
  (npub k : list byte) : result lib_failure (list byte) :=
  if negb (c_len =? length m + ABYTES)%nat then Throw (BadLength "c")
  else if negb (length npub =? NPUBBYTES)%nat then Throw (BadLength "npub")
  else if negb (length k =? KEYBYTES)%nat then Throw (BadLength "k")
  else Ok (aead_encrypt m (default [] ad) npub k).

Definition sn_decrypt (m_len : nat) (c : list byte) (ad : option (list byte))
  (npub k : list byte) : result lib_failure (list byte) :=
  if negb (m_len + ABYTES =? length c)%nat then Throw (BadLength "m")
  else if negb (length npub =? NPUBBYTES)%nat then Throw (BadLength "npub")
  else if negb (length k =? KEYBYTES)%nat then Throw (BadLength "k")
  else match aead_decrypt c (default [] ad) npub k with
       | Some m => Ok m
       | None => Throw VerificationFailed
       end.

(** [ChaChaEncryption.encryptSegment]: the ciphertext buffer is allocated
    with [plaintext.length + ABYTES] bytes and filled by the binding. *)
Definition encryptSegment (plaintext key nonce : list byte)
  (additionalData : option (list byte)) : result js_error (list byte) :=
  let ciphertext_len := (length plaintext + ABYTES)%nat in
  lift (sn_encrypt ciphertext_len plaintext additionalData nonce key).

(** [ChaChaEncryption.decryptSegment]: [Buffer.alloc] throws on the
    negative size a ciphertext shorter than the tag gives. *)
Definition decryptSegment (ciphertext key nonce : list byte)
  (additionalData : option (list byte)) : result js_error (list byte) :=
  if (length ciphertext <? ABYTES)%nat then Throw (Thrown InvalidBufferSize)
  else
    let plaintext_len := (length ciphertext - ABYTES)%nat in
    lift (sn_decrypt plaintext_len ciphertext additionalData nonce key).

(** The records pushed by [encryptHLSSegments]. *)
Record segment := {
  original : string;
  encrypted : string;
  nonce : string;
  size : nat;
  encryptedSize : nat
}.

Definition playlist_header (segmentDuration : N) (masterKey : list byte)
  : string :=
  "#EXTM3U" +:+ nl
  +:+ "#EXT-X-VERSION:3" +:+ nl
  +:+ "#EXT-X-TARGETDURATION:" +:+ pretty segmentDuration +:+ nl
  +:+ "#EXT-X-MEDIA-SEQUENCE:0" +:+ nl
  +:+ "#EXT-X-PLAYLIST-TYPE:VOD" +:+ nl
  +:+ nl
  +:+ "#EXT-X-CUSTOM-KEY:METHOD=CHACHA20-POLY1305,URI="
  +:+ String DQUOTE "data:text/plain;base64,"
  +:+ Base64.to_base64 masterKey +:+ String DQUOTE nl
  +:+ nl.

Definition segment_entry (segmentDuration : N) (s : segment) : string :=
  "#EXTINF:" +:+ pretty segmentDuration +:+ ".0," +:+ nl
  +:+ "#EXT-X-SEGMENT-NONCE:" +:+ nonce s +:+ nl
  +:+ encrypted s +:+ nl.

(** [generateCustomM3U8]: the header, one entry appended per segment by
    [forEach], then the end marker.  The duration is a natural number; the
    template literal prints it in decimal as long as it is a safe integer
    (below 2^53), which the statements about the duration lines assume. *)
Definition generateCustomM3U8 (encryptedSegments : list segment)
  (masterKey : list byte) (segmentDuration : N) : string :=
  let playlist := playlist_header segmentDuration masterKey in
  let playlist :=
    fold_left (fun pl s => pl +:+ segment_entry segmentDuration s)
              encryptedSegments playlist in
  playlist +:+ "#EXT-X-ENDLIST".

(** *** [generateKey], [generateNonce] and [encryptHLSSegments] *)

(** [sodium.randombytes_buf]: the random source is a tape of bytes, read
    from a position on. *)
Record Rng := { tape : nat -> byte; position : nat }.

Definition randombytes_buf (n : nat) (r : Rng) : list byte * Rng :=
  (map (tape r) (seq (position r) n),
   {| tape := tape r; position := (position r + n)%nat |}).

Definition generateKey (r : Rng) : list byte * Rng :=
  randombytes_buf KEYBYTES r.

Definition generateNonce (r : Rng) : list byte * Rng :=
  randombytes_buf NPUBBYTES r.

(** [s.replace(pat, rep)] with a string pattern: the first occurrence
    only. *)
Fixpoint replace (s pat rep : string) : string :=
  if startsWith s pat then rep +:+ skip (String.length pat) s
  else match s with
       | EmptyString => ""
       | String c s' => String c (replace s' pat rep)
       end.

(** The segment directory as [fs] shows it: whether it can be listed at
    all, the names in the order [readdir] lists them, the content of each
    file that can be read, and the names that can be written (a name taken
    by a directory, a missing permission or a full disk make a write
    fail). *)
Record Directory := {
  listable : bool;
  names : list string;
  contents : gmap string (list byte);
  writable : string -> bool
}.

(** [fs.readdir]: rejects when the directory is missing or unreadable. *)
Definition readdir (d : Directory) : option (list string) :=
  if listable d then Some (names d) else None.

(** [fs.readFile]: rejects when the file is missing or unreadable. *)
Definition readFile (d : Directory) (name : string) : option (list byte) :=
  contents d !! name.

(** [fs.writeFile]: creates the file or replaces its content, and rejects
    when the name cannot be written. *)
Definition writeFile (name : string) (data : list byte) (d : Directory)
  : option Directory :=
  if writable d name then
    Some {| listable := listable d;
            names := if bool_decide (name ∈ names d) then names d
                     else names d ++ [name];
            contents := <[name := data]> (contents d);
            writable := writable d |}
  else None.

(** How the promise of [encryptHLSSegments] is rejected. *)
Inductive pipeline_error :=
| ListingFailed                       (* readdir rejected *)
| ReadFailed (name : string)          (* readFile rejected *)
| WriteFailed (name : string)         (* writeFile rejected *)
| CipherError (e : js_error).         (* encryptSegment threw *)

(** The loop over the segments of [encryptHLSSegments], threading the
    directory, the random source and the records pushed so far. *)
Fixpoint encrypt_segments (masterKey : list byte) (segments : list string)
  (d : Directory) (r : Rng) (encryptedSegments : list segment)
  : result pipeline_error (list segment * Directory * Rng) :=
  match segments with
  | [] => Ok (encryptedSegments, d, r)
  | segment :: rest =>
      match readFile d segment with
      | None => Throw (ReadFailed segment)
      | Some segmentData =>
          let '(nonce, r) := generateNonce r in
          match encryptSegment segmentData masterKey nonce None with
          | Throw e => Throw (CipherError e)
          | Ok encryptedData =>
              let encryptedFilename := replace segment ".ts" ".enc" in
              match writeFile encryptedFilename encryptedData d with
              | None => Throw (WriteFailed encryptedFilename)
              | Some d =>
                  encrypt_segments masterKey rest d r
                    (encryptedSegments
                     ++ [ {| original := segment;
                             encrypted := encryptedFilename;
                             nonce := Base64.to_base64 nonce;
                             size := length segmentData;
                             encryptedSize := length encryptedData |} ])
              end
          end
      end
  end.

(** [encryptHLSSegments]: the key is drawn first, then the directory is
    listed and its .ts files are taken in the order of the listing. *)
Definition encryptHLSSegments (d : Directory) (r : Rng)
  : result pipeline_error (list byte * list segment * Directory * Rng) :=
  let '(masterKey, r) := generateKey r in
  match readdir d with
  | None => Throw ListingFailed
  | Some files =>
      let segments := List.filter (fun file => endsWith file ".ts") files in
      match encrypt_segments masterKey segments d r [] with
      | Ok (encryptedSegments, d, r) =>
          Ok (masterKey, encryptedSegments, d, r)
      | Throw e => Throw e
      end
  end.

End Server.

(* ===================================================================== *)
(** ** The loader: [EncryptedSegmentLoader]                                *)
(* ===================================================================== *)

Module Loader.
Import ChaCha20Poly1305.

Definition NONCE_TAG : string := "#EXT-X-SEGMENT-NONCE:".
Definition KEY_TAG : string := "#EXT-X-CUSTOM-KEY:".

(** *** [parseSegmentNonces] *)

(** The inner loop over [j]: the first later line that is neither a comment
    nor blank, trimmed. *)
Fixpoint next_segment_line (ls : list string) : option string :=
  match ls with
  | [] => None
  | l :: rest =>
      if negb (startsWith l "#") && truthy (trim l) then Some (trim l)
      else next_segment_line rest
  end.

(** [line.split(':')[1]]. *)
Definition nonce_payload (line : string) : string :=
  nth 1 (split ":" line) "".

(** The outer loop over [i], threading the map being filled. *)
Fixpoint parse_nonce_lines (ls : list string) (nonces : gmap string string)
  : gmap string string :=
  match ls with
  | [] => nonces
  | line :: rest =>
      if startsWith line NONCE_TAG then
        match next_segment_line rest with
        | Some k => parse_nonce_lines rest (<[k := nonce_payload line]> nonces)
        | None => parse_nonce_lines rest nonces
        end
      else parse_nonce_lines rest nonces
  end.

Definition parseSegmentNonces (m3u8Content : string) : gmap string string :=
  parse_nonce_lines (split LF m3u8Content) ∅.

(** *** [cleanM3U8ForHls] *)

(** [window.location]. *)
Record Location := { protocol : string; host : string }.

Definition opt_truthy (o : option string) : bool :=
  match o with Some s => truthy s | None => false end.

(** The loop over the lines, threading [cleanedLines]. *)
Fixpoint clean_lines (loc : Location) (baseUrl : option string)
  (lines : list string) (cleanedLines : list string) : list string :=
  match lines with
  | [] => cleanedLines
  | l :: rest =>
      let line := trim l in
      if negb (truthy line) then clean_lines loc baseUrl rest cleanedLines
      else if startsWith line KEY_TAG || startsWith line NONCE_TAG
      then clean_lines loc baseUrl rest cleanedLines
      else if negb (startsWith line "#") && endsWith line ".enc"
              && opt_truthy baseUrl
              && (startsWith (default "" baseUrl) "blob:"
                  && negb (startsWith line "http")
                  && negb (startsWith line "/"))
      then
        let serverUrl :=
          protocol loc +:+ "//" +:+ host loc
          +:+ "/output/my-encrypted-video/" +:+ line in
        clean_lines loc baseUrl rest (cleanedLines ++ [serverUrl])
      else clean_lines loc baseUrl rest (cleanedLines ++ [line])
  end.

Definition cleanM3U8ForHls (loc : Location) (m3u8Content : string)
  (baseUrl : option string) : string :=
  join nl (clean_lines loc baseUrl (split LF m3u8Content) []).

(** *** Shared state *)

Record EncryptionState := {
  decryptionKey : option (list byte);
  sodium : bool;                       (* libsodium is loaded *)
  segmentNonces : gmap string string
}.

(** *** [parseEncryptionKey] *)

Definition URI_PREFIX : string :=
  "URI=" +:+ String DQUOTE "data:text/plain;base64,".

(** A dot of the regular expression matches anything but a line
    terminator. *)
Definition is_line_terminator (c : ascii) : bool :=
  match N_of_ascii c with
  | 10 | 13 => true
  | _ => false
  end%N.

(** The run of code units before the first quote; [None] without one. *)
Fixpoint quoted_run (s : string) : option string :=
  match s with
  | EmptyString => None
  | String c s' =>
      if Ascii.eqb c DQUOTE then Some "" else String c <$> quoted_run s'
  end.

(** The group: one code unit or more, none a quote, then a quote. *)
Definition key_capture (s : string) : option string :=
  match quoted_run s with
  | Some (String c r) => Some (String c r)
  | _ => None
  end.

Definition try_uri (s : string) : option string :=
  if startsWith s URI_PREFIX
  then key_capture (skip (String.length URI_PREFIX) s)
  else None.

(** The greedy dot-star: the prefix is tried at the farthest position
    first, then nearer ones. *)
Fixpoint after_tag (s : string) : option string :=
  match s with
  | EmptyString => try_uri s
  | String c s' =>
      if is_line_terminator c then try_uri s
      else match after_tag s' with
           | Some k => Some k
           | None => try_uri s
           end
  end.

(** [m3u8Content.match(...)]: the leftmost match, its first group. *)
Fixpoint key_match (s : string) : option string :=
  match (if startsWith s KEY_TAG
         then after_tag (skip (String.length KEY_TAG) s) else None) with
  | Some k => Some k
  | None =>
      match s with
      | EmptyString => None
      | String _ s' => key_match s'
      end
  end.

(** [from_base64] of libsodium, then [atob] when it throws. *)
Definition decode_base64 (s : string) : result lib_failure (list byte) :=
  match Base64.from_base64 s with
  | Some b => Ok b
  | None =>
      match Base64.atob s with
      | Some binaryString => Ok (bytes_of_binary_string binaryString)
      | None => Throw InvalidCharacter
      end
  end.

Definition parseEncryptionKey (st : EncryptionState) (m3u8Content : string)
  : result js_error (list byte) :=
  match key_match m3u8Content with
  | Some group =>
      let keyString := trim group in
      if sodium st then
        try_catch (decode_base64 keyString)
                  (fun _ => Throw InvalidBase64KeyFormat)
      else Throw EncryptionKeyNotFound
  | None => Throw EncryptionKeyNotFound
  end.

(** *** [decryptSegment] *)

(** libsodium-wrappers' [crypto_aead_chacha20poly1305_ietf_decrypt]: the
    arguments are checked in order, then the tag. *)
Definition ls_decrypt (ciphertext : list byte)
  (additional_data : option (list byte)) (public_nonce key : list byte)
  : result lib_failure (list byte) :=
  if (length ciphertext <? ABYTES)%nat then Throw CiphertextTooShort
  else if negb (length public_nonce =? NPUBBYTES)%nat
  then Throw (BadLength "public_nonce")
  else if negb (length key =? KEYBYTES)%nat then Throw (BadLength "key")
  else match aead_decrypt ciphertext (default [] additional_data)
                          public_nonce key with
       | Some m => Ok m
       | None => Throw VerificationFailed
       end.

Definition decryptSegment (st : EncryptionState) (encryptedData : list byte)
  (key : list byte) (nonce : string) : result js_error (list byte) :=
  if negb (sodium st) then Throw SodiumNotInitialized
  else
    try_catch
      (nonceBuffer ← lift (decode_base64 nonce);
       let encryptedArray := encryptedData in
       if negb (length key =? 32)%nat
       then Throw (InvalidKeySize (length key))
       else if negb (length nonceBuffer =? 12)%nat
       then Throw (InvalidNonceSize (length nonceBuffer))
       else lift (ls_decrypt encryptedArray None nonceBuffer key))
      (fun error => Throw (DecryptionFailed error)).

(** *** [load]: the [onload] handler *)

Inductive body :=
| TextBody (text : string)            (* responseType 'text' *)
| BinaryBody (bytes : list byte).     (* responseType 'arraybuffer' *)

Record Xhr := { status : Z; statusText : string; response : body }.

Inductive callback :=
| onSuccess (url : string) (data : body) (loaded : nat)
| onError (code : Z) (text : string).

(** [url.split('/').pop()]. *)
Definition basename (url : string) : option string := pop (split "/" url).

Definition with_key (st : EncryptionState) (k : list byte) : EncryptionState :=
  {| decryptionKey := Some k; sodium := sodium st;
     segmentNonces := segmentNonces st |}.

Definition with_nonces (st : EncryptionState) (m : gmap string string)
  : EncryptionState :=
  {| decryptionKey := decryptionKey st; sodium := sodium st;
     segmentNonces := m |}.

(** The segment branch, inside the outer [try]. *)
Definition load_segment (st : EncryptionState) (url : string)
  (data : list byte) : result js_error (list byte) :=
  let filename := basename url in
  let nonce :=
    match filename with
    | Some f => if truthy f then segmentNonces st !! f else None
    | None => None
    end in
  nonce ←
    match nonce with
    | Some n =>
        if truthy n then Ok n
        else Throw (NonceNotFound (default "undefined" filename))
    | None => Throw (NonceNotFound (default "undefined" filename))
    end;
  key ←
    match decryptionKey st with
    | Some k => Ok k
    | None => Throw DecryptionKeyNotAvailable
    end;
  decryptSegment st data key nonce.

Definition onload (loc : Location) (lib_text : lib_failure -> string)
  (st : EncryptionState) (url : string) (xhr : Xhr)
  : EncryptionState * callback :=
  if status xhr =? 200 then
    match response xhr with
    | TextBody textData =>
        match parseEncryptionKey st textData with
        | Ok key =>
            let st := with_key st key in
            let st := with_nonces st (parseSegmentNonces textData) in
            let cleanedM3U8 := cleanM3U8ForHls loc textData (Some url) in
            (st, onSuccess url (TextBody cleanedM3U8) (String.length textData))
        | Throw keyError =>
            (st, onSuccess url (TextBody textData) (String.length textData))
        end
    | BinaryBody data =>
        if endsWith url ".enc" then
          match load_segment st url data with
          | Ok decryptedData =>
              (st, onSuccess url (BinaryBody decryptedData) (length data))
          | Throw error =>
              (st, onError (status xhr) (message lib_text error))
          end
        else (st, onSuccess url (BinaryBody data) (length data))
    end
  else (st, onError (status xhr) (statusText xhr)).

(** [xhr.onerror]: no response at all. *)
Definition onerror (st : EncryptionState) (xhr : Xhr)
  : EncryptionState * callback :=
  (st, onError (status xhr) "Network Error").

(** How the request issued by [load] ends. *)
Inductive completion :=
| Loaded (xhr : Xhr)
| Failed (xhr : Xhr).

(** [load]: the request is sent, and one of the two handlers runs when it
    ends. *)
Definition load (loc : Location) (lib_text : lib_failure -> string)
  (st : EncryptionState) (url : string) (c : completion)
  : EncryptionState * callback :=
  match c with
  | Loaded xhr => onload loc lib_text st url xhr
  | Failed xhr => onerror st xhr
  end.

End Loader.

(* ===================================================================== *)
(** ** Vocabulary of the statements                                        *)
(* ===================================================================== *)

Fixpoint all_chars (p : ascii -> bool) (s : string) : bool :=
  match s with
  | EmptyString => true
  | String c s' => p c && all_chars p s'
  end.

(** Text over the base64 alphabet, padding sign included. *)
Definition is_base64_char (c : ascii) : bool :=
  match Base64.index_in Base64.std_alphabet c with
  | Some _ => true
  | None => Ascii.eqb c Base64.PAD
  end.

Definition is_base64_text (s : string) : bool := all_chars is_base64_char s.

(** A segment reference that is a bare file name: not empty, no path
    separator, no line break, no surrounding white space, and not a
    comment line. *)
Definition bare_filename (s : string) : bool :=
  truthy s && negb (startsWith s "#") && String.eqb (trim s) s
  && lacks LF s && lacks "/" s.

(** A line that the scan for a segment reference steps over. *)
Definition skipped (l : string) : bool :=
  startsWith l "#" || negb (truthy (trim l)).

(** [ls] as text, one line break after each line, then [rest]. *)
Fixpoint unlines (ls : list string) (rest : string) : string :=
  match ls with
  | [] => rest
  | l :: ls' => l +:+ String LF (unlines ls' rest)
  end.

(** The lines [generateCustomM3U8] writes. *)
Definition header_lines (segmentDuration : N) (masterKey : list byte)
  : list string :=
  [ "#EXTM3U"; "#EXT-X-VERSION:3";
    "#EXT-X-TARGETDURATION:" +:+ pretty segmentDuration;
    "#EXT-X-MEDIA-SEQUENCE:0"; "#EXT-X-PLAYLIST-TYPE:VOD"; "";
    "#EXT-X-CUSTOM-KEY:METHOD=CHACHA20-POLY1305,URI="
      +:+ String DQUOTE "data:text/plain;base64,"
      +:+ Base64.to_base64 masterKey +:+ String DQUOTE "";
    "" ].

Definition entry_lines (segmentDuration : N) (s : Server.segment)
  : list string :=
  [ "#EXTINF:" +:+ pretty segmentDuration +:+ ".0,";
    "#EXT-X-SEGMENT-NONCE:" +:+ Server.nonce s;
    Server.encrypted s ].

(** The table a list of segments describes: each reference bound to its
    nonce, in order. *)
Definition table_of (segs : list Server.segment) : gmap string string :=
  fold_left (fun m s => <[Server.encrypted s := Server.nonce s]> m) segs ∅.

(** A line carrying one of the two proprietary directives. *)
Definition is_proprietary (line : string) : bool :=
  startsWith line Loader.KEY_TAG || startsWith line Loader.NONCE_TAG.

(** A trimmed line that the cleaning keeps. *)
Definition kept (line : string) : bool :=
  truthy line && negb (is_proprietary line).

(** A reference that the cleaning rewrites under the base URL. *)
Definition rewritable (baseUrl : option string) (line : string) : bool :=
  negb (startsWith line "#") && endsWith line ".enc"
  && Loader.opt_truthy baseUrl
  && (startsWith (default "" baseUrl) "blob:"
      && negb (startsWith line "http")
      && negb (startsWith line "/")).

Definition served_from (loc : Loader.Location) (line : string) : string :=
  Loader.protocol loc +:+ "//" +:+ Loader.host loc
  +:+ "/output/my-encrypted-video/" +:+ line.

Definition resolve (loc : Loader.Location) (baseUrl : option string)
  (line : string) : string :=
  if rewritable baseUrl line then served_from loc line else line.

(** [p] occurs somewhere in [s]. *)
Fixpoint contains (s p : string) : bool :=
  startsWith s p
  || match s with
     | EmptyString => false
     | String _ s' => contains s' p
     end.

(** A code unit that is neither the padding sign nor white space. *)
Definition not_pad_nor_space (c : ascii) : bool :=
  negb (Ascii.eqb c Base64.PAD) && negb (Base64.is_ascii_whitespace c).

(** The four sextets of three bytes, and those of a run of triples. *)
Definition quad (a b c : byte) : list Z :=
  [ Z_of_byte a / 4;
    Z_of_byte a mod 4 * 16 + Z_of_byte b / 16;
    Z_of_byte b mod 16 * 4 + Z_of_byte c / 64;
    Z_of_byte c mod 64 ].

Fixpoint quads (bs : list byte) : list Z :=
  match bs with
  | a :: b :: c :: rest => quad a b c ++ quads rest
  | _ => []
  end.

(** The errors that reject key material of the wrong length: that of the
    server's binding, which looks at the nonce first, and that of the
    loader, which looks at the key first. *)
Definition server_rejection (key nonce : list byte) : js_error :=
  if (length nonce =? 12)%nat then Thrown (BadLength "k")
  else Thrown (BadLength "npub").

Definition loader_rejection (key nonce : list byte) : js_error :=
  DecryptionFailed
    (if (length key =? 32)%nat then InvalidNonceSize (length nonce)
     else InvalidKeySize (length key)).

(** The sextets of any run of bytes, the last one or two bytes giving two
    or three of them, and the padding that completes the last group. *)
Fixpoint sextets_of (bs : list byte) : list Z :=
  match bs with
  | [] => []
  | a :: bs1 =>
      match bs1 with
      | [] => [Z_of_byte a / 4; Z_of_byte a mod 4 * 16]
      | b :: bs2 =>
          match bs2 with
          | [] => [Z_of_byte a / 4;
                   Z_of_byte a mod 4 * 16 + Z_of_byte b / 16;
                   Z_of_byte b mod 16 * 4]
          | c :: rest => quad a b c ++ sextets_of rest
          end
      end
  end.

Fixpoint padding_of (bs : list byte) : string :=
  match bs with
  | [] => ""
  | [_] => "=="
  | [_; _] => "="
  | _ :: _ :: _ :: rest => padding_of rest
  end.

Fixpoint encode_all (l : list Z) : string :=
  match l with
  | [] => ""
  | i :: l' => String (Base64.enc i) (encode_all l')
  end.

Definition is_digit (c : ascii) : bool :=
  match Ascii.is_nat c with Some _ => true | None => false end.

(** [u] differs from [p] at a position that both have. *)
Fixpoint mismatches (u p : string) : bool :=
  match u, p with
  | String a u', String b p' =>
      if Ascii.eqb a b then mismatches u' p' else true
  | _, _ => false
  end.

(** No occurrence of [p] can start inside [a], whatever follows [a]. *)
Fixpoint starts_none (p a : string) : bool :=
  match a with
  | EmptyString => true
  | String _ a' => mismatches a p && starts_none p a'
  end.

(** The standard playlist behind a generated manifest: its lines without
    the key directive, the nonce directives and the blank lines, each
    segment reference resolved under the base URL. *)
Definition standard_lines (loc : Loader.Location) (baseUrl : option string)
  (segmentDuration : N) (segs : list Server.segment) : list string :=
  [ "#EXTM3U"; "#EXT-X-VERSION:3";
    "#EXT-X-TARGETDURATION:" +:+ pretty segmentDuration;
    "#EXT-X-MEDIA-SEQUENCE:0"; "#EXT-X-PLAYLIST-TYPE:VOD" ]
  ++ flat_map (fun s => [ "#EXTINF:" +:+ pretty segmentDuration +:+ ".0,";
                          resolve loc baseUrl (Server.encrypted s) ]) segs
  ++ [ "#EXT-X-ENDLIST" ].

(** A location whose protocol and host are single-line text, the protocol
    not starting with a hash sign. *)
Definition plain_location (loc : Loader.Location) : bool :=
  negb (startsWith (Loader.protocol loc) "#")
  && lacks LF (Loader.protocol loc) && lacks LF (Loader.host loc).

(** A segment file name: it ends in .ts and holds no other occurrence of
    .ts.  Its stem is what stands before the extension. *)
Definition stem (name : string) : string :=
  substring 0 (String.length name - 3) name.

Definition segment_name (name : string) : bool :=
  endsWith name ".ts"
  && negb (contains (substring 0 (String.length name - 1) name) ".ts").

(** The bytes of the random tape from [offset] after the position on. *)
Definition draw (r : Server.Rng) (offset n : nat) : list byte :=
  map (Server.tape r) (seq (Server.position r + offset) n).

(** The files that [encryptHLSSegments] takes from the listing. *)
Definition segment_files (d : Server.Directory) : list string :=
  List.filter (fun file => endsWith file ".ts") (Server.names d).

(** A whole number that a JavaScript number holds exactly and that a
    template literal prints in decimal: [Number.isSafeInteger]. *)
Definition safe_integer (n : N) : bool := (n <? 2 ^ 53)%N.

(** What [encryptHLSSegments] records of one file: the name it writes to
    follows from the name it read, the encrypted size is the size plus the
    tag, the nonce is the text of 12 bytes. *)
Definition record_consistent (s : Server.segment) : Prop :=
  Server.encrypted s = Server.replace (Server.original s) ".ts" ".enc"
  ∧ Server.encryptedSize s = (Server.size s + 16)%nat
  ∧ ∃ N, length N = 12%nat ∧ Server.nonce s = Base64.to_base64 N.

(** *** Sample data *)

(** The inputs of the test vectors of RFC 8439, sections 2.5.2 and
    2.8.2. *)
Definition rfc_key : list byte :=
  map byte_of_Z (map Z.of_nat (seq 128 32)).

Definition rfc_nonce : list byte :=
  map byte_of_Z [7; 0; 0; 0; 64; 65; 66; 67; 68; 69; 70; 71].

Definition rfc_aad : list byte :=
  map byte_of_Z [80; 81; 82; 83; 192; 193; 194; 195; 196; 197; 198; 199].

Definition rfc_plaintext : list byte :=
  bytes_of_binary_string
    ("Ladies and Gentlemen of the class of '99: If I could offer you "
     +:+ "only one tip for the future, sunscreen would be it.").

Definition rfc_poly1305_key : list byte :=
  map byte_of_Z
    [0x85; 0xd6; 0xbe; 0x78; 0x57; 0x55; 0x6d; 0x33;
     0x7f; 0x44; 0x52; 0xfe; 0x42; 0xd5; 0x06; 0xa8;
     0x01; 0x03; 0x80; 0x8a; 0xfb; 0x0d; 0xb2; 0xfd;
     0x4a; 0xbf; 0xf6; 0xaf; 0x41; 0x49; 0xf5; 0x1b].

Definition sample_key : list byte := replicate 32 Byte.x2a.

Definition sample_nonce : list byte :=
  [Byte.x00; Byte.x01; Byte.x02; Byte.x03; Byte.x04; Byte.x05;
   Byte.x06; Byte.x07; Byte.x08; Byte.x09; Byte.x0a; Byte.x0b].

Definition short_key : list byte := replicate 31 Byte.x2a.

Definition sample_plaintext : list byte :=
  [Byte.x47; Byte.x40; Byte.x11; Byte.x10; Byte.x00].

Definition sample_segment (name nonce : string) : Server.segment :=
  {| Server.original := name; Server.encrypted := name;
     Server.nonce := nonce; Server.size := 0; Server.encryptedSize := 16 |}.

Definition sample_segments : list Server.segment :=
  [ sample_segment "segment_000.enc" "AAECAwQFBgcICQoL";
    sample_segment "segment_001.enc" "DA0ODxAREhMUFRYX" ].

Definition sample_key_line : string :=
  "#EXT-X-CUSTOM-KEY:METHOD=CHACHA20-POLY1305,URI="
  +:+ String DQUOTE "data:text/plain;base64,"
  +:+ Base64.to_base64 sample_key +:+ String DQUOTE "".

(** A key directive whose payload is not base64 in either dialect. *)
Definition malformed_key_manifest : string :=
  unlines
    [ "#EXTM3U";
      "#EXT-X-CUSTOM-KEY:METHOD=CHACHA20-POLY1305,URI="
        +:+ String DQUOTE "data:text/plain;base64,!!!" +:+ String DQUOTE "";
      "#EXTINF:10.0,"; "#EXT-X-SEGMENT-NONCE:AAECAwQFBgcICQoL";
      "segment_000.enc" ]
    "#EXT-X-ENDLIST".

Definition sample_url : string := "http://localhost:5173/playlist.m3u8".

Definition sample_lib_text (e : lib_failure) : string := "library error".

Definition sample_directory : Server.Directory :=
  {| Server.listable := true;
     Server.writable := fun _ => true;
     Server.names := ["playlist.m3u8"; "segment0000.ts"; "segment0001.ts"];
     Server.contents :=
       {[ "playlist.m3u8" := [Byte.x23];
          "segment0000.ts" := sample_plaintext;
          "segment0001.ts" := [Byte.x47; Byte.x40] ]} |}.

Definition sample_rng : Server.Rng :=
  {| Server.tape := fun i => byte_of_Z (Z.of_nat (7 * i + 3));
     Server.position := 0 |}.

Definition sample_location : Loader.Location :=
  {| Loader.protocol := "http:"; Loader.host := "localhost:5173" |}.

Definition fresh_state : Loader.EncryptionState :=
  {| Loader.decryptionKey := None; Loader.sodium := true;
     Loader.segmentNonces := ∅ |}.

Definition ok_response (b : Loader.body) : Loader.Xhr :=
  {| Loader.status := 200; Loader.statusText := "OK"; Loader.response := b |}.

(* ===================================================================== *)
(** ** Facts about the string primitives                                   *)
(* ===================================================================== *)

Section StringFacts.

Lemma append_nil_l (s : string) : "" +:+ s = s.
Proof. reflexivity. Qed.

Lemma append_cons (c : ascii) (a b : string) :
  String c a +:+ b = String c (a +:+ b).
Proof. reflexivity. Qed.

Lemma append_nil_r (s : string) : s +:+ "" = s.
Proof. induction s as [|c s IH]; [done|]. by rewrite append_cons, IH. Qed.

Lemma append_assoc (a b c : string) : (a +:+ b) +:+ c = a +:+ (b +:+ c).
Proof.
  induction a as [|x a IH]; [done|]. by rewrite !append_cons, IH.
Qed.

Lemma split_nonempty (sep : ascii) (s : string) : split sep s ≠ [].
Proof.
  induction s as [|c s IH]; simpl; [done|].
  destruct (Ascii.eqb c sep); [done|]. by destruct (split sep s).
Qed.

Lemma lacks_append (c : ascii) (a b : string) :
  lacks c (a +:+ b) = lacks c a && lacks c b.
Proof.
  induction a as [|x a IH]; [done|].
  rewrite append_cons. simpl. rewrite IH. by rewrite andb_assoc.
Qed.

(** A string without the separator is a single field. *)
Lemma split_lacks (sep : ascii) (l : string) :
  lacks sep l = true → split sep l = [l].
Proof.
  induction l as [|c l IH]; simpl; [done|].
  intros [Hc Hl]%andb_prop. apply negb_true_iff in Hc. rewrite Hc.
  by rewrite (IH Hl).
Qed.

(** A field, the separator, then the rest. *)
Lemma split_field (sep : ascii) (l rest : string) :
  lacks sep l = true →
  split sep (l +:+ String sep rest) = l :: split sep rest.
Proof.
  induction l as [|c l IH]; intros H.
  - rewrite append_nil_l. simpl. by rewrite Ascii.eqb_refl.
  - simpl in H. apply andb_prop in H as [Hc Hl]. apply negb_true_iff in Hc.
    rewrite append_cons. simpl. rewrite Hc. by rewrite (IH Hl).
Qed.

Lemma join_cons (sep l : string) (ls : list string) :
  ls ≠ [] → join sep (l :: ls) = l +:+ sep +:+ join sep ls.
Proof. by destruct ls. Qed.

(** Joining the fields of a split gives the string back. *)
Lemma join_split (sep : ascii) (s : string) :
  join (String sep "") (split sep s) = s.
Proof.
  induction s as [|c s IH]; simpl; [done|].
  destruct (Ascii.eqb_spec c sep) as [->|Hne].
  - rewrite join_cons by apply split_nonempty. by rewrite IH.
  - pose proof (split_nonempty sep s) as Hs.
    destruct (split sep s) as [|w ws]; [done|].
    destruct ws as [|w' ws].
    + simpl in *. by rewrite IH.
    + rewrite join_cons by done. rewrite join_cons in IH by done.
      rewrite append_cons. by rewrite IH.
Qed.

Lemma startsWith_append (p s : string) : startsWith (p +:+ s) p = true.
Proof.
  induction p as [|c p IH]; [reflexivity|].
  rewrite append_cons. simpl. by rewrite Ascii.eqb_refl.
Qed.

(** A longer prefix implies a shorter one. *)
Lemma startsWith_trans (s p q : string) :
  startsWith s p = true → startsWith p q = true → startsWith s q = true.
Proof.
  revert s p. induction q as [|c q IH]; intros s p Hsp Hpq; [done|].
  destruct p as [|b p]; [done|]. destruct s as [|a s]; [done|].
  simpl in *. apply andb_prop in Hsp as [H1 H2].
  apply andb_prop in Hpq as [H3 H4].
  apply Ascii.eqb_eq in H1 as ->. rewrite H3. simpl. eauto.
Qed.

End StringFacts.

(* ===================================================================== *)
(** ** Facts about rendering: numbers and base64 never break a line        *)
(* ===================================================================== *)

Section RenderFacts.

Lemma pretty_N_char_not_LF (x : N) :
  Ascii.eqb (pretty_N_char x) LF = false.
Proof. unfold pretty_N_char. by repeat case_match. Qed.

Lemma pretty_N_go_lacks_LF (x : N) (s : string) :
  lacks LF s = true → lacks LF (pretty_N_go x s) = true.
Proof.
  revert s. induction (N.lt_wf_0 x) as [x _ IH]; intros s Hs.
  destruct (decide (x = 0)%N) as [->|Hx]; [by rewrite pretty_N_go_0|].
  rewrite pretty_N_go_step by lia.
  apply IH; [apply N.div_lt; lia|].
  simpl. by rewrite pretty_N_char_not_LF.
Qed.

Lemma pretty_N_lacks_LF (n : N) : lacks LF (pretty n) = true.
Proof.
  unfold pretty, pretty_N. case_decide; [done|].
  by apply pretty_N_go_lacks_LF.
Qed.

Lemma list_ind3 {A} (P : list A → Prop) :
  P [] → (∀ a, P [a]) → (∀ a b, P [a; b]) →
  (∀ a b c l, P l → P (a :: b :: c :: l)) → ∀ l, P l.
Proof.
  intros H0 H1 H2 H3. fix IH 1.
  intros [|a [|b [|c l]]]; [done|done|done|]. apply H3, IH.
Qed.

Lemma enc_not_LF (i : Z) : Ascii.eqb (Base64.enc i) LF = false.
Proof.
  unfold Base64.enc. generalize (Z.to_nat i) as n. intros n.
  unfold Base64.std_alphabet.
  do 64 (destruct n as [|n]; [reflexivity|]). reflexivity.
Qed.

Lemma to_base64_lacks_LF (bs : list byte) :
  lacks LF (Base64.to_base64 bs) = true.
Proof.
  induction bs as [|a|a b|a b c l IH] using list_ind3;
    simpl; rewrite ?enc_not_LF; simpl; auto.
Qed.

Lemma base64_char_not (c x : ascii) :
  is_base64_char x = false → is_base64_char c = true →
  Ascii.eqb c x = false.
Proof.
  intros Hx Hc. destruct (Ascii.eqb_spec c x) as [->|]; congruence.
Qed.

Lemma base64_text_lacks (x : ascii) (s : string) :
  is_base64_char x = false → is_base64_text s = true → lacks x s = true.
Proof.
  intros Hx. induction s as [|c s IH]; simpl; [done|].
  intros [Hc Hs]%andb_prop. rewrite (base64_char_not c x Hx Hc). simpl.
  by apply IH.
Qed.

End RenderFacts.

(* ===================================================================== *)
(** ** Facts about [parseSegmentNonces]                                    *)
(* ===================================================================== *)

Section ParserFacts.
Import Loader.

Lemma split_unlines (ls : list string) (rest : string) :
  Forall (fun l => lacks LF l = true) ls →
  split LF (unlines ls rest) = ls ++ split LF rest.
Proof.
  induction 1 as [|l ls Hl _ IH]; simpl; [done|].
  by rewrite split_field, IH.
Qed.

Lemma next_segment_line_here (l : string) (rest : list string) :
  skipped l = false → next_segment_line (l :: rest) = Some (trim l).
Proof.
  unfold skipped. intros [H1 H2]%orb_false_elim. cbn [next_segment_line].
  apply negb_false_iff in H2. by rewrite H1, H2.
Qed.

Lemma next_segment_line_skip (l : string) (rest : list string) :
  skipped l = true → next_segment_line (l :: rest) = next_segment_line rest.
Proof.
  unfold skipped. intros H. cbn [next_segment_line].
  destruct (startsWith l "#"); [done|]. cbn [orb negb andb] in *.
  apply negb_true_iff in H. by rewrite H.
Qed.

(** Comment and blank lines at the end never provide a reference. *)
Lemma next_segment_line_tail (ls tail : list string) :
  Forall (fun l => skipped l = true) tail →
  next_segment_line (ls ++ tail) = next_segment_line ls.
Proof.
  intros Htail. induction ls as [|l ls IH].
  - simpl. induction Htail as [|t tail Ht _ IH]; [done|].
    by rewrite next_segment_line_skip.
  - destruct (skipped l) eqn:Hl.
    + rewrite <- app_comm_cons. by rewrite !next_segment_line_skip.
    + rewrite <- app_comm_cons. by rewrite !next_segment_line_here.
Qed.

Lemma parse_other_line (line : string) (rest : list string)
  (acc : gmap string string) :
  startsWith line NONCE_TAG = false →
  parse_nonce_lines (line :: rest) acc = parse_nonce_lines rest acc.
Proof. intros H. cbn [parse_nonce_lines]. by rewrite H. Qed.

Lemma not_comment_not_directive (l : string) :
  startsWith l "#" = false → startsWith l NONCE_TAG = false.
Proof.
  intros H. destruct (startsWith l NONCE_TAG) eqn:E; [|done].
  rewrite <- H. symmetry. by eapply startsWith_trans.
Qed.

(** Lines after which nothing but comments and blanks follow leave the
    table as it is. *)
Lemma parse_skipped_tail (tail : list string) (acc : gmap string string) :
  Forall (fun l => skipped l = true) tail →
  parse_nonce_lines tail acc = acc.
Proof.
  induction 1 as [|l tail Hl Htail IH]; cbn [parse_nonce_lines]; [done|].
  pose proof (next_segment_line_tail [] tail Htail) as Hn.
  cbn [app next_segment_line] in Hn.
  rewrite Hn. by destruct (startsWith l NONCE_TAG).
Qed.

Lemma parse_app_skipped_tail (ls tail : list string)
  (acc : gmap string string) :
  Forall (fun l => skipped l = true) tail →
  parse_nonce_lines (ls ++ tail) acc = parse_nonce_lines ls acc.
Proof.
  intros Htail. revert acc. induction ls as [|l ls IH]; intros acc.
  - by apply parse_skipped_tail.
  - cbn [app parse_nonce_lines]. rewrite next_segment_line_tail by done.
    destruct (startsWith l NONCE_TAG); [|by apply IH].
    destruct (next_segment_line ls); by apply IH.
Qed.

(** The payload of a nonce directive is what follows the tag, up to the
    next colon. *)
Lemma nonce_payload_directive (n : string) :
  lacks ":" n = true → nonce_payload (NONCE_TAG +:+ n) = n.
Proof.
  intros Hn. unfold nonce_payload, NONCE_TAG.
  change ("#EXT-X-SEGMENT-NONCE:" +:+ n)
    with ("#EXT-X-SEGMENT-NONCE" +:+ String ":" n).
  rewrite split_field by reflexivity. by rewrite split_lacks.
Qed.

Lemma bare_filename_inv (s : string) :
  bare_filename s = true →
  truthy s = true ∧ startsWith s "#" = false ∧ trim s = s
  ∧ lacks LF s = true ∧ lacks "/" s = true.
Proof.
  unfold bare_filename. rewrite !andb_true_iff, negb_true_iff.
  intros [[[[? ?] ?%String.eqb_eq] ?] ?]. done.
Qed.

Lemma basename_bare (s : string) :
  lacks "/" s = true → basename s = Some s.
Proof. intros H. unfold basename, pop. by rewrite split_lacks. Qed.

End ParserFacts.

(* ===================================================================== *)
(** ** Facts about [generateCustomM3U8]                                    *)
(* ===================================================================== *)

Section ManifestFacts.
Import Server Loader.

Lemma unlines_app (a b : list string) (rest : string) :
  unlines (a ++ b) rest = unlines a (unlines b rest).
Proof. induction a as [|l a IH]; simpl; [done|]. by rewrite IH. Qed.

Lemma entry_unlines (dur : N) (s : segment) (rest : string) :
  segment_entry dur s +:+ rest = unlines (entry_lines dur s) rest.
Proof.
  unfold segment_entry, entry_lines. cbn [unlines].
  rewrite !append_assoc. reflexivity.
Qed.

Lemma header_unlines (dur : N) (key : list byte) (rest : string) :
  playlist_header dur key +:+ rest = unlines (header_lines dur key) rest.
Proof.
  unfold playlist_header, header_lines. cbn [unlines].
  rewrite !append_assoc. reflexivity.
Qed.

Lemma entries_unlines (dur : N) (segs : list segment) (pre : string) :
  fold_left (fun pl s => pl +:+ segment_entry dur s) segs pre
    +:+ "#EXT-X-ENDLIST"
  = pre +:+ unlines (flat_map (entry_lines dur) segs) "#EXT-X-ENDLIST".
Proof.
  revert pre. induction segs as [|s segs IH]; intros pre; [done|].
  cbn [fold_left flat_map]. rewrite IH, append_assoc, entry_unlines.
  by rewrite unlines_app.
Qed.

(** The manifest, line by line. *)
Lemma generate_lines (segs : list segment) (key : list byte) (dur : N) :
  Forall (fun s => lacks LF (nonce s) = true
                   ∧ lacks LF (encrypted s) = true) segs →
  split LF (generateCustomM3U8 segs key dur)
  = header_lines dur key ++ flat_map (entry_lines dur) segs
    ++ ["#EXT-X-ENDLIST"].
Proof.
  intros Hsegs. unfold generateCustomM3U8.
  rewrite entries_unlines, header_unlines, <- unlines_app.
  rewrite split_unlines; [by rewrite <- app_assoc|].
  apply Forall_app. split.
  - unfold header_lines.
    repeat (apply Forall_cons; split;
            [rewrite ?lacks_append, ?pretty_N_lacks_LF, ?to_base64_lacks_LF;
             reflexivity|]).
    apply Forall_nil_2.
  - induction Hsegs as [|s segs [Hn He] _ IH]; [apply Forall_nil_2|].
    cbn [flat_map]. apply Forall_app. split; [|done].
    unfold entry_lines.
    repeat (apply Forall_cons; split;
            [rewrite ?lacks_append, ?pretty_N_lacks_LF, ?Hn, ?He;
             reflexivity|]).
    apply Forall_nil_2.
Qed.

(** The header holds no nonce directive. *)
Lemma parse_header (dur : N) (key : list byte) (rest : list string)
  (acc : gmap string string) :
  parse_nonce_lines (header_lines dur key ++ rest) acc
  = parse_nonce_lines rest acc.
Proof.
  unfold header_lines. cbn [app].
  by rewrite !parse_other_line by reflexivity.
Qed.

(** One entry binds the reference to its nonce. *)
Lemma parse_entry (dur : N) (s : segment) (rest : list string)
  (acc : gmap string string) :
  bare_filename (encrypted s) = true → lacks ":" (nonce s) = true →
  parse_nonce_lines (entry_lines dur s ++ rest) acc
  = parse_nonce_lines rest (<[encrypted s := nonce s]> acc).
Proof.
  intros (Ht & Hc & Htrim & _ & _)%bare_filename_inv Hn.
  unfold entry_lines. cbn [app].
  rewrite parse_other_line by reflexivity.
  cbn [parse_nonce_lines].
  change ("#EXT-X-SEGMENT-NONCE:" +:+ nonce s) with (NONCE_TAG +:+ nonce s).
  rewrite startsWith_append, nonce_payload_directive by done.
  rewrite next_segment_line_here, Htrim.
  - by rewrite (not_comment_not_directive _ Hc).
  - unfold skipped. by rewrite Hc, Htrim, Ht.
Qed.

Lemma parse_entries (dur : N) (segs : list segment)
  (acc : gmap string string) :
  Forall (fun s => bare_filename (encrypted s) = true
                   ∧ lacks ":" (nonce s) = true) segs →
  parse_nonce_lines (flat_map (entry_lines dur) segs ++ ["#EXT-X-ENDLIST"])
                    acc
  = fold_left (fun m s => <[encrypted s := nonce s]> m) segs acc.
Proof.
  intros Hsegs. revert acc.
  induction Hsegs as [|s segs [Hf Hn] _ IH]; intros acc; [done|].
  cbn [flat_map fold_left]. rewrite <- app_assoc, parse_entry by done.
  apply IH.
Qed.

Lemma table_lookup (segs : list segment) (s : segment)
  (acc : gmap string string) :
  NoDup (map encrypted segs) → s ∈ segs →
  fold_left (fun m s => <[encrypted s := nonce s]> m) segs acc
    !! encrypted s = Some (nonce s).
Proof.
  revert acc. induction segs as [|t segs IH]; intros acc Hnd Hin.
  - by apply elem_of_nil in Hin.
  - cbn [map] in Hnd. apply NoDup_cons in Hnd as [Hnotin Hnd].
    cbn [fold_left]. apply elem_of_cons in Hin as [->|Hin].
    + clear IH. revert acc Hnotin.
      induction segs as [|u segs IH]; intros acc Hnotin.
      * cbn. by rewrite lookup_insert_eq.
      * cbn [fold_left]. cbn [map] in *.
        apply not_elem_of_cons in Hnotin as [Hne Hnotin].
        apply NoDup_cons in Hnd as [_ Hnd].
        rewrite insert_insert_ne by done. by apply IH.
    + by apply IH.
Qed.

End ManifestFacts.

(* ===================================================================== *)
(** ** The manifest codec: round trip, truncation, keying                  *)
(* ===================================================================== *)

Section ManifestClaims.
Import Server Loader.

(** C3, as stated, fails: a segment whose file name starts with a hash
    sign is written as a line the parser reads as a comment, so the table
    built from the rendered manifest has no entry for it. *)
Lemma manifest_round_trip_comment_name :
  let seg := sample_segment "#1.enc" "AAECAwQFBgcICQoL" in
  [seg] ≠ [] ∧ is_base64_text (nonce seg) = true
  ∧ basename (encrypted seg) = Some "#1.enc"
  ∧ parseSegmentNonces (generateCustomM3U8 [seg] sample_key 10) !! "#1.enc"
    = None.
Proof. cbv zeta. split; [done|]. by vm_compute. Qed.

(** C3, amended: for segments whose references are distinct bare file
    names (not empty, no path separator, no line break, no surrounding
    white space, not starting with a hash sign) and whose nonces are
    base64 text, parsing the manifest rendered by [generateCustomM3U8]
    gives a table that maps the basename of every segment to the nonce
    supplied for it, whatever the key and the duration. *)
Theorem manifest_round_trip (segs : list segment) (key : list byte)
  (dur : N) (s : segment) :
  NoDup (map encrypted segs) →
  Forall (fun s => bare_filename (encrypted s) = true
                   ∧ is_base64_text (nonce s) = true) segs →
  s ∈ segs →
  ∃ b, basename (encrypted s) = Some b
       ∧ parseSegmentNonces (generateCustomM3U8 segs key dur) !! b
         = Some (nonce s).
Proof.
  intros Hnd Hsegs Hin. exists (encrypted s).
  assert (Hs : bare_filename (encrypted s) = true).
  { rewrite Forall_forall in Hsegs. by destruct (Hsegs s Hin). }
  apply bare_filename_inv in Hs as (_ & _ & _ & _ & Hslash).
  split; [by apply basename_bare|].
  unfold parseSegmentNonces. rewrite generate_lines.
  - rewrite parse_header, parse_entries; [by apply table_lookup|].
    eapply Forall_impl; [exact Hsegs|]. intros t [Hf Hn]. split; [done|].
    by apply base64_text_lacks.
  - eapply Forall_impl; [exact Hsegs|]. intros t [Hf Hn]. split.
    + by apply base64_text_lacks.
    + by apply bare_filename_inv in Hf as (_ & _ & _ & ? & _).
Qed.

Lemma manifest_round_trip_witness :
  ∃ b, basename "segment_001.enc" = Some b
       ∧ parseSegmentNonces (generateCustomM3U8 sample_segments sample_key 10)
           !! b = Some "DA0ODxAREhMUFRYX".
Proof.
  apply (manifest_round_trip sample_segments sample_key 10
           (sample_segment "segment_001.enc" "DA0ODxAREhMUFRYX")).
  - apply (bool_decide_unpack _). vm_compute. exact I.
  - unfold sample_segments.
    repeat (apply Forall_cons; split; [split; vm_compute; reflexivity|]).
    apply Forall_nil_2.
  - unfold sample_segments. repeat constructor.
Defined.

(** C6, as stated, fails: a manifest that ends with a nonce directive is
    parsed without any error; the table holds the entry of the complete
    directive before it and nothing for the truncated one. *)
Lemma truncated_nonce_directive_accepted :
  parseSegmentNonces
    (unlines ["#EXTM3U"; sample_key_line; "#EXTINF:10.0,";
              "#EXT-X-SEGMENT-NONCE:AAECAwQFBgcICQoL"; "segment_000.enc";
              "#EXTINF:10.0,"]
             "#EXT-X-SEGMENT-NONCE:DA0ODxAREhMUFRYX")
  = {[ "segment_000.enc" := "AAECAwQFBgcICQoL" ]}.
Proof. vm_compute. reflexivity. Qed.

(** C6, amended: when a nonce directive is the last non-blank line of a
    manifest, parsing succeeds, and the table is the one the lines before
    the directive give: the directive adds no entry and raises no
    error. *)
Theorem trailing_nonce_directive_ignored (m d : string)
  (ls blanks : list string) :
  split LF m = ls ++ d :: blanks →
  startsWith d NONCE_TAG = true →
  Forall (fun l => truthy (trim l) = false) blanks →
  parseSegmentNonces m = parse_nonce_lines ls ∅.
Proof.
  intros Hm Hd Hblanks. unfold parseSegmentNonces. rewrite Hm.
  apply parse_app_skipped_tail. apply Forall_cons. split.
  - unfold skipped. apply orb_true_iff. left.
    by apply (startsWith_trans d NONCE_TAG "#").
  - eapply Forall_impl; [exact Hblanks|]. intros l Hl. unfold skipped.
    rewrite Hl. apply orb_true_r.
Qed.

Lemma trailing_nonce_directive_ignored_witness :
  parseSegmentNonces
    (unlines ["#EXT-X-SEGMENT-NONCE:AAECAwQFBgcICQoL"; "segment_000.enc";
              "#EXT-X-SEGMENT-NONCE:DA0ODxAREhMUFRYX"; "  "] "")
  = parse_nonce_lines
      ["#EXT-X-SEGMENT-NONCE:AAECAwQFBgcICQoL"; "segment_000.enc"] ∅.
Proof.
  apply (trailing_nonce_directive_ignored _
           "#EXT-X-SEGMENT-NONCE:DA0ODxAREhMUFRYX" _ ["  "; ""]).
  - reflexivity.
  - reflexivity.
  - repeat constructor.
Defined.

(** C7: the table is keyed by the whole trimmed reference line, not by its
    final path component.  For a reference that is an absolute URL the
    loader, which looks the nonce up by the basename of the fetched URL,
    finds nothing and fails the segment fetch. *)
Theorem nonce_table_keyed_by_whole_reference :
  let ref := "https://cdn.example/video/segment_000.enc" in
  let m := unlines ["#EXTM3U"; sample_key_line; "#EXTINF:10.0,";
                    "#EXT-X-SEGMENT-NONCE:AAECAwQFBgcICQoL"; ref]
                   "#EXT-X-ENDLIST" in
  let st := fst (onload sample_location sample_lib_text fresh_state
                        sample_url (ok_response (TextBody m))) in
  segmentNonces st = {[ ref := "AAECAwQFBgcICQoL" ]}
  ∧ decryptionKey st = Some sample_key
  ∧ basename ref = Some "segment_000.enc"
  ∧ segmentNonces st !! "segment_000.enc" = None
  ∧ ∀ data : list byte,
      onload sample_location sample_lib_text st ref
             (ok_response (BinaryBody data))
      = (st, onError 200 "Nonce not found for segment: segment_000.enc").
Proof. cbv zeta. repeat split; by vm_compute. Qed.

End ManifestClaims.

(* ===================================================================== *)
(** ** Manifest cleaning                                                   *)
(* ===================================================================== *)

Section CleaningClaims.
Import Loader.
Context (loc : Location).

Lemma clean_lines_acc (baseUrl : option string) (ls acc : list string) :
  clean_lines loc baseUrl ls acc = acc ++ clean_lines loc baseUrl ls [].
Proof.
  revert acc. induction ls as [|l ls IH]; intros acc.
  - cbn. by rewrite app_nil_r.
  - cbn [clean_lines]. repeat case_match; try apply IH.
    + rewrite (IH (acc ++ _)), (IH ([] ++ _)). by rewrite app_assoc.
    + rewrite (IH (acc ++ _)), (IH ([] ++ _)). by rewrite app_assoc.
Qed.

Lemma clean_lines_app (baseUrl : option string) (ls1 ls2 : list string) :
  clean_lines loc baseUrl (ls1 ++ ls2) []
  = clean_lines loc baseUrl ls1 [] ++ clean_lines loc baseUrl ls2 [].
Proof.
  rewrite <- clean_lines_acc. generalize (@nil string) as acc.
  induction ls1 as [|l ls1 IH]; intros acc; [done|].
  cbn [app clean_lines]. repeat case_match; apply IH.
Qed.

(** The loop, declaratively: trim, filter, resolve. *)
Lemma clean_lines_spec (baseUrl : option string) (ls : list string) :
  clean_lines loc baseUrl ls []
  = map (resolve loc baseUrl) (List.filter kept (map trim ls)).
Proof.
  induction ls as [|l ls IH]; [done|].
  cbn [clean_lines map List.filter]. unfold kept at 1, is_proprietary.
  destruct (truthy (trim l)); cbn [negb andb]; [|done].
  destruct (startsWith (trim l) KEY_TAG || startsWith (trim l) NONCE_TAG);
    cbn [negb]; [done|].
  rewrite clean_lines_acc, IH. cbn [map app]. unfold resolve at 2.
  fold (rewritable baseUrl (trim l)).
  destruct (rewritable _ _); [done|]. by rewrite clean_lines_acc, IH.
Qed.

Lemma filter_map_id (base : option string) (ls : list string) :
  Forall (fun l => trim l = l ∧ kept l = true
                   ∧ rewritable base l = false) ls →
  map (resolve loc base) (List.filter kept (map trim ls)) = ls.
Proof.
  induction 1 as [|l ls (Ht & Hk & Hr) _ IH]; [done|].
  cbn [map List.filter]. rewrite Ht, Hk. cbn [map].
  unfold resolve at 1. by rewrite Hr, IH.
Qed.

(** C8, as stated, fails: a manifest without any proprietary directive but
    with a blank line and an indented line is not returned as it is. *)
Lemma clean_manifest_not_identity :
  let m := unlines ["#EXTM3U"; ""; "#EXTINF:10.0,"] "  segment_000.ts" in
  Forall (fun l => is_proprietary (trim l) = false) (split LF m)
  ∧ cleanM3U8ForHls sample_location m None
    = unlines ["#EXTM3U"; "#EXTINF:10.0,"] "segment_000.ts"
  ∧ cleanM3U8ForHls sample_location m None ≠ m.
Proof.
  cbv zeta. split; [|split].
  - repeat (apply Forall_cons; split; [vm_compute; reflexivity|]).
    apply Forall_nil_2.
  - vm_compute. reflexivity.
  - vm_compute. discriminate.
Qed.

(** C8, amended: the cleaned manifest holds the lines of the manifest,
    each trimmed of surrounding white space, without the blank lines and
    without the proprietary directive lines; every other line is kept, in
    order, a rewritable reference being replaced by its server URL.  For a
    manifest that has no proprietary directive, no blank line, no line with
    surrounding white space and no rewritable reference, the output is
    the input. *)
Theorem clean_manifest_lines (m3u8Content : string)
  (baseUrl : option string) :
  cleanM3U8ForHls loc m3u8Content baseUrl
  = join nl (map (resolve loc baseUrl)
                 (List.filter kept (map trim (split LF m3u8Content))))
  ∧ (Forall (fun l => trim l = l ∧ kept l = true
                      ∧ rewritable baseUrl l = false)
            (split LF m3u8Content) →
     cleanM3U8ForHls loc m3u8Content baseUrl = m3u8Content).
Proof.
  unfold cleanM3U8ForHls. rewrite clean_lines_spec. split; [done|].
  intros H. rewrite filter_map_id by done. apply join_split.
Qed.

Lemma endsWith_truthy (s p : string) :
  truthy p = true → endsWith s p = true → truthy s = true.
Proof.
  intros Hp [Hlen _]%andb_prop. destruct s; [|done].
  by destruct p.
Qed.

Lemma not_comment_not_proprietary (l : string) :
  startsWith l "#" = false → is_proprietary l = false.
Proof.
  intros H. unfold is_proprietary. apply orb_false_intro.
  - destruct (startsWith l KEY_TAG) eqn:E; [|done].
    rewrite <- H. symmetry. by eapply startsWith_trans.
  - by apply not_comment_not_directive.
Qed.

(** C10: under a blob: base URL, a reference line that is a relative
    name ending in .enc (no leading hash sign, http or slash) is replaced
    by protocol//host/output/my-encrypted-video/name, the asset directory
    being the same constant for every manifest; the lines before and after
    it are cleaned as usual. *)
Theorem blob_reference_rewritten (m base l : string)
  (ls1 ls2 : list string) :
  split LF m = ls1 ++ l :: ls2 →
  startsWith base "blob:" = true →
  startsWith (trim l) "#" = false →
  endsWith (trim l) ".enc" = true →
  startsWith (trim l) "http" = false →
  startsWith (trim l) "/" = false →
  cleanM3U8ForHls loc m (Some base)
  = join nl (clean_lines loc (Some base) ls1 []
             ++ (protocol loc +:+ "//" +:+ host loc
                 +:+ "/output/my-encrypted-video/" +:+ trim l)
                :: clean_lines loc (Some base) ls2 []).
Proof.
  intros Hm Hblob Hhash Henc Hhttp Hslash.
  unfold cleanM3U8ForHls. rewrite Hm, clean_lines_app. do 2 f_equal.
  cbn [clean_lines].
  rewrite (endsWith_truthy _ ".enc" eq_refl Henc). cbn [negb].
  pose proof (not_comment_not_proprietary _ Hhash) as Hp.
  unfold is_proprietary in Hp. rewrite Hp.
  assert (Hb : truthy base = true) by (by destruct base).
  change (default "" (Some base)) with base. cbn [opt_truthy].
  rewrite Hhash, Henc, Hb, Hblob, Hhttp, Hslash.
  cbn [negb andb]. by rewrite clean_lines_acc.
Qed.

End CleaningClaims.

Lemma blob_reference_rewritten_witness :
  Loader.cleanM3U8ForHls sample_location
    (unlines ["#EXTM3U"; "#EXTINF:10.0,"; "segment_000.enc"] "#EXT-X-ENDLIST")
    (Some "blob:http://localhost:5173/0b5c")
  = unlines
      ["#EXTM3U"; "#EXTINF:10.0,";
       "http://localhost:5173/output/my-encrypted-video/segment_000.enc"]
      "#EXT-X-ENDLIST".
Proof.
  refine (eq_trans
    (blob_reference_rewritten sample_location _
       "blob:http://localhost:5173/0b5c" "segment_000.enc"
       ["#EXTM3U"; "#EXTINF:10.0,"] ["#EXT-X-ENDLIST"] _ _ _ _ _ _) _);
    reflexivity.
Defined.

Lemma clean_manifest_lines_witness :
  let m := unlines ["#EXTM3U"; "#EXTINF:10.0,"; "segment_000.ts"]
                   "#EXT-X-ENDLIST" in
  Loader.cleanM3U8ForHls sample_location m (Some sample_url) = m.
Proof.
  cbv zeta. apply (clean_manifest_lines sample_location).
  repeat (apply Forall_cons; split;
          [repeat split; vm_compute; reflexivity|]).
  apply Forall_nil_2.
Defined.

(* ===================================================================== *)
(** ** The loader: status codes and manifest errors                        *)
(* ===================================================================== *)

Section LoaderClaims.
Import Loader.

Lemma key_match_absent (s : string) :
  contains s KEY_TAG = false → key_match s = None.
Proof.
  induction s as [|c s IH]; intros H.
  - reflexivity.
  - cbn [contains] in H. apply orb_false_elim in H as [H1 H2].
    cbn [key_match]. rewrite H1. by apply IH.
Qed.

(** C9: a completed response whose status is not exactly 200, be it
    another 2xx status, makes the loader invoke the error callback with
    that status code and the status text; the shared state is left as it
    was and the body is not looked at. *)
Theorem only_status_200_is_success (loc : Location)
  (lib_text : lib_failure → string) (st : EncryptionState)
  (url : string) (xhr : Xhr) :
  status xhr ≠ 200 →
  onload loc lib_text st url xhr
  = (st, onError (status xhr) (statusText xhr)).
Proof.
  intros H. unfold onload.
  destruct (Z.eqb_spec (status xhr) 200); [done|reflexivity].
Qed.

Lemma only_status_200_is_success_witness :
  onload sample_location sample_lib_text fresh_state sample_url
    {| status := 206; statusText := "Partial Content";
       response := TextBody malformed_key_manifest |}
  = (fresh_state, onError 206 "Partial Content").
Proof.
  apply (only_status_200_is_success sample_location sample_lib_text
           fresh_state sample_url
           {| status := 206; statusText := "Partial Content";
              response := TextBody malformed_key_manifest |}).
  simpl. lia.
Defined.

(** C4, as stated, fails on both of its examples.  A key directive whose
    payload is base64 in neither dialect makes [parseEncryptionKey] throw
    its format error, and the loader hands the body to the success
    callback all the same.  A manifest with a valid key directive that
    ends with a truncated nonce directive raises no error at all: the
    loader stores the key and an empty table and hands the cleaned
    manifest to the success callback. *)
Lemma parse_failures_reach_success :
  let truncated := unlines ["#EXTM3U"; sample_key_line; "#EXTINF:10.0,"]
                           "#EXT-X-SEGMENT-NONCE:AAECAwQFBgcICQoL" in
  parseEncryptionKey fresh_state malformed_key_manifest
  = Throw InvalidBase64KeyFormat
  ∧ onload sample_location sample_lib_text fresh_state sample_url
      (ok_response (TextBody malformed_key_manifest))
    = (fresh_state,
       onSuccess sample_url (TextBody malformed_key_manifest)
                 (String.length malformed_key_manifest))
  ∧ onload sample_location sample_lib_text fresh_state sample_url
      (ok_response (TextBody truncated))
    = (with_nonces (with_key fresh_state sample_key) ∅,
       onSuccess sample_url (TextBody (unlines ["#EXTM3U"] "#EXTINF:10.0,"))
                 (String.length truncated)).
Proof. cbv zeta. repeat split; vm_compute; reflexivity. Qed.

(** C4, amended: on a text response with status 200, a manifest without
    key directive makes [parseEncryptionKey] throw its key-not-found error
    and the loader invoke the success callback with the original body
    unmodified, the shared state being left as it was; and whenever the
    key directive decodes, the loader stores the key and the nonce table
    and invokes the success callback with the cleaned manifest, whatever
    the nonce directives are: none of them is a parse failure. *)
Theorem manifest_error_policy (loc : Location)
  (lib_text : lib_failure → string) (st : EncryptionState) (url : string)
  (xhr : Xhr) (textData : string) :
  status xhr = 200 → response xhr = TextBody textData →
  (contains textData KEY_TAG = false →
   parseEncryptionKey st textData = Throw EncryptionKeyNotFound
   ∧ onload loc lib_text st url xhr
     = (st, onSuccess url (TextBody textData) (String.length textData)))
  ∧ (∀ key, parseEncryptionKey st textData = Ok key →
       onload loc lib_text st url xhr
       = (with_nonces (with_key st key) (parseSegmentNonces textData),
          onSuccess url (TextBody (cleanM3U8ForHls loc textData (Some url)))
                    (String.length textData))).
Proof.
  intros Hstatus Hbody. split.
  - intros H.
    assert (Hk : parseEncryptionKey st textData = Throw EncryptionKeyNotFound).
    { unfold parseEncryptionKey. by rewrite key_match_absent. }
    split; [done|]. unfold onload. by rewrite Hstatus, Hbody, Hk.
  - intros key Hk. unfold onload. by rewrite Hstatus, Hbody, Hk.
Qed.

Lemma manifest_error_policy_witness :
  onload sample_location sample_lib_text fresh_state sample_url
    (ok_response (TextBody "#EXTM3U"))
  = (fresh_state, onSuccess sample_url (TextBody "#EXTM3U") 7).
Proof.
  pose proof (manifest_error_policy sample_location sample_lib_text
                fresh_state sample_url (ok_response (TextBody "#EXTM3U"))
                "#EXTM3U" eq_refl eq_refl) as [Hpass _].
  apply Hpass. reflexivity.
Defined.

End LoaderClaims.

(* ===================================================================== *)
(** ** Facts about bytes and the stream cipher                             *)
(* ===================================================================== *)

Section CipherFacts.
Import ChaCha20Poly1305.

Lemma Z_of_byte_range (b : byte) : 0 ≤ Z_of_byte b < 256.
Proof.
  unfold Z_of_byte. pose proof (Byte.to_N_bounded b). lia.
Qed.

Lemma byte_of_Z_of_byte (b : byte) : byte_of_Z (Z_of_byte b) = b.
Proof.
  unfold byte_of_Z. rewrite Z.mod_small by apply Z_of_byte_range.
  unfold Z_of_byte. by rewrite N2Z.id, Byte.of_to_N.
Qed.

Lemma Z_of_byte_of_Z (z : Z) : 0 ≤ z < 256 → Z_of_byte (byte_of_Z z) = z.
Proof.
  intros Hz. unfold byte_of_Z, Z_of_byte. rewrite Z.mod_small by done.
  destruct (Byte.of_N (Z.to_N z)) as [b|] eqn:E.
  - apply Byte.to_of_N in E. rewrite E. lia.
  - apply Byte.of_N_None_iff in E. lia.
Qed.

(** The exclusive or of two bytes is a byte. *)
Lemma lxor_byte_range (a b : Z) :
  0 ≤ a < 256 → 0 ≤ b < 256 → 0 ≤ Z.lxor a b < 256.
Proof.
  intros Ha Hb.
  assert (H0 : 0 ≤ Z.lxor a b) by (apply Z.lxor_nonneg; lia).
  split; [done|].
  destruct (decide (Z.lxor a b = 0)) as [->|Hne]; [lia|].
  apply (Z.log2_lt_pow2 _ 8); [lia|].
  pose proof (Z.log2_lxor a b ltac:(lia) ltac:(lia)) as Hl.
  assert (Z.log2 a < 8).
  { destruct (decide (a = 0)) as [->|]; [done|]. apply Z.log2_lt_pow2; lia. }
  assert (Z.log2 b < 8).
  { destruct (decide (b = 0)) as [->|]; [done|]. apply Z.log2_lt_pow2; lia. }
  lia.
Qed.

Lemma byte_xor_involutive (a b : byte) : byte_xor (byte_xor a b) b = a.
Proof.
  unfold byte_xor.
  rewrite Z_of_byte_of_Z by (apply lxor_byte_range; apply Z_of_byte_range).
  rewrite Z.lxor_assoc, Z.lxor_nilpotent, Z.lxor_0_r.
  apply byte_of_Z_of_byte.
Qed.

Lemma zip_xor_involutive (data ks : list byte) :
  (length data ≤ length ks)%nat →
  zip_with byte_xor (zip_with byte_xor data ks) ks = data.
Proof.
  revert ks. induction data as [|d data IH]; intros [|k ks] Hlen;
    simpl in *; try done; try lia.
  rewrite byte_xor_involutive, IH; [done|lia].
Qed.

Lemma le_bytes_length (n : nat) (z : Z) : length (le_bytes n z) = n.
Proof. revert z. induction n as [|n IH]; intros z; simpl; auto. Qed.

Lemma QR_length (i j k l : nat) (st : list Z) :
  length (QR i j k l st) = length st.
Proof.
  unfold QR. destruct (quarter_round _) as [[[a b] c] d].
  by rewrite !length_insert.
Qed.

Lemma inner_block_length (st : list Z) :
  length (inner_block st) = length st.
Proof. unfold inner_block. by rewrite !QR_length. Qed.

Lemma rounds_length (n : nat) (st : list Z) :
  length (Nat.iter n inner_block st) = length st.
Proof.
  induction n as [|n IH]; [done|].
  rewrite Nat.iter_succ. by rewrite inner_block_length.
Qed.

Lemma flat_map_length_const {A B} (f : A → list B) (k : nat) (l : list A) :
  (∀ x, length (f x) = k) → length (flat_map f l) = (length l * k)%nat.
Proof.
  intros Hf. induction l as [|x l IH]; [done|].
  cbn [flat_map length]. rewrite length_app, Hf, IH. lia.
Qed.

(** A block of key stream has 64 bytes, whatever the key and the nonce. *)
Lemma chacha20_block_length (key : list byte) (counter : Z)
  (nonce : list byte) :
  length (chacha20_block key counter nonce) = 64%nat.
Proof.
  unfold chacha20_block.
  rewrite (flat_map_length_const _ 4) by apply le_bytes_length.
  rewrite length_zip_with, rounds_length. unfold init_state.
  rewrite !length_app, !length_map, !length_seq. reflexivity.
Qed.

Lemma key_stream_length (key : list byte) (counter : Z) (nonce : list byte)
  (n : nat) :
  length (key_stream key counter nonce n) = (64 * n)%nat.
Proof.
  unfold key_stream.
  rewrite (flat_map_length_const _ 64), length_seq; [lia|].
  intros j. apply chacha20_block_length.
Qed.

Lemma blocks_for_enough (len : nat) : (len ≤ 64 * blocks_for len)%nat.
Proof.
  unfold blocks_for.
  pose proof (Nat.div_mod_eq (len + 63) 64).
  pose proof (Nat.mod_upper_bound (len + 63) 64). lia.
Qed.

Lemma chacha20_xor_length (key : list byte) (counter : Z)
  (nonce data : list byte) :
  length (chacha20_xor key counter nonce data) = length data.
Proof.
  unfold chacha20_xor. rewrite length_zip_with, key_stream_length.
  pose proof (blocks_for_enough (length data)). lia.
Qed.

(** The stream cipher is its own inverse. *)
Lemma chacha20_xor_involutive (key : list byte) (counter : Z)
  (nonce data : list byte) :
  chacha20_xor key counter nonce (chacha20_xor key counter nonce data)
  = data.
Proof.
  unfold chacha20_xor at 1. rewrite chacha20_xor_length.
  unfold chacha20_xor. apply zip_xor_involutive.
  rewrite key_stream_length. apply blocks_for_enough.
Qed.

Lemma tag_length (ct ad npub k : list byte) :
  length (tag_of ct ad npub k) = ABYTES.
Proof. unfold tag_of, poly1305_mac. apply le_bytes_length. Qed.

(** What [aead_encrypt] produces, [aead_decrypt] opens. *)
Lemma aead_round_trip (m ad npub k : list byte) :
  aead_decrypt (aead_encrypt m ad npub k) ad npub k = Some m.
Proof.
  unfold aead_decrypt, aead_encrypt.
  set (ct := chacha20_xor k 1 npub m).
  rewrite length_app, tag_length.
  destruct (Nat.ltb_spec (length ct + ABYTES) ABYTES) as [Hlt|_]; [lia|].
  replace (length ct + ABYTES - ABYTES)%nat with (length ct) by lia.
  rewrite take_app_length, drop_app_length.
  rewrite bool_decide_eq_true_2 by done.
  subst ct. by rewrite chacha20_xor_involutive.
Qed.

Lemma aead_encrypt_length (m ad npub k : list byte) :
  length (aead_encrypt m ad npub k) = (length m + ABYTES)%nat.
Proof.
  unfold aead_encrypt. by rewrite length_app, chacha20_xor_length, tag_length.
Qed.

(** Nothing is returned unless the tag carried by the ciphertext is the
    one recomputed from its body. *)
Lemma aead_decrypt_verified (c ad npub k m : list byte) :
  aead_decrypt c ad npub k = Some m →
  tag_of (take (length c - ABYTES) c) ad npub k
  = drop (length c - ABYTES) c
  ∧ m = chacha20_xor k 1 npub (take (length c - ABYTES) c).
Proof.
  unfold aead_decrypt. destruct (length c <? ABYTES)%nat; [done|].
  case_bool_decide; [|done]. by intros [= <-].
Qed.

(** A ciphertext whose tag has been altered is rejected. *)
Lemma altered_tag_rejected (m ad npub k tag : list byte) :
  length tag = ABYTES → tag ≠ tag_of (chacha20_xor k 1 npub m) ad npub k →
  aead_decrypt (chacha20_xor k 1 npub m ++ tag) ad npub k = None.
Proof.
  intros Hlen Hne. unfold aead_decrypt.
  set (ct := chacha20_xor k 1 npub m). rewrite length_app, Hlen.
  destruct (Nat.ltb_spec (length ct + ABYTES) ABYTES) as [Hlt|_]; [lia|].
  replace (length ct + ABYTES - ABYTES)%nat with (length ct) by lia.
  rewrite take_app_length, drop_app_length.
  by rewrite bool_decide_eq_false_2.
Qed.

End CipherFacts.

(* ===================================================================== *)
(** ** Test vectors of RFC 8439                                            *)
(* ===================================================================== *)

Section TestVectors.
Import ChaCha20Poly1305.

(** Section 2.1.1: one quarter round. *)
Example rfc8439_quarter_round :
  quarter_round (0x11111111, 0x01020304, 0x9b8d6f43, 0x01234567)
  = (0xea2a92f4, 0xcb1cf8ce, 0x4581472e, 0x5881c4bb).
Proof. vm_compute. reflexivity. Qed.

(** Section 2.5.2: a Poly1305 tag. *)
Example rfc8439_poly1305 :
  map Z_of_byte
    (poly1305_mac
       (bytes_of_binary_string "Cryptographic Forum Research Group")
       rfc_poly1305_key)
  = [0xa8; 0x06; 0x1d; 0xc1; 0x30; 0x51; 0x36; 0xc6;
     0xc2; 0x2b; 0x8b; 0xaf; 0x0c; 0x01; 0x27; 0xa9].
Proof. vm_compute. reflexivity. Qed.

(** Section 2.8.2: the one-time key, the head of the ciphertext and the
    tag of the AEAD construction. *)
Example rfc8439_aead :
  let c := aead_encrypt rfc_plaintext rfc_aad rfc_nonce rfc_key in
  map Z_of_byte (poly1305_key_gen rfc_key rfc_nonce)
  = [0x7b; 0xac; 0x2b; 0x25; 0x2d; 0xb4; 0x47; 0xaf;
     0x09; 0xb6; 0x7a; 0x55; 0xa4; 0xe9; 0x55; 0x84;
     0x0a; 0xe1; 0xd6; 0x73; 0x10; 0x75; 0xd9; 0xeb;
     0x2a; 0x93; 0x75; 0x78; 0x3e; 0xd5; 0x53; 0xff]
  ∧ map Z_of_byte (take 16 c)
    = [0xd3; 0x1a; 0x8d; 0x34; 0x64; 0x8e; 0x60; 0xdb;
       0x7b; 0x86; 0xaf; 0xbc; 0x53; 0xef; 0x7e; 0xc2]
  ∧ map Z_of_byte (drop (length rfc_plaintext) c)
    = [0x1a; 0xe1; 0x0b; 0x59; 0x4f; 0x09; 0xe2; 0x6a;
       0x7e; 0x90; 0x2e; 0xcb; 0xd0; 0x60; 0x06; 0x91].
Proof. cbv zeta. repeat split; vm_compute; reflexivity. Qed.

End TestVectors.

(* ===================================================================== *)
(** ** Facts about base64: whole triples decode to themselves              *)
(* ===================================================================== *)

Section Base64Facts.
Import Base64.

Lemma index_in_enc (i : Z) :
  0 ≤ i < 64 → index_in std_alphabet (enc i) = Some i.
Proof.
  intros Hi. unfold enc. rewrite <- (Z2Nat.id i) at 2 by lia.
  assert (Hn : (Z.to_nat i < 64)%nat) by lia.
  generalize dependent (Z.to_nat i). intros n Hn.
  do 64 (destruct n as [|n]; [reflexivity|]). lia.
Qed.

Lemma enc_plain (i : Z) : 0 ≤ i < 64 → not_pad_nor_space (enc i) = true.
Proof.
  intros Hi. unfold enc.
  assert (Hn : (Z.to_nat i < 64)%nat) by lia.
  generalize dependent (Z.to_nat i). intros n Hn.
  do 64 (destruct n as [|n]; [reflexivity|]). lia.
Qed.

(** The two alphabets give a code unit the same value when both know it. *)
Lemma alphabets_agree (c : ascii) (i j : Z) :
  index_in url_alphabet c = Some i → index_in std_alphabet c = Some j →
  i = j.
Proof.
  destruct c as [[] [] [] [] [] [] [] []]; vm_compute; congruence.
Qed.

Lemma sextets_agree (s : string) (l l' : list Z) :
  sextets url_alphabet s = Some l → sextets std_alphabet s = Some l' →
  l = l'.
Proof.
  revert l l'. induction s as [|c s IH]; intros l l'; cbn [sextets].
  - congruence.
  - destruct (index_in url_alphabet c) as [i|] eqn:Ei; [|done].
    destruct (sextets url_alphabet s) as [t|]; [|done].
    destruct (index_in std_alphabet c) as [j|] eqn:Ej; [|done].
    destruct (sextets std_alphabet s) as [t'|]; [|done].
    intros [= <-] [= <-]. f_equal; [by eapply alphabets_agree|by apply IH].
Qed.

Lemma quad_range (a b c : byte) : Forall (fun i => 0 ≤ i < 64) (quad a b c).
Proof.
  pose proof (Z_of_byte_range a). pose proof (Z_of_byte_range b).
  pose proof (Z_of_byte_range c). unfold quad.
  repeat (apply Forall_cons; split; [Z.div_mod_to_equations; lia|]).
  apply Forall_nil_2.
Qed.

Lemma decode_quad (a b c : byte) (rest : list Z) :
  decode_sextets (quad a b c ++ rest) = a :: b :: c :: decode_sextets rest.
Proof.
  pose proof (Z_of_byte_range a). pose proof (Z_of_byte_range b).
  pose proof (Z_of_byte_range c). unfold quad. cbn [app decode_sextets].
  f_equal; [|f_equal; [|f_equal]].
  - rewrite <- (byte_of_Z_of_byte a) at 3. f_equal.
    Z.div_mod_to_equations. lia.
  - rewrite <- (byte_of_Z_of_byte b) at 3. f_equal.
    Z.div_mod_to_equations. lia.
  - rewrite <- (byte_of_Z_of_byte c) at 3. f_equal.
    Z.div_mod_to_equations. lia.
Qed.

Lemma decode_quads (bs : list byte) :
  (length bs mod 3 = 0)%nat → decode_sextets (quads bs) = bs.
Proof.
  induction bs as [|a|a b|a b c l IH] using list_ind3; try done.
  intros Hlen. cbn [quads]. rewrite decode_quad, IH; [done|].
  cbn [length] in Hlen.
  replace (S (S (S (length l)))) with (length l + 1 * 3)%nat in Hlen by lia.
  by rewrite Nat.Div0.mod_add in Hlen.
Qed.

(** A whole number of triples is written without padding sign or white
    space, four code units per triple. *)
Lemma to_base64_triples (bs : list byte) :
  (length bs mod 3 = 0)%nat →
  sextets std_alphabet (to_base64 bs) = Some (quads bs)
  ∧ all_chars not_pad_nor_space (to_base64 bs) = true
  ∧ (String.length (to_base64 bs) mod 4 = 0)%nat.
Proof.
  induction bs as [|a|a b|a b c l IH] using list_ind3; try done.
  intros Hlen. cbn [length] in Hlen.
  replace (S (S (S (length l)))) with (length l + 1 * 3)%nat in Hlen by lia.
  rewrite Nat.Div0.mod_add in Hlen. destruct (IH Hlen) as (Hs & Hc & Hl).
  pose proof (quad_range a b c) as Hq. unfold quad in Hq.
  apply Forall_cons in Hq as [H1 Hq]. apply Forall_cons in Hq as [H2 Hq].
  apply Forall_cons in Hq as [H3 Hq]. apply Forall_cons in Hq as [H4 _].
  cbn [to_base64 quads]. split; [|split].
  - cbn [sextets]. rewrite !index_in_enc, Hs by done. reflexivity.
  - cbn [all_chars]. by rewrite !enc_plain, Hc by done.
  - cbn [String.length].
    replace (S (S (S (S (String.length (to_base64 l))))))
      with (String.length (to_base64 l) + 1 * 4)%nat by lia.
    by rewrite Nat.Div0.mod_add.
Qed.

Lemma remove_whitespace_plain (s : string) :
  all_chars not_pad_nor_space s = true → remove_whitespace s = s.
Proof.
  induction s as [|c s IH]; [done|]. cbn [all_chars remove_whitespace].
  unfold not_pad_nor_space at 1.
  intros [[_ Hw%negb_true_iff]%andb_prop Hs]%andb_prop.
  by rewrite Hw, IH.
Qed.

Lemma all_chars_skip (p : ascii → bool) (n : nat) (s : string) :
  all_chars p s = true → all_chars p (skip n s) = true.
Proof.
  revert s. induction n as [|n IH]; intros s Hs; [done|].
  destruct s as [|c s]; [done|]. cbn [skip]. apply IH.
  cbn [all_chars] in Hs. by apply andb_prop in Hs as [_ ?].
Qed.

Lemma endsWith_chars (p : ascii → bool) (s suffix : string) :
  all_chars p s = true → endsWith s suffix = true →
  all_chars p suffix = true.
Proof.
  intros Hs [_ He%String.eqb_eq]%andb_prop. rewrite <- He.
  by apply all_chars_skip.
Qed.

Lemma strip_padding_plain (s : string) :
  all_chars not_pad_nor_space s = true → strip_padding s = s.
Proof.
  intros Hs. unfold strip_padding.
  destruct (String.length s mod 4 =? 0)%nat; [|done].
  destruct (endsWith s "==") eqn:E2.
  { by pose proof (endsWith_chars _ _ _ Hs E2). }
  destruct (endsWith s "=") eqn:E1; [|done].
  by pose proof (endsWith_chars _ _ _ Hs E1).
Qed.

Lemma bytes_of_binary_string_inv (bs : list byte) :
  bytes_of_binary_string (binary_string bs) = bs.
Proof.
  induction bs as [|b bs IH]; [done|].
  cbn [binary_string bytes_of_binary_string].
  by rewrite byte_of_ascii_of_byte, IH.
Qed.

Lemma atob_to_base64 (bs : list byte) :
  (length bs mod 3 = 0)%nat →
  atob (to_base64 bs) = Some (binary_string bs).
Proof.
  intros Hlen. destruct (to_base64_triples bs Hlen) as (Hs & Hc & Hl).
  unfold atob. rewrite remove_whitespace_plain, strip_padding_plain by done.
  rewrite Hl, Hs. cbn. by rewrite decode_quads.
Qed.

Lemma from_base64_to_base64 (bs b : list byte) :
  (length bs mod 3 = 0)%nat →
  from_base64 (to_base64 bs) = Some b → b = bs.
Proof.
  intros Hlen. destruct (to_base64_triples bs Hlen) as (Hs & _ & _).
  unfold from_base64.
  destruct (sextets url_alphabet (to_base64 bs)) as [l|] eqn:El; [|done].
  rewrite (sextets_agree _ _ _ El Hs).
  destruct (trailing_ok (quads bs)); [|done].
  intros [= <-]. by apply decode_quads.
Qed.

(** Either decoder, whichever answers, gives the bytes back. *)
Lemma decode_base64_to_base64 (bs : list byte) :
  (length bs mod 3 = 0)%nat →
  Loader.decode_base64 (to_base64 bs) = Ok bs.
Proof.
  intros Hlen. unfold Loader.decode_base64.
  destruct (from_base64 (to_base64 bs)) as [b|] eqn:E.
  - by rewrite (from_base64_to_base64 _ _ Hlen E).
  - by rewrite atob_to_base64, bytes_of_binary_string_inv.
Qed.

End Base64Facts.

(* ===================================================================== *)
(** ** The segment cipher: round trip and key material                     *)
(* ===================================================================== *)

Section CipherClaims.
Import ChaCha20Poly1305.

(** C1: for every plaintext, every 32-byte key and every 12-byte nonce,
    with empty associated data, [encryptSegment] returns a ciphertext that
    [decryptSegment] of the server opens to exactly the plaintext, and so
    does [decryptSegment] of the loader, which receives the nonce in
    base64. *)
Theorem segment_round_trip (P K N : list byte) :
  length K = 32%nat → length N = 12%nat →
  ∃ C, Server.encryptSegment P K N None = Ok C
       ∧ Server.decryptSegment C K N None = Ok P
       ∧ ∀ st, Loader.sodium st = true →
               Loader.decryptSegment st C K (Base64.to_base64 N) = Ok P.
Proof.
  intros HK HN. exists (aead_encrypt P [] N K). split; [|split].
  - unfold Server.encryptSegment, Server.sn_encrypt.
    rewrite Nat.eqb_refl, HK, HN. reflexivity.
  - unfold Server.decryptSegment, Server.sn_decrypt.
    rewrite aead_encrypt_length.
    destruct (Nat.ltb_spec (length P + ABYTES) ABYTES) as [Hlt|_]; [lia|].
    replace (length P + ABYTES - ABYTES + ABYTES)%nat
      with (length P + ABYTES)%nat by lia.
    rewrite Nat.eqb_refl, HK, HN. cbn [negb Nat.eqb NPUBBYTES KEYBYTES].
    change (default [] None) with (@nil byte).
    by rewrite aead_round_trip.
  - intros st Hst. unfold Loader.decryptSegment. rewrite Hst. cbn [negb].
    rewrite decode_base64_to_base64 by (by rewrite HN).
    cbn [lift try_catch mbind result_bind].
    rewrite HK, HN. cbn [Nat.eqb negb].
    unfold Loader.ls_decrypt. rewrite aead_encrypt_length.
    destruct (Nat.ltb_spec (length P + ABYTES) ABYTES) as [Hlt|_]; [lia|].
    rewrite HK, HN. cbn [negb Nat.eqb NPUBBYTES KEYBYTES].
    change (default [] None) with (@nil byte).
    by rewrite aead_round_trip.
Qed.

Lemma segment_round_trip_witness :
  ∃ C, Server.encryptSegment sample_plaintext sample_key sample_nonce None
       = Ok C
       ∧ Server.decryptSegment C sample_key sample_nonce None
         = Ok sample_plaintext
       ∧ ∀ st, Loader.sodium st = true →
               Loader.decryptSegment st C sample_key
                 (Base64.to_base64 sample_nonce) = Ok sample_plaintext.
Proof.
  apply (segment_round_trip sample_plaintext sample_key sample_nonce);
    reflexivity.
Defined.

Lemma encryptSegment_rejects (key nonce P : list byte)
  (ad : option (list byte)) :
  length key ≠ 32%nat ∨ length nonce ≠ 12%nat →
  Server.encryptSegment P key nonce ad = Throw (server_rejection key nonce).
Proof.
  intros Hbad.
  unfold Server.encryptSegment, Server.sn_encrypt, server_rejection,
    NPUBBYTES, KEYBYTES.
  rewrite Nat.eqb_refl. cbn [negb].
  destruct (Nat.eqb_spec (length nonce) 12);
    destruct (Nat.eqb_spec (length key) 32); try reflexivity.
  exfalso. lia.
Qed.

Lemma server_decryptSegment_rejects (key nonce C : list byte)
  (ad : option (list byte)) :
  length key ≠ 32%nat ∨ length nonce ≠ 12%nat →
  (ABYTES ≤ length C)%nat →
  Server.decryptSegment C key nonce ad = Throw (server_rejection key nonce).
Proof.
  intros Hbad HC.
  unfold Server.decryptSegment, Server.sn_decrypt, server_rejection,
    NPUBBYTES, KEYBYTES.
  destruct (Nat.ltb_spec (length C) ABYTES) as [Hlt|_]; [lia|].
  replace (length C - ABYTES + ABYTES)%nat with (length C) by lia.
  rewrite Nat.eqb_refl. cbn [negb].
  destruct (Nat.eqb_spec (length nonce) 12);
    destruct (Nat.eqb_spec (length key) 32); try reflexivity.
  exfalso. lia.
Qed.

Lemma loader_decryptSegment_rejects (st : Loader.EncryptionState)
  (key nonce C : list byte) (text : string) :
  length key ≠ 32%nat ∨ length nonce ≠ 12%nat →
  Loader.sodium st = true → Loader.decode_base64 text = Ok nonce →
  Loader.decryptSegment st C key text = Throw (loader_rejection key nonce).
Proof.
  intros Hbad Hst Htext.
  unfold Loader.decryptSegment, loader_rejection. rewrite Hst, Htext.
  cbn [negb lift try_catch mbind result_bind].
  destruct (Nat.eqb_spec (length nonce) 12);
    destruct (Nat.eqb_spec (length key) 32); try reflexivity.
  exfalso. lia.
Qed.

(** C5, as stated, fails: a key of 31 bytes is not always rejected for
    its length.  The server's [decryptSegment] allocates the plaintext
    buffer first, so a ciphertext of 15 bytes ends in the error of the
    allocation; the loader's [decryptSegment] decodes the nonce text
    first, so a text that is not base64 ends in the error of the decoder,
    and without libsodium loaded nothing is looked at.  None of these
    errors is of the malformed-key-material kind. *)
Lemma key_length_check_preempted :
  length short_key ≠ 32%nat
  ∧ Server.decryptSegment (replicate 15 Byte.x00) short_key sample_nonce None
    = Throw (Thrown InvalidBufferSize)
  ∧ is_malformed_key_material (Thrown InvalidBufferSize) = false
  ∧ Loader.decryptSegment fresh_state sample_plaintext short_key "!"
    = Throw (DecryptionFailed (Thrown InvalidCharacter))
  ∧ is_malformed_key_material (DecryptionFailed (Thrown InvalidCharacter))
    = false
  ∧ Loader.decryptSegment
      {| Loader.decryptionKey := None; Loader.sodium := false;
         Loader.segmentNonces := ∅ |}
      sample_plaintext short_key (Base64.to_base64 sample_nonce)
    = Throw SodiumNotInitialized
  ∧ is_malformed_key_material SodiumNotInitialized = false.
Proof. repeat split; vm_compute; (reflexivity || lia). Qed.

(** C5, amended: a key that is not 32 bytes long or a nonce that is not 12
    bytes long is rejected by [encryptSegment] for every plaintext, by the
    server's [decryptSegment] for every ciphertext that is at least a tag
    long, and by the loader's [decryptSegment] whenever libsodium is
    loaded and the nonce text decodes, with an error of the
    malformed-key-material kind, which is not an integrity error.  The
    error depends on the two lengths only, not on the data: nothing is
    encrypted or decrypted before the rejection. *)
Theorem key_material_length_validation (key nonce : list byte) :
  length key ≠ 32%nat ∨ length nonce ≠ 12%nat →
  ∃ e_server e_loader,
    is_malformed_key_material e_server = true
    ∧ is_integrity_error e_server = false
    ∧ is_malformed_key_material e_loader = true
    ∧ is_integrity_error e_loader = false
    ∧ (∀ P ad, Server.encryptSegment P key nonce ad = Throw e_server)
    ∧ (∀ C ad, (ABYTES ≤ length C)%nat →
               Server.decryptSegment C key nonce ad = Throw e_server)
    ∧ (∀ st C text, Loader.sodium st = true →
                    Loader.decode_base64 text = Ok nonce →
                    Loader.decryptSegment st C key text = Throw e_loader).
Proof.
  intros Hbad.
  exists (server_rejection key nonce), (loader_rejection key nonce).
  split; [|split; [|split; [|split; [|split; [|split]]]]].
  - unfold server_rejection. by destruct (length nonce =? 12)%nat.
  - unfold server_rejection. by destruct (length nonce =? 12)%nat.
  - unfold loader_rejection. by destruct (length key =? 32)%nat.
  - unfold loader_rejection. by destruct (length key =? 32)%nat.
  - intros P ad. by apply encryptSegment_rejects.
  - intros C ad HC. by apply server_decryptSegment_rejects.
  - intros st C text Hst Htext. by apply loader_decryptSegment_rejects.
Qed.

Lemma key_material_length_validation_witness :
  ∃ e_server e_loader,
    is_malformed_key_material e_server = true
    ∧ is_integrity_error e_server = false
    ∧ is_malformed_key_material e_loader = true
    ∧ is_integrity_error e_loader = false
    ∧ (∀ P ad, Server.encryptSegment P short_key sample_nonce ad
               = Throw e_server)
    ∧ (∀ C ad, (ABYTES ≤ length C)%nat →
               Server.decryptSegment C short_key sample_nonce ad
               = Throw e_server)
    ∧ (∀ st C text, Loader.sodium st = true →
                    Loader.decode_base64 text = Ok sample_nonce →
                    Loader.decryptSegment st C short_key text
                    = Throw e_loader).
Proof.
  apply (key_material_length_validation short_key sample_nonce).
  left. vm_compute. lia.
Defined.

End CipherClaims.

(* ===================================================================== *)
(** ** Further properties: the cipher                                      *)
(* ===================================================================== *)

Section CipherProperties.
Import ChaCha20Poly1305.

Lemma aead_decrypt_length (c ad npub k m : list byte) :
  aead_decrypt c ad npub k = Some m → length c = (length m + ABYTES)%nat.
Proof.
  unfold aead_decrypt.
  destruct (Nat.ltb_spec (length c) ABYTES) as [|Hge]; [done|].
  case_bool_decide; [|done]. intros [= <-].
  rewrite chacha20_xor_length, length_take. lia.
Qed.

Lemma sn_decrypt_length (n : nat) (c : list byte) (ad : option (list byte))
  (npub k m : list byte) :
  Server.sn_decrypt n c ad npub k = Ok m →
  length c = (length m + ABYTES)%nat.
Proof.
  unfold Server.sn_decrypt. repeat case_match; try done.
  intros [= <-]. by eapply aead_decrypt_length.
Qed.

Lemma ls_decrypt_length (c : list byte) (ad : option (list byte))
  (npub k m : list byte) :
  Loader.ls_decrypt c ad npub k = Ok m →
  length c = (length m + ABYTES)%nat.
Proof.
  unfold Loader.ls_decrypt. repeat case_match; try done.
  intros [= <-]. by eapply aead_decrypt_length.
Qed.

(** X1: a ciphertext is its plaintext plus a 16-byte tag.  Whenever
    [encryptSegment] returns, its result is 16 bytes longer than the
    plaintext; whenever one of the two [decryptSegment]s returns, its result
    is 16 bytes shorter than the ciphertext. *)
Theorem ciphertext_length (st : Loader.EncryptionState)
  (data key nonce out : list byte) (ad : option (list byte))
  (text : string) :
  (Server.encryptSegment data key nonce ad = Ok out →
   length out = (length data + 16)%nat)
  ∧ (Server.decryptSegment data key nonce ad = Ok out →
     length data = (length out + 16)%nat)
  ∧ (Loader.decryptSegment st data key text = Ok out →
     length data = (length out + 16)%nat).
Proof.
  split; [|split].
  - unfold Server.encryptSegment, Server.sn_encrypt.
    repeat case_match; try done. intros [= <-].
    apply aead_encrypt_length.
  - unfold Server.decryptSegment. case_match; [done|].
    destruct (Server.sn_decrypt _ _ _ _ _) as [m|e] eqn:E; [|done].
    intros [= <-]. by eapply sn_decrypt_length.
  - unfold Loader.decryptSegment. case_match; [done|].
    destruct (Loader.decode_base64 text) as [nb|e]; [|done].
    cbn [lift try_catch mbind result_bind].
    repeat case_match; try done.
    destruct (Loader.ls_decrypt _ _ _ _) as [m|e] eqn:E; [|done].
    intros [= <-]. by eapply ls_decrypt_length.
Qed.

Lemma ciphertext_length_witness :
  length (aead_encrypt sample_plaintext [] sample_nonce sample_key) = 21%nat.
Proof.
  apply (proj1 (ciphertext_length fresh_state sample_plaintext sample_key
                  sample_nonce _ None "")).
  reflexivity.
Defined.

Lemma server_decrypt_core (c key nonce : list byte) :
  length key = 32%nat → length nonce = 12%nat →
  (ABYTES ≤ length c)%nat →
  Server.decryptSegment c key nonce None
  = match aead_decrypt c [] nonce key with
    | Some m => Ok m
    | None => Throw (Thrown VerificationFailed)
    end.
Proof.
  intros HK HN Hc. unfold Server.decryptSegment, Server.sn_decrypt.
  destruct (Nat.ltb_spec (length c) ABYTES) as [|_]; [lia|].
  replace (length c - ABYTES + ABYTES)%nat with (length c) by lia.
  rewrite Nat.eqb_refl, HK, HN. cbn [negb Nat.eqb NPUBBYTES KEYBYTES].
  change (default [] None) with (@nil byte).
  by destruct (aead_decrypt c [] nonce key).
Qed.

Lemma loader_decrypt_core (st : Loader.EncryptionState)
  (c key nonce : list byte) (text : string) :
  Loader.sodium st = true → Loader.decode_base64 text = Ok nonce →
  length key = 32%nat → length nonce = 12%nat →
  Loader.decryptSegment st c key text
  = if (length c <? ABYTES)%nat
    then Throw (DecryptionFailed (Thrown CiphertextTooShort))
    else match aead_decrypt c [] nonce key with
         | Some m => Ok m
         | None => Throw (DecryptionFailed (Thrown VerificationFailed))
         end.
Proof.
  intros Hst Htext HK HN. unfold Loader.decryptSegment.
  rewrite Hst, Htext. cbn [negb lift try_catch mbind result_bind].
  rewrite HK, HN. cbn [Nat.eqb negb]. unfold Loader.ls_decrypt.
  destruct (length c <? ABYTES)%nat; [done|].
  rewrite HK, HN. cbn [negb Nat.eqb NPUBBYTES KEYBYTES].
  change (default [] None) with (@nil byte).
  by destruct (aead_decrypt c [] nonce key).
Qed.

(** X2: a ciphertext whose tag has been altered is rejected.  When only
    the last 16 bytes of what [encryptSegment] returned are changed, the
    server's [decryptSegment] throws the verification failure of the
    library and the loader's throws it wrapped as a decryption failure;
    neither returns any plaintext. *)
Theorem altered_tag_detected (st : Loader.EncryptionState)
  (P K N C C' : list byte) :
  length K = 32%nat → length N = 12%nat → Loader.sodium st = true →
  Server.encryptSegment P K N None = Ok C →
  length C' = length C → take (length P) C' = take (length P) C → C' ≠ C →
  Server.decryptSegment C' K N None = Throw (Thrown VerificationFailed)
  ∧ Loader.decryptSegment st C' K (Base64.to_base64 N)
    = Throw (DecryptionFailed (Thrown VerificationFailed)).
Proof.
  intros HK HN Hst Henc Hlen Hbody Hne.
  assert (HC : C = aead_encrypt P [] N K).
  { unfold Server.encryptSegment, Server.sn_encrypt in Henc.
    rewrite Nat.eqb_refl, HK, HN in Henc. by injection Henc. }
  assert (HlenC : length C' = (length P + ABYTES)%nat).
  { by rewrite Hlen, HC, aead_encrypt_length. }
  set (ct := chacha20_xor K 1 N P).
  assert (Hct : take (length P) C' = ct).
  { rewrite Hbody, HC. unfold aead_encrypt. fold ct.
    replace (length P) with (length ct)
      by (unfold ct; apply chacha20_xor_length).
    apply take_app_length. }
  assert (Hsplit : C' = ct ++ drop (length P) C').
  { by rewrite <- Hct, take_drop. }
  assert (Hnone : aead_decrypt C' [] N K = None).
  { rewrite Hsplit. apply altered_tag_rejected.
    - rewrite length_drop. lia.
    - intros Htag. apply Hne. rewrite Hsplit, HC. unfold aead_encrypt.
      fold ct. by rewrite Htag. }
  split.
  - rewrite server_decrypt_core by (done || lia). by rewrite Hnone.
  - rewrite (loader_decrypt_core st C' K N)
      by (done || by apply decode_base64_to_base64; rewrite HN).
    destruct (Nat.ltb_spec (length C') ABYTES) as [|_]; [lia|].
    by rewrite Hnone.
Qed.

Lemma altered_tag_detected_witness :
  let C := aead_encrypt sample_plaintext [] sample_nonce sample_key in
  let C' := take 20 C ++ [Byte.xff] in
  Server.decryptSegment C' sample_key sample_nonce None
  = Throw (Thrown VerificationFailed)
  ∧ Loader.decryptSegment fresh_state C' sample_key
      (Base64.to_base64 sample_nonce)
    = Throw (DecryptionFailed (Thrown VerificationFailed)).
Proof.
  cbv zeta.
  apply (altered_tag_detected fresh_state sample_plaintext sample_key
           sample_nonce
           (aead_encrypt sample_plaintext [] sample_nonce sample_key)).
  - reflexivity.
  - reflexivity.
  - reflexivity.
  - reflexivity.
  - vm_compute. reflexivity.
  - vm_compute. reflexivity.
  - vm_compute. discriminate.
Defined.

(** X3: the two decryptors agree.  With a 32-byte key and a 12-byte nonce
    given to the loader in base64, the loader's [decryptSegment] returns a
    plaintext exactly when the server's does, and the same one; it fails
    exactly when the server's fails, with the server's error wrapped as a
    decryption failure (a ciphertext shorter than the tag being reported
    by the library instead of the buffer allocation). *)
Theorem decryptors_agree (st : Loader.EncryptionState)
  (C K N : list byte) :
  Loader.sodium st = true → length K = 32%nat → length N = 12%nat →
  Loader.decryptSegment st C K (Base64.to_base64 N)
  = match Server.decryptSegment C K N None with
    | Ok m => Ok m
    | Throw (Thrown InvalidBufferSize) =>
        Throw (DecryptionFailed (Thrown CiphertextTooShort))
    | Throw e => Throw (DecryptionFailed e)
    end.
Proof.
  intros Hst HK HN.
  rewrite (loader_decrypt_core st C K N)
    by (done || by apply decode_base64_to_base64; rewrite HN).
  destruct (Nat.ltb_spec (length C) ABYTES) as [Hlt|Hge].
  - unfold Server.decryptSegment.
    by destruct (Nat.ltb_spec (length C) ABYTES) as [_|?]; [|lia].
  - rewrite server_decrypt_core by done.
    by destruct (aead_decrypt C [] N K).
Qed.

Lemma decryptors_agree_witness :
  Loader.decryptSegment fresh_state [] sample_key
    (Base64.to_base64 sample_nonce)
  = match Server.decryptSegment [] sample_key sample_nonce None with
    | Ok m => Ok m
    | Throw (Thrown InvalidBufferSize) =>
        Throw (DecryptionFailed (Thrown CiphertextTooShort))
    | Throw e => Throw (DecryptionFailed e)
    end.
Proof.
  apply (decryptors_agree fresh_state [] sample_key sample_nonce);
    reflexivity.
Defined.

End CipherProperties.

(* ===================================================================== *)
(** ** Further properties: the loader                                      *)
(* ===================================================================== *)

Section LoaderProperties.
Import Loader.

(** X4: the shared state is written by a successful manifest load, and
    by nothing else.  When the response is a text body with status 200
    whose key directive decodes, [load] replaces the key and the whole
    nonce table by those of this manifest.  In every other case (a segment
    fetch, a failed request, a status other than 200, a manifest passed
    through) the state after [load] is the state before.  The libsodium
    handle is never changed. *)
Theorem state_written_by_manifest_only (loc : Location)
  (lib_text : lib_failure → string) (st : EncryptionState) (url : string)
  (c : completion) :
  sodium (fst (load loc lib_text st url c)) = sodium st
  ∧ (∀ xhr text key,
       c = Loaded xhr → status xhr = 200 → response xhr = TextBody text →
       parseEncryptionKey st text = Ok key →
       fst (load loc lib_text st url c)
       = {| decryptionKey := Some key; sodium := sodium st;
            segmentNonces := parseSegmentNonces text |})
  ∧ ((¬ ∃ xhr text key,
         c = Loaded xhr ∧ status xhr = 200 ∧ response xhr = TextBody text
         ∧ parseEncryptionKey st text = Ok key) →
     fst (load loc lib_text st url c) = st).
Proof.
  split; [|split].
  - destruct c as [xhr|xhr]; cbn [load onerror fst]; [|done].
    unfold onload. destruct (status xhr =? 200); [|done].
    destruct (response xhr) as [text|data].
    + by destruct (parseEncryptionKey st text).
    + destruct (endsWith url ".enc"); [|done].
      by destruct (load_segment st url data).
  - intros xhr text key -> Hs Hr Hk. cbn [load]. unfold onload.
    by rewrite Hs, Hr, Hk.
  - intros Hnone. destruct c as [xhr|xhr]; cbn [load onerror fst]; [|done].
    unfold onload. destruct (Z.eqb_spec (status xhr) 200) as [Hs|_]; [|done].
    destruct (response xhr) as [text|data] eqn:Hr.
    + destruct (parseEncryptionKey st text) as [key|e] eqn:Hk; [|done].
      exfalso. apply Hnone. by exists xhr, text, key.
    + destruct (endsWith url ".enc"); [|done].
      by destruct (load_segment st url data).
Qed.

Lemma state_written_by_manifest_only_witness :
  fst (load sample_location sample_lib_text fresh_state sample_url
         (Loaded (ok_response (TextBody sample_key_line))))
  = {| decryptionKey := Some sample_key; sodium := sodium fresh_state;
       segmentNonces := parseSegmentNonces sample_key_line |}.
Proof.
  apply (proj1 (proj2 (state_written_by_manifest_only sample_location
                         sample_lib_text fresh_state sample_url
                         (Loaded (ok_response (TextBody sample_key_line)))))
           (ok_response (TextBody sample_key_line)) sample_key_line
           sample_key).
  - reflexivity.
  - reflexivity.
  - reflexivity.
  - vm_compute. reflexivity.
Defined.

(** X5: an encrypted segment is never handed over as it came.  For a
    binary response with status 200 to a URL ending in .enc, the loader
    either invokes the success callback with the plaintext that
    [decryptSegment] returns under the stored key and the nonce stored for
    the basename of the URL, or invokes the error callback, with code 200. *)
Theorem encrypted_segment_never_raw (loc : Location)
  (lib_text : lib_failure → string) (st : EncryptionState) (url : string)
  (xhr : Xhr) (data : list byte) :
  status xhr = 200 → response xhr = BinaryBody data →
  endsWith url ".enc" = true →
  (∃ file key nonce plain,
     basename url = Some file ∧ segmentNonces st !! file = Some nonce
     ∧ decryptionKey st = Some key
     ∧ decryptSegment st data key nonce = Ok plain
     ∧ snd (onload loc lib_text st url xhr)
       = onSuccess url (BinaryBody plain) (length data))
  ∨ (∃ text, snd (onload loc lib_text st url xhr) = onError 200 text).
Proof.
  intros Hs Hr Henc. unfold onload. rewrite Hs, Hr, Henc. cbn [Z.eqb Pos.eqb].
  destruct (load_segment st url data) as [plain|e] eqn:E;
    [|right; by eexists].
  left. unfold load_segment in E.
  destruct (basename url) as [file|]; [|done].
  destruct (truthy file); [|done].
  destruct (segmentNonces st !! file) as [nonce|] eqn:Hn; [|done].
  destruct (truthy nonce); [|done].
  destruct (decryptionKey st) as [key|] eqn:Hk; [|done].
  cbn [mbind result_bind] in E. by exists file, key, nonce, plain.
Qed.

Lemma encrypted_segment_never_raw_witness :
  (∃ file key nonce plain,
     basename "/output/a/segment_000.enc" = Some file
     ∧ segmentNonces fresh_state !! file = Some nonce
     ∧ decryptionKey fresh_state = Some key
     ∧ decryptSegment fresh_state sample_plaintext key nonce = Ok plain
     ∧ snd (onload sample_location sample_lib_text fresh_state
                   "/output/a/segment_000.enc"
                   (ok_response (BinaryBody sample_plaintext)))
       = onSuccess "/output/a/segment_000.enc" (BinaryBody plain)
                   (length sample_plaintext))
  ∨ (∃ text, snd (onload sample_location sample_lib_text fresh_state
                         "/output/a/segment_000.enc"
                         (ok_response (BinaryBody sample_plaintext)))
             = onError 200 text).
Proof.
  apply (encrypted_segment_never_raw sample_location sample_lib_text
           fresh_state "/output/a/segment_000.enc"
           (ok_response (BinaryBody sample_plaintext)) sample_plaintext);
    reflexivity.
Defined.

End LoaderProperties.

(* ===================================================================== *)
(** ** Further properties: the nonce table                                 *)
(* ===================================================================== *)

Section TableProperties.
Import Loader.

Lemma next_segment_line_inv (ls : list string) (key : string) :
  next_segment_line ls = Some key →
  ∃ mid l post, ls = mid ++ l :: post
                ∧ Forall (fun x => skipped x = true) mid
                ∧ skipped l = false ∧ key = trim l.
Proof.
  induction ls as [|x ls IH]; [done|].
  destruct (skipped x) eqn:Hx.
  - rewrite next_segment_line_skip by done. intros H.
    destruct (IH H) as (mid & l & post & -> & Hmid & Hl & ->).
    exists (x :: mid), l, post. split; [done|]. split; [|done].
    by constructor.
  - rewrite next_segment_line_here by done. intros [= <-].
    by exists [], x, ls.
Qed.

Lemma next_segment_line_intro (mid post : list string) (l : string) :
  Forall (fun x => skipped x = true) mid → skipped l = false →
  next_segment_line (mid ++ l :: post) = Some (trim l).
Proof.
  intros Hmid Hl. induction Hmid as [|x mid Hx _ IH].
  - by apply next_segment_line_here.
  - rewrite <- app_comm_cons. by rewrite next_segment_line_skip.
Qed.

Lemma parse_lookup_inv (ls : list string) (acc : gmap string string)
  (k v : string) :
  parse_nonce_lines ls acc !! k = Some v →
  acc !! k = Some v
  ∨ ∃ pre d mid l post,
      ls = pre ++ d :: mid ++ l :: post
      ∧ startsWith d NONCE_TAG = true ∧ v = nonce_payload d
      ∧ Forall (fun x => skipped x = true) mid
      ∧ skipped l = false ∧ k = trim l.
Proof.
  revert acc. induction ls as [|x ls IH]; intros acc; [by left|].
  cbn [parse_nonce_lines].
  assert (Hshift : ∀ acc', parse_nonce_lines ls acc' !! k = Some v →
            acc' !! k = Some v
            ∨ ∃ pre d mid l post,
                x :: ls = pre ++ d :: mid ++ l :: post
                ∧ startsWith d NONCE_TAG = true ∧ v = nonce_payload d
                ∧ Forall (fun x => skipped x = true) mid
                ∧ skipped l = false ∧ k = trim l).
  { intros acc' H. destruct (IH acc' H) as [?|Hex]; [by left|]. right.
    destruct Hex as (pre & d & mid & l & post & -> & ?).
    by exists (x :: pre), d, mid, l, post. }
  destruct (startsWith x NONCE_TAG) eqn:Hx; [|apply Hshift].
  destruct (next_segment_line ls) as [key|] eqn:Hn; [|apply Hshift].
  intros H. destruct (Hshift _ H) as [Hacc|?]; [|by right].
  destruct (decide (key = k)) as [->|Hne].
  - rewrite lookup_insert_eq in Hacc. injection Hacc as <-. right.
    destruct (next_segment_line_inv _ _ Hn)
      as (mid & l & post & -> & Hmid & Hl & ->).
    by exists [], x, mid, l, post.
  - rewrite lookup_insert_ne in Hacc by done. by left.
Qed.

Lemma parse_keeps_keys (ls : list string) (acc : gmap string string)
  (k : string) :
  is_Some (acc !! k) → is_Some (parse_nonce_lines ls acc !! k).
Proof.
  revert acc. induction ls as [|x ls IH]; intros acc Hk; [done|].
  cbn [parse_nonce_lines]. repeat case_match; apply IH; try done.
  rewrite lookup_insert. case_decide; [by eexists|done].
Qed.

(** X6: what the nonce table holds.  Every entry of the table comes from
    a nonce directive of the manifest: its value is what stands between the
    first and the second colon of the directive, and its key is the
    trimmed text of the first line after the directive that is neither
    blank nor starts with a hash sign.  Conversely every directive
    followed by such a line gives the table an entry under that key. *)
Theorem nonce_table_entries (m3u8Content : string) :
  (∀ k v, parseSegmentNonces m3u8Content !! k = Some v →
     ∃ pre d mid l post,
       split LF m3u8Content = pre ++ d :: mid ++ l :: post
       ∧ startsWith d NONCE_TAG = true ∧ v = nonce_payload d
       ∧ Forall (fun x => skipped x = true) mid
       ∧ skipped l = false ∧ k = trim l)
  ∧ (∀ pre d mid l post,
       split LF m3u8Content = pre ++ d :: mid ++ l :: post →
       startsWith d NONCE_TAG = true →
       Forall (fun x => skipped x = true) mid → skipped l = false →
       is_Some (parseSegmentNonces m3u8Content !! trim l)).
Proof.
  unfold parseSegmentNonces. split.
  - intros k v H. destruct (parse_lookup_inv _ _ _ _ H) as [He|?]; [|done].
    by rewrite lookup_empty in He.
  - intros pre d mid l post -> Hd Hmid Hl.
    generalize (∅ : gmap string string) as acc.
    induction pre as [|x pre IH]; intros acc.
    + cbn [app parse_nonce_lines].
      rewrite Hd, next_segment_line_intro by done.
      apply parse_keeps_keys. rewrite lookup_insert_eq. by eexists.
    + cbn [app parse_nonce_lines]. repeat case_match; apply IH.
Qed.

Lemma nonce_table_entries_witness :
  is_Some (parseSegmentNonces
             (unlines ["#EXT-X-SEGMENT-NONCE:AAECAwQFBgcICQoL"; "";
                       "#EXTINF:10.0,"] "  segment_000.enc")
           !! "segment_000.enc").
Proof.
  apply (proj2 (nonce_table_entries _) []
           "#EXT-X-SEGMENT-NONCE:AAECAwQFBgcICQoL" [""; "#EXTINF:10.0,"]
           "  segment_000.enc" []).
  - reflexivity.
  - reflexivity.
  - repeat constructor.
  - reflexivity.
Defined.

End TableProperties.

(* ===================================================================== *)
(** ** Further properties: base64 of any length                            *)
(* ===================================================================== *)

Section Base64Properties.
Import Base64.

Lemma to_base64_shape (bs : list byte) :
  to_base64 bs = encode_all (sextets_of bs) +:+ padding_of bs.
Proof.
  induction bs as [|a|a b|a b c l IH] using list_ind3; try reflexivity.
  cbn [to_base64 sextets_of padding_of quad app encode_all].
  rewrite !append_cons. by rewrite IH.
Qed.

Lemma sextets_of_range (bs : list byte) :
  Forall (fun i => 0 ≤ i < 64) (sextets_of bs).
Proof.
  induction bs as [|a|a b|a b c l IH] using list_ind3.
  - constructor.
  - pose proof (Z_of_byte_range a). cbn [sextets_of].
    repeat (apply Forall_cons; split; [Z.div_mod_to_equations; lia|]).
    constructor.
  - pose proof (Z_of_byte_range a). pose proof (Z_of_byte_range b).
    cbn [sextets_of].
    repeat (apply Forall_cons; split; [Z.div_mod_to_equations; lia|]).
    constructor.
  - cbn [sextets_of]. apply Forall_app. split; [apply quad_range|done].
Qed.

Lemma decode_sextets_of (bs : list byte) :
  decode_sextets (sextets_of bs) = bs.
Proof.
  induction bs as [|a|a b|a b c l IH] using list_ind3.
  - reflexivity.
  - pose proof (Z_of_byte_range a). cbn [sextets_of decode_sextets].
    f_equal. rewrite <- (byte_of_Z_of_byte a) at 3. f_equal.
    Z.div_mod_to_equations. lia.
  - pose proof (Z_of_byte_range a). pose proof (Z_of_byte_range b).
    cbn [sextets_of decode_sextets]. f_equal; [|f_equal].
    + rewrite <- (byte_of_Z_of_byte a) at 3. f_equal.
      Z.div_mod_to_equations. lia.
    + rewrite <- (byte_of_Z_of_byte b) at 3. f_equal.
      Z.div_mod_to_equations. lia.
  - cbn [sextets_of]. by rewrite decode_quad, IH.
Qed.

Lemma sextets_encode_all (l : list Z) :
  Forall (fun i => 0 ≤ i < 64) l →
  sextets std_alphabet (encode_all l) = Some l.
Proof.
  induction 1 as [|i l Hi _ IH]; [done|].
  cbn [encode_all sextets]. by rewrite index_in_enc, IH.
Qed.

Lemma encode_all_plain (l : list Z) :
  Forall (fun i => 0 ≤ i < 64) l →
  all_chars not_pad_nor_space (encode_all l) = true.
Proof.
  induction 1 as [|i l Hi _ IH]; [done|].
  cbn [encode_all all_chars]. by rewrite enc_plain, IH.
Qed.

Lemma encode_all_length (l : list Z) :
  String.length (encode_all l) = length l.
Proof. induction l as [|i l IH]; [done|]. cbn. by rewrite IH. Qed.

Lemma string_length_append (a b : string) :
  String.length (a +:+ b) = (String.length a + String.length b)%nat.
Proof.
  induction a as [|c a IH]; [done|]. rewrite append_cons. cbn. by rewrite IH.
Qed.

Lemma skip_append_le (n : nat) (a b : string) :
  (n ≤ String.length a)%nat → skip n (a +:+ b) = skip n a +:+ b.
Proof.
  revert a. induction n as [|n IH]; intros a Hn; [done|].
  destruct a as [|c a]; [cbn in Hn; lia|].
  rewrite append_cons. cbn [skip]. apply IH. cbn in Hn. lia.
Qed.

Lemma skip_all (a : string) : skip (String.length a) a = "".
Proof. induction a as [|c a IH]; [done|]. by cbn. Qed.

Lemma skip_append (a b : string) : skip (String.length a) (a +:+ b) = b.
Proof. by rewrite skip_append_le, skip_all by done. Qed.

Lemma substring_prefix (a b : string) :
  substring 0 (String.length a) (a +:+ b) = a.
Proof.
  induction a as [|c a IH]; [by destruct b|].
  rewrite append_cons. cbn. by rewrite IH.
Qed.

Lemma endsWith_append (a p : string) : endsWith (a +:+ p) p = true.
Proof.
  unfold endsWith. rewrite string_length_append.
  replace (String.length a + String.length p - String.length p)%nat
    with (String.length a) by lia.
  rewrite skip_append, String.eqb_refl.
  apply andb_true_intro. split; [|done]. apply Nat.leb_le. lia.
Qed.

Lemma padding_cases (bs : list byte) :
  padding_of bs = "" ∨ padding_of bs = "=" ∨ padding_of bs = "==".
Proof.
  induction bs as [|a|a b|a b c l IH] using list_ind3; cbn; auto.
Qed.

(** The padding comes off, whatever it is. *)
Lemma strip_padding_encoded (bs : list byte) :
  (String.length (to_base64 bs) mod 4 = 0)%nat →
  strip_padding (to_base64 bs) = encode_all (sextets_of bs).
Proof.
  intros Hlen. unfold strip_padding. rewrite Hlen. cbn [Nat.eqb].
  rewrite to_base64_shape.
  pose proof (encode_all_plain _ (sextets_of_range bs)) as Hplain.
  set (body := encode_all (sextets_of bs)) in *.
  destruct (padding_cases bs) as [Hp|[Hp|Hp]]; rewrite Hp.
  - rewrite append_nil_r.
    destruct (endsWith body "==") eqn:E2.
    { by pose proof (endsWith_chars _ _ _ Hplain E2). }
    destruct (endsWith body "=") eqn:E1; [|done].
    by pose proof (endsWith_chars _ _ _ Hplain E1).
  - destruct (endsWith (body +:+ "=") "==") eqn:E2.
    { exfalso. unfold endsWith in E2.
      apply andb_prop in E2 as [Hle He%String.eqb_eq].
      rewrite string_length_append in He, Hle. cbn [String.length] in *.
      apply Nat.leb_le in Hle.
      replace (String.length body + 1 - 2)%nat
        with (String.length body - 1)%nat in He by lia.
      rewrite skip_append_le in He by lia.
      pose proof (all_chars_skip _ (String.length body - 1) _ Hplain) as Hs.
      destruct (skip (String.length body - 1) body) as [|c [|c' r]];
        try done.
      - rewrite !append_cons, append_nil_l in He.
        injection He as ->. by vm_compute in Hs.
      - rewrite !append_cons in He. injection He as _ _ He.
        by destruct r. }
    rewrite endsWith_append, string_length_append. cbn [String.length].
    replace (String.length body + 1 - 1)%nat with (String.length body) by lia.
    apply substring_prefix.
  - rewrite endsWith_append, string_length_append. cbn [String.length].
    replace (String.length body + 2 - 2)%nat with (String.length body) by lia.
    apply substring_prefix.
Qed.

Lemma to_base64_length (bs : list byte) :
  String.length (to_base64 bs) = (4 * ((length bs + 2) / 3))%nat.
Proof.
  induction bs as [|a|a b|a b c l IH] using list_ind3; try reflexivity.
  cbn [to_base64 String.length length]. rewrite IH.
  replace (S (S (S (length l))) + 2)%nat with (length l + 2 + 1 * 3)%nat
    by lia.
  rewrite Nat.div_add by done. lia.
Qed.

Lemma to_base64_plain (bs : list byte) :
  all_chars (fun c => negb (is_ascii_whitespace c)) (to_base64 bs) = true.
Proof.
  induction bs as [|a|a b|a b c l IH] using list_ind3; try reflexivity.
  - pose proof (sextets_of_range [a]) as H. cbn [sextets_of] in H.
    apply Forall_cons in H as [H1 H]. apply Forall_cons in H as [H2 _].
    cbn [to_base64 all_chars].
    pose proof (enc_plain _ H1) as [_ ->]%andb_prop.
    by pose proof (enc_plain _ H2) as [_ ->]%andb_prop.
  - pose proof (sextets_of_range [a; b]) as H. cbn [sextets_of] in H.
    apply Forall_cons in H as [H1 H]. apply Forall_cons in H as [H2 H].
    apply Forall_cons in H as [H3 _].
    cbn [to_base64 all_chars].
    pose proof (enc_plain _ H1) as [_ ->]%andb_prop.
    pose proof (enc_plain _ H2) as [_ ->]%andb_prop.
    by pose proof (enc_plain _ H3) as [_ ->]%andb_prop.
  - pose proof (quad_range a b c) as H. unfold quad in H.
    apply Forall_cons in H as [H1 H]. apply Forall_cons in H as [H2 H].
    apply Forall_cons in H as [H3 H]. apply Forall_cons in H as [H4 _].
    cbn [to_base64 all_chars].
    pose proof (enc_plain _ H1) as [_ ->]%andb_prop.
    pose proof (enc_plain _ H2) as [_ ->]%andb_prop.
    pose proof (enc_plain _ H3) as [_ ->]%andb_prop.
    pose proof (enc_plain _ H4) as [_ ->]%andb_prop.
    by rewrite IH.
Qed.

Lemma remove_whitespace_none (s : string) :
  all_chars (fun c => negb (is_ascii_whitespace c)) s = true →
  remove_whitespace s = s.
Proof.
  induction s as [|c s IH]; [done|]. cbn [all_chars remove_whitespace].
  intros [Hw%negb_true_iff Hs]%andb_prop. by rewrite Hw, IH.
Qed.

Lemma sextets_of_length (bs : list byte) :
  (length (sextets_of bs) mod 4 =? 1)%nat = false.
Proof.
  induction bs as [|a|a b|a b c l IH] using list_ind3; try reflexivity.
  cbn [sextets_of quad app length].
  replace (S (S (S (S (length (sextets_of l))))))
    with (length (sextets_of l) + 1 * 4)%nat by lia.
  by rewrite Nat.Div0.mod_add.
Qed.

Lemma atob_to_base64_any (bs : list byte) :
  atob (to_base64 bs) = Some (binary_string bs).
Proof.
  unfold atob. rewrite remove_whitespace_none by apply to_base64_plain.
  assert (Hlen : (String.length (to_base64 bs) mod 4 = 0)%nat).
  { rewrite to_base64_length, Nat.mul_comm. apply Nat.Div0.mod_mul. }
  rewrite strip_padding_encoded by done.
  rewrite sextets_encode_all by apply sextets_of_range.
  rewrite encode_all_length. cbn [fmap option_fmap option_map].
  rewrite decode_sextets_of.
  by rewrite sextets_of_length.
Qed.

Lemma sextets_append_None (alphabet a b : string) :
  sextets alphabet b = None → sextets alphabet (a +:+ b) = None.
Proof.
  intros Hb. induction a as [|c a IH]; [done|].
  rewrite append_cons. cbn [sextets]. rewrite IH. by case_match.
Qed.

Lemma from_base64_to_base64_any (bs b : list byte) :
  from_base64 (to_base64 bs) = Some b → b = bs.
Proof.
  unfold from_base64.
  destruct (sextets url_alphabet (to_base64 bs)) as [l|] eqn:El; [|done].
  assert (Hpad : padding_of bs = "").
  { rewrite to_base64_shape in El.
    destruct (padding_cases bs) as [?|[Hp|Hp]]; [done|..];
      rewrite Hp, sextets_append_None in El; done. }
  assert (Hstd : sextets std_alphabet (to_base64 bs) = Some (sextets_of bs)).
  { rewrite to_base64_shape, Hpad, append_nil_r.
    apply sextets_encode_all, sextets_of_range. }
  rewrite (sextets_agree _ _ _ El Hstd).
  destruct (trailing_ok (sextets_of bs)); [|done].
  intros [= <-]. apply decode_sextets_of.
Qed.

Lemma decode_base64_any (bs : list byte) :
  Loader.decode_base64 (to_base64 bs) = Ok bs.
Proof.
  unfold Loader.decode_base64.
  destruct (from_base64 (to_base64 bs)) as [b|] eqn:E.
  - by rewrite (from_base64_to_base64_any _ _ E).
  - by rewrite atob_to_base64_any, bytes_of_binary_string_inv.
Qed.

(** X7: base64 round trip.  For every byte sequence, the text that Node
    writes for it, padded or not, is decoded back to the same bytes by the
    loader's decoding, libsodium's decoder first and [atob] when that one
    throws; and when the text carries padding, as that of a 32-byte key
    does, it is always [atob] that decodes it. *)
Theorem base64_round_trip (bs : list byte) :
  Loader.decode_base64 (to_base64 bs) = Ok bs
  ∧ ((length bs mod 3 ≠ 0)%nat → from_base64 (to_base64 bs) = None).
Proof.
  split; [apply decode_base64_any|].
  intros Hlen. unfold from_base64. rewrite to_base64_shape.
  assert (Hpad : padding_of bs = "=" ∨ padding_of bs = "==").
  { induction bs as [|a|a b|a b c l IH] using list_ind3; cbn; auto.
    - cbn in Hlen. lia.
    - apply IH. cbn [length] in Hlen.
      replace (S (S (S (length l)))) with (length l + 1 * 3)%nat in Hlen
        by lia.
      by rewrite Nat.Div0.mod_add in Hlen. }
  destruct Hpad as [Hp|Hp]; rewrite Hp, sextets_append_None; done.
Qed.

Lemma base64_round_trip_witness :
  from_base64 (to_base64 sample_key) = None.
Proof.
  apply (proj2 (base64_round_trip sample_key)). vm_compute. lia.
Defined.

End Base64Properties.

(* ===================================================================== *)
(** ** Further properties: the key directive                               *)
(* ===================================================================== *)

Section KeyProperties.
Import Server Loader.

Lemma key_match_step (c : ascii) (s : string) :
  startsWith (String c s) KEY_TAG = false →
  key_match (String c s) = key_match s.
Proof. intros H. cbn [key_match]. by rewrite H. Qed.

Lemma key_match_no_hash (p s : string) :
  lacks "#" p = true → key_match (p +:+ s) = key_match s.
Proof.
  induction p as [|c p IH]; [done|]. cbn [lacks].
  intros [Hc%negb_true_iff Hp]%andb_prop.
  rewrite append_cons, key_match_step; [by apply IH|].
  unfold KEY_TAG. cbn [startsWith].
  by rewrite Ascii.eqb_sym, Hc.
Qed.

Lemma pretty_N_char_not_hash (x : N) :
  Ascii.eqb (pretty_N_char x) "#" = false.
Proof. unfold pretty_N_char. by repeat case_match. Qed.

Lemma pretty_N_go_lacks_hash (x : N) (s : string) :
  lacks "#" s = true → lacks "#" (pretty_N_go x s) = true.
Proof.
  revert s. induction (N.lt_wf_0 x) as [x _ IH]; intros s Hs.
  destruct (decide (x = 0)%N) as [->|Hx]; [by rewrite pretty_N_go_0|].
  rewrite pretty_N_go_step by lia.
  apply IH; [apply N.div_lt; lia|].
  cbn [lacks]. by rewrite pretty_N_char_not_hash.
Qed.

Lemma pretty_N_lacks_hash (n : N) : lacks "#" (pretty n) = true.
Proof.
  unfold pretty, pretty_N. case_decide; [done|].
  by apply pretty_N_go_lacks_hash.
Qed.

Lemma base64_char_facts (c : ascii) :
  is_base64_char c = true →
  Ascii.eqb c DQUOTE = false ∧ is_line_terminator c = false
  ∧ is_js_space c = false.
Proof.
  destruct c as [[] [] [] [] [] [] [] []]; vm_compute; intros; by repeat split.
Qed.

Lemma to_base64_text (bs : list byte) :
  is_base64_text (Base64.to_base64 bs) = true.
Proof.
  assert (He : ∀ i, is_base64_char (Base64.enc i) = true).
  { intros i. unfold Base64.enc. generalize (Z.to_nat i). intros n.
    do 64 (destruct n as [|n]; [reflexivity|]). reflexivity. }
  induction bs as [|a|a b|a b c l IH] using list_ind3;
    cbn [Base64.to_base64 is_base64_text all_chars];
    rewrite ?He; try reflexivity.
  apply IH.
Qed.

(** The group of the regular expression: the run up to the quote. *)
Lemma key_capture_quoted (t rest : string) :
  is_base64_text t = true → truthy t = true →
  key_capture (t +:+ String DQUOTE rest) = Some t.
Proof.
  intros Ht Hne. unfold key_capture.
  assert (Hq : quoted_run (t +:+ String DQUOTE rest) = Some t).
  { clear Hne. induction t as [|c t IH].
    - rewrite append_nil_l. cbn [quoted_run]. by rewrite Ascii.eqb_refl.
    - cbn [is_base64_text all_chars] in Ht.
      apply andb_prop in Ht as [Hc Ht].
      destruct (base64_char_facts c Hc) as (Hq & _ & _).
      rewrite append_cons. cbn [quoted_run]. rewrite Hq.
      fold (is_base64_text t) in Ht. by rewrite (IH Ht). }
  rewrite Hq. by destruct t.
Qed.

(** Inside and after the payload the prefix of the URI does not occur. *)
Lemma no_uri_in_payload (t tail : string) :
  is_base64_text t = true →
  try_uri (t +:+ String DQUOTE (String LF tail)) = None.
Proof.
  intros Ht. unfold try_uri.
  assert (H : startsWith (t +:+ String DQUOTE (String LF tail)) URI_PREFIX
              = false); [|by rewrite H].
  let u := eval vm_compute in URI_PREFIX in change URI_PREFIX with u.
  destruct t as [|c0 [|c1 [|c2 [|c3 [|c4 t]]]]];
    rewrite ?append_cons, ?append_nil_l; cbn [startsWith];
    try (by rewrite ?andb_false_r).
  cbn [is_base64_text all_chars] in Ht.
  apply andb_prop in Ht as [_ Ht]. apply andb_prop in Ht as [_ Ht].
  apply andb_prop in Ht as [_ Ht]. apply andb_prop in Ht as [_ Ht].
  apply andb_prop in Ht as [H4 _].
  destruct (base64_char_facts c4 H4) as (Hq & _ & _).
  rewrite Ascii.eqb_sym in Hq. unfold DQUOTE in Hq. rewrite Hq.
  cbn [andb]. by rewrite !andb_false_r.
Qed.

Lemma after_tag_payload (t tail : string) :
  is_base64_text t = true →
  after_tag (t +:+ String DQUOTE (String LF tail)) = None.
Proof.
  induction t as [|c t IH]; intros Ht.
  - rewrite append_nil_l. reflexivity.
  - pose proof (no_uri_in_payload _ tail Ht) as Hu.
    cbn [is_base64_text all_chars] in Ht. apply andb_prop in Ht as [Hc Ht].
    destruct (base64_char_facts c Hc) as (_ & Hterm & _).
    rewrite append_cons in *. cbn [after_tag]. rewrite Hterm.
    fold (is_base64_text t) in Ht. by rewrite (IH Ht), Hu.
Qed.

Lemma after_tag_no_U (p r : string) :
  all_chars (fun c => negb (Ascii.eqb "U" c) && negb (is_line_terminator c))
            p = true →
  after_tag r = None → after_tag (p +:+ r) = None.
Proof.
  intros Hp Hr. induction p as [|c p IH]; [done|].
  cbn [all_chars] in Hp. apply andb_prop in Hp as [Hc Hp].
  apply andb_prop in Hc as [Hu%negb_true_iff Ht%negb_true_iff].
  rewrite append_cons. cbn [after_tag]. rewrite Ht, (IH Hp).
  unfold try_uri.
  let u := eval vm_compute in URI_PREFIX in change URI_PREFIX with u.
  cbn [startsWith]. by rewrite Hu.
Qed.

(** The greedy scan finds the payload of a key line. *)
Lemma after_tag_key_line (pre t tail : string) :
  all_chars (fun c => negb (is_line_terminator c)) pre = true →
  is_base64_text t = true → truthy t = true →
  after_tag (pre +:+ URI_PREFIX +:+ t +:+ String DQUOTE (String LF tail))
  = Some t.
Proof.
  intros Hpre Ht Hne. induction pre as [|c pre IH].
  - rewrite append_nil_l.
    set (rest := t +:+ String DQUOTE (String LF tail)).
    assert (Hhere : try_uri (URI_PREFIX +:+ rest) = Some t).
    { unfold try_uri. rewrite startsWith_append, skip_append.
      by apply key_capture_quoted. }
    assert (Hdeep : after_tag (skip 1 URI_PREFIX +:+ rest) = None).
    { apply after_tag_no_U; [by vm_compute|].
      by apply after_tag_payload. }
    change (URI_PREFIX +:+ rest)
      with (String "U" (skip 1 URI_PREFIX +:+ rest)) in *.
    cbn [after_tag]. change (is_line_terminator "U") with false.
    cbn match. by rewrite Hdeep.
  - cbn [all_chars] in Hpre. apply andb_prop in Hpre as [Hc Hpre].
    apply negb_true_iff in Hc.
    rewrite append_cons. cbn [after_tag]. rewrite Hc. by rewrite (IH Hpre).
Qed.

Lemma mismatches_startsWith (u p s : string) :
  mismatches u p = true → startsWith (u +:+ s) p = false.
Proof.
  revert p. induction u as [|a u IH]; intros [|b p] H; try done.
  rewrite append_cons. cbn [startsWith]. cbn [mismatches] in H.
  rewrite (Ascii.eqb_sym b a).
  destruct (Ascii.eqb a b); [|done]. cbn [andb]. by apply IH.
Qed.

Lemma key_match_starts_none (a s : string) :
  starts_none KEY_TAG a = true → key_match (a +:+ s) = key_match s.
Proof.
  induction a as [|c a IH]; [done|]. cbn [starts_none].
  intros [Hm Ha]%andb_prop.
  pose proof (mismatches_startsWith _ _ s Hm) as Hs.
  rewrite append_cons in *. rewrite key_match_step by done. by apply IH.
Qed.

Lemma key_match_here (s k : string) :
  startsWith s KEY_TAG = true →
  after_tag (skip (String.length KEY_TAG) s) = Some k →
  key_match s = Some k.
Proof. intros H1 H2. destruct s; cbn [key_match]; by rewrite H1, H2. Qed.

Lemma trimEnd_no_space (s : string) :
  all_chars (fun c => negb (is_js_space c)) s = true → trimEnd s = s.
Proof.
  induction s as [|c s IH]; [done|]. cbn [all_chars trimEnd].
  intros [Hc%negb_true_iff Hs]%andb_prop. rewrite (IH Hs), Hc.
  by destruct s.
Qed.

Lemma trim_no_space (s : string) :
  all_chars (fun c => negb (is_js_space c)) s = true → trim s = s.
Proof.
  intros Hs. unfold trim.
  assert (Hstart : trimStart s = s).
  { destruct s as [|c s]; [done|]. cbn [all_chars] in Hs.
    apply andb_prop in Hs as [Hc%negb_true_iff _]. cbn [trimStart].
    by rewrite Hc. }
  rewrite Hstart. by apply trimEnd_no_space.
Qed.

Lemma base64_text_no_space (s : string) :
  is_base64_text s = true →
  all_chars (fun c => negb (is_js_space c)) s = true.
Proof.
  induction s as [|c s IH]; [done|]. cbn [is_base64_text all_chars].
  intros [Hc Hs]%andb_prop. destruct (base64_char_facts c Hc) as (_ & _ & ->).
  by apply IH.
Qed.

(** The key line is where the expression first matches. *)
Lemma key_match_generated (segs : list segment) (key : list byte) (dur : N) :
  key ≠ [] →
  key_match (generateCustomM3U8 segs key dur)
  = Some (Base64.to_base64 key).
Proof.
  intros Hkey. unfold generateCustomM3U8. rewrite entries_unlines.
  set (tail := unlines _ _). unfold playlist_header.
  set (t := Base64.to_base64 key).
  assert (Hshape :
    ("#EXTM3U" +:+ nl +:+ "#EXT-X-VERSION:3" +:+ nl
     +:+ "#EXT-X-TARGETDURATION:" +:+ pretty dur +:+ nl
     +:+ "#EXT-X-MEDIA-SEQUENCE:0" +:+ nl
     +:+ "#EXT-X-PLAYLIST-TYPE:VOD" +:+ nl +:+ nl
     +:+ "#EXT-X-CUSTOM-KEY:METHOD=CHACHA20-POLY1305,URI="
     +:+ String DQUOTE "data:text/plain;base64,"
     +:+ t +:+ String DQUOTE nl +:+ nl) +:+ tail
    = ("#EXTM3U" +:+ nl +:+ "#EXT-X-VERSION:3" +:+ nl
       +:+ "#EXT-X-TARGETDURATION:")
      +:+ pretty dur
      +:+ (nl +:+ "#EXT-X-MEDIA-SEQUENCE:0" +:+ nl
           +:+ "#EXT-X-PLAYLIST-TYPE:VOD" +:+ nl +:+ nl)
      +:+ KEY_TAG
      +:+ ("METHOD=CHACHA20-POLY1305," +:+ URI_PREFIX +:+ t
           +:+ String DQUOTE (String LF (nl +:+ tail)))).
  { rewrite !append_assoc. reflexivity. }
  rewrite Hshape.
  rewrite key_match_starts_none by (by vm_compute).
  rewrite key_match_no_hash by apply pretty_N_lacks_hash.
  rewrite key_match_starts_none by (by vm_compute).
  apply key_match_here; [apply startsWith_append|].
  rewrite skip_append. apply after_tag_key_line.
  - by vm_compute.
  - apply to_base64_text.
  - subst t. by destruct key as [|a [|b [|c l]]].
Qed.

(** X8: key round trip.  Whatever the segments and the duration are, the
    key directive that [generateCustomM3U8] writes for a key that is not
    empty is found by [parseEncryptionKey], once libsodium is loaded, and
    decoded to exactly that key. *)
Theorem key_round_trip (st : EncryptionState) (segs : list segment)
  (key : list byte) (dur : N) :
  sodium st = true → key ≠ [] →
  parseEncryptionKey st (generateCustomM3U8 segs key dur) = Ok key.
Proof.
  intros Hst Hkey. unfold parseEncryptionKey.
  rewrite key_match_generated, Hst by done.
  rewrite trim_no_space
    by (apply base64_text_no_space, to_base64_text).
  by rewrite decode_base64_any.
Qed.

Lemma key_round_trip_witness :
  parseEncryptionKey fresh_state
    (generateCustomM3U8 sample_segments sample_key 10) = Ok sample_key.
Proof.
  apply (key_round_trip fresh_state sample_segments sample_key 10).
  - reflexivity.
  - discriminate.
Defined.

End KeyProperties.

(* ===================================================================== *)
(** ** Further properties: cleaning                                        *)
(* ===================================================================== *)

Section CleaningProperties.
Import Server Loader.

Lemma split_lacks_sep (sep : ascii) (s : string) :
  Forall (fun l => lacks sep l = true) (split sep s).
Proof.
  induction s as [|c s IH]; cbn [split]; [by repeat constructor|].
  destruct (Ascii.eqb c sep) eqn:E; [by constructor|].
  destruct (split sep s) as [|w ws]; [by repeat constructor; cbn; rewrite E|].
  apply Forall_cons in IH as [Hw Hws]. constructor; [|done].
  cbn [lacks]. by rewrite E, Hw.
Qed.

Lemma split_join (ls : list string) :
  ls ≠ [] → Forall (fun l => lacks LF l = true) ls →
  split LF (join nl ls) = ls.
Proof.
  intros Hne Hls. induction Hls as [|l ls Hl Hls IH]; [done|].
  destruct ls as [|l' ls].
  - cbn [join]. by apply split_lacks.
  - rewrite join_cons by done. unfold nl at 1.
    rewrite append_cons, append_nil_l, split_field by done.
    by rewrite IH.
Qed.

Lemma lacks_trimStart (c : ascii) (s : string) :
  lacks c s = true → lacks c (trimStart s) = true.
Proof.
  induction s as [|a s IH]; [done|]. cbn [trimStart]. intros H.
  destruct (is_js_space a); [|done]. apply IH. cbn [lacks] in H.
  by apply andb_prop in H as [_ ?].
Qed.

Lemma lacks_trimEnd (c : ascii) (s : string) :
  lacks c s = true → lacks c (trimEnd s) = true.
Proof.
  induction s as [|a s IH]; [done|]. cbn [lacks trimEnd].
  intros [Ha Hs]%andb_prop. specialize (IH Hs).
  destruct (trimEnd s) as [|b t].
  - destruct (is_js_space a); [done|]. cbn [lacks]. by rewrite Ha.
  - cbn [lacks] in *. by rewrite Ha, IH.
Qed.

Lemma lacks_trim (c : ascii) (s : string) :
  lacks c s = true → lacks c (trim s) = true.
Proof. intros H. by apply lacks_trimEnd, lacks_trimStart. Qed.

Lemma trimEnd_idempotent (s : string) : trimEnd (trimEnd s) = trimEnd s.
Proof.
  induction s as [|c s IH]; [done|]. cbn [trimEnd].
  destruct (trimEnd s) as [|b t] eqn:E.
  - destruct (is_js_space c) eqn:Ec; [done|]. cbn [trimEnd]. by rewrite Ec.
  - cbn [trimEnd]. cbn [trimEnd] in IH. rewrite IH.
    by destruct (match trimEnd t with
                 | "" => if is_js_space b then "" else String b ""
                 | String a s0 => String b (String a s0)
                 end).
Qed.

(** The head of a string survives [trimEnd] unless nothing does. *)
Lemma trimEnd_head (c : ascii) (s : string) :
  trimEnd (String c s) = "" ∨ ∃ t, trimEnd (String c s) = String c t.
Proof.
  cbn [trimEnd]. destruct (trimEnd s); [|by right; eexists].
  destruct (is_js_space c); [by left|by right; eexists].
Qed.

Lemma trimStart_head (s : string) :
  trimStart s = "" ∨ ∃ c t, trimStart s = String c t ∧ is_js_space c = false.
Proof.
  induction s as [|c s IH]; [by left|]. cbn [trimStart].
  destruct (is_js_space c) eqn:E; [done|]. right. by exists c, s.
Qed.

Lemma trim_idempotent (s : string) : trim (trim s) = trim s.
Proof.
  unfold trim.
  assert (H : trimStart (trimEnd (trimStart s)) = trimEnd (trimStart s)).
  { destruct (trimStart_head s) as [->|(c & t & -> & Hc)]; [done|].
    destruct (trimEnd_head c t) as [->|[u ->]]; [done|].
    cbn [trimStart]. by rewrite Hc. }
  rewrite H. apply trimEnd_idempotent.
Qed.

Lemma not_rewritable (base : option string) (l : string) :
  startsWith (default "" base) "blob:" = false → rewritable base l = false.
Proof.
  intros H. unfold rewritable. rewrite H. cbn [andb].
  by rewrite andb_false_r.
Qed.

Lemma resolve_comment (loc : Location) (base : option string) (l : string) :
  startsWith l "#" = true → resolve loc base l = l.
Proof. intros H. unfold resolve, rewritable. by rewrite H. Qed.

Lemma kept_lines_fixed (ls : list string) :
  Forall (fun l => trim l = l ∧ kept l = true) ls →
  List.filter kept (map trim ls) = ls.
Proof.
  induction 1 as [|l ls [Ht Hk] _ IH]; [done|].
  cbn [map List.filter]. by rewrite Ht, Hk, IH.
Qed.

Lemma kept_trimmed_lines (m : string) :
  Forall (fun l => trim l = l ∧ kept l = true ∧ lacks LF l = true)
         (List.filter kept (map trim (split LF m))).
Proof.
  pose proof (split_lacks_sep LF m) as Hls.
  induction Hls as [|l ls Hl _ IH]; [constructor|].
  cbn [map List.filter]. destruct (kept (trim l)) eqn:E; [|done].
  constructor; [|done]. split; [apply trim_idempotent|]. split; [done|].
  by apply lacks_trim.
Qed.

Lemma served_from_plain (loc : Location) (l : string) :
  plain_location loc = true → lacks LF l = true →
  lacks LF (served_from loc l) = true
  ∧ is_proprietary (served_from loc l) = false.
Proof.
  unfold plain_location. rewrite !andb_true_iff, negb_true_iff.
  intros [[Hh Hp] Hhost] Hl. unfold served_from. split.
  - rewrite !lacks_append, Hp, Hhost, Hl. reflexivity.
  - apply not_comment_not_proprietary.
    destruct (protocol loc) as [|c p]; [reflexivity|].
    by rewrite append_cons.
Qed.

Lemma kept_not_proprietary (l : string) :
  kept l = true → is_proprietary l = false.
Proof.
  unfold kept. by intros [_ ?%negb_true_iff]%andb_prop.
Qed.

(** X9: the cleaned manifest holds no proprietary directive.  Whatever the
    manifest and the base URL are, no line of what [cleanM3U8ForHls]
    returns starts with the key tag or with the nonce tag, the location of
    the window being single-line text whose protocol does not start with a
    hash sign. *)
Theorem cleaned_manifest_has_no_directive (loc : Location)
  (m3u8Content : string) (baseUrl : option string) :
  plain_location loc = true →
  Forall (fun l => is_proprietary l = false)
         (split LF (cleanM3U8ForHls loc m3u8Content baseUrl)).
Proof.
  intros Hloc. unfold cleanM3U8ForHls. rewrite clean_lines_spec.
  pose proof (kept_trimmed_lines m3u8Content) as Hk.
  set (L := List.filter kept (map trim (split LF m3u8Content))) in *.
  assert (HL : Forall (fun l => lacks LF l = true
                                ∧ is_proprietary l = false)
                      (map (resolve loc baseUrl) L)).
  { induction Hk as [|l ls (Ht & Hkept & Hlf) _ IH]; [constructor|].
    cbn [map]. constructor; [|done]. unfold resolve.
    destruct (rewritable baseUrl l); [by apply served_from_plain|].
    split; [done|by apply kept_not_proprietary]. }
  destruct (map (resolve loc baseUrl) L) as [|r rs] eqn:E.
  - by repeat constructor.
  - rewrite split_join; [|done|].
    + eapply Forall_impl; [exact HL|]. by intros l [_ ?].
    + eapply Forall_impl; [exact HL|]. by intros l [? _].
Qed.

Lemma cleaned_manifest_has_no_directive_witness :
  Forall (fun l => is_proprietary l = false)
         (split LF (cleanM3U8ForHls sample_location malformed_key_manifest
                                    (Some "blob:http://localhost/0b5c"))).
Proof.
  apply (cleaned_manifest_has_no_directive sample_location). reflexivity.
Defined.

(** X10: cleaning is idempotent.  Under base URLs that are not blob:
    URLs, cleaning a cleaned manifest changes nothing. *)
Theorem cleaning_idempotent (loc : Location) (m3u8Content : string)
  (baseUrl baseUrl' : option string) :
  startsWith (default "" baseUrl) "blob:" = false →
  startsWith (default "" baseUrl') "blob:" = false →
  cleanM3U8ForHls loc (cleanM3U8ForHls loc m3u8Content baseUrl) baseUrl'
  = cleanM3U8ForHls loc m3u8Content baseUrl.
Proof.
  intros Hb Hb'. unfold cleanM3U8ForHls. rewrite !clean_lines_spec.
  pose proof (kept_trimmed_lines m3u8Content) as Hk.
  set (L := List.filter kept (map trim (split LF m3u8Content))) in *.
  assert (Hid : ∀ base ls, startsWith (default "" base) "blob:" = false →
                  map (resolve loc base) ls = ls).
  { intros base ls H. induction ls as [|l ls IH]; [done|].
    cbn [map]. unfold resolve at 1. by rewrite not_rewritable, IH. }
  rewrite !Hid by done.
  destruct L as [|l ls] eqn:E; [reflexivity|].
  rewrite split_join; [|done|].
  - rewrite kept_lines_fixed; [done|].
    eapply Forall_impl; [exact Hk|]. by intros x (? & ? & _).
  - eapply Forall_impl; [exact Hk|]. by intros x (_ & _ & ?).
Qed.

Lemma cleaning_idempotent_witness :
  cleanM3U8ForHls sample_location
    (cleanM3U8ForHls sample_location malformed_key_manifest
                     (Some sample_url)) None
  = cleanM3U8ForHls sample_location malformed_key_manifest (Some sample_url).
Proof.
  apply (cleaning_idempotent sample_location); reflexivity.
Defined.

Lemma all_chars_append (p : ascii → bool) (a b : string) :
  all_chars p (a +:+ b) = all_chars p a && all_chars p b.
Proof.
  induction a as [|c a IH]; [done|].
  rewrite append_cons. cbn [all_chars]. by rewrite IH, andb_assoc.
Qed.

Lemma all_chars_impl (p q : ascii → bool) (s : string) :
  (∀ c, p c = true → q c = true) →
  all_chars p s = true → all_chars q s = true.
Proof.
  intros Hpq. induction s as [|c s IH]; [done|]. cbn [all_chars].
  intros [Hc Hs]%andb_prop. by rewrite (Hpq c Hc), IH.
Qed.

Lemma pretty_N_go_digits (x : N) (s : string) :
  all_chars is_digit s = true → all_chars is_digit (pretty_N_go x s) = true.
Proof.
  revert s. induction (N.lt_wf_0 x) as [x _ IH]; intros s Hs.
  destruct (decide (x = 0)%N) as [->|Hx]; [by rewrite pretty_N_go_0|].
  rewrite pretty_N_go_step by lia.
  apply IH; [apply N.div_lt; lia|].
  cbn [all_chars]. rewrite Hs. unfold pretty_N_char.
  by repeat case_match.
Qed.

Lemma pretty_N_digits (n : N) : all_chars is_digit (pretty n) = true.
Proof.
  unfold pretty, pretty_N. case_decide; [done|].
  by apply pretty_N_go_digits.
Qed.

Lemma digit_no_space (c : ascii) :
  is_digit c = true → negb (is_js_space c) = true.
Proof. destruct c as [[] [] [] [] [] [] [] []]; by vm_compute. Qed.

Lemma pretty_N_no_space (n : N) :
  all_chars (fun c => negb (is_js_space c)) (pretty n) = true.
Proof.
  eapply all_chars_impl; [apply digit_no_space|apply pretty_N_digits].
Qed.

(** What the cleaning keeps of the header and of an entry. *)
Lemma header_lines_kept (dur : N) (key : list byte) :
  List.filter kept (map trim (header_lines dur key))
  = [ "#EXTM3U"; "#EXT-X-VERSION:3";
      "#EXT-X-TARGETDURATION:" +:+ pretty dur;
      "#EXT-X-MEDIA-SEQUENCE:0"; "#EXT-X-PLAYLIST-TYPE:VOD" ].
Proof.
  unfold header_lines. cbn [map].
  rewrite (trim_no_space ("#EXT-X-TARGETDURATION:" +:+ pretty dur))
    by (by rewrite all_chars_append, pretty_N_no_space).
  rewrite (trim_no_space (_ +:+ _ +:+ Base64.to_base64 key +:+ _)).
  2:{ rewrite !all_chars_append.
      by rewrite (base64_text_no_space _ (to_base64_text key)). }
  reflexivity.
Qed.

Lemma entry_lines_kept (dur : N) (s : segment) :
  bare_filename (encrypted s) = true → is_base64_text (nonce s) = true →
  List.filter kept (map trim (entry_lines dur s))
  = [ "#EXTINF:" +:+ pretty dur +:+ ".0,"; encrypted s ].
Proof.
  intros (Ht & Hc & Htrim & _ & _)%bare_filename_inv Hn.
  unfold entry_lines. cbn [map].
  rewrite (trim_no_space ("#EXTINF:" +:+ pretty dur +:+ ".0,"))
    by (by rewrite !all_chars_append, pretty_N_no_space).
  rewrite (trim_no_space ("#EXT-X-SEGMENT-NONCE:" +:+ nonce s))
    by (by rewrite all_chars_append, (base64_text_no_space _ Hn)).
  rewrite Htrim. cbn [List.filter].
  change (kept ("#EXTINF:" +:+ pretty dur +:+ ".0,")) with true.
  change ("#EXT-X-SEGMENT-NONCE:" +:+ nonce s) with (NONCE_TAG +:+ nonce s).
  assert (Hd : kept (NONCE_TAG +:+ nonce s) = false).
  { unfold kept, is_proprietary. rewrite startsWith_append.
    by rewrite orb_true_r, andb_false_r. }
  assert (Hk : kept (encrypted s) = true).
  { unfold kept. by rewrite Ht, (not_comment_not_proprietary _ Hc). }
  by rewrite Hd, Hk.
Qed.

Lemma filter_flat_map_entries (dur : N) (segs : list segment) :
  Forall (fun s => bare_filename (encrypted s) = true
                   ∧ is_base64_text (nonce s) = true) segs →
  List.filter kept (map trim (flat_map (entry_lines dur) segs))
  = flat_map (fun s => [ "#EXTINF:" +:+ pretty dur +:+ ".0,"; encrypted s ])
             segs.
Proof.
  induction 1 as [|s segs [Hf Hn] _ IH]; [done|].
  cbn [flat_map]. rewrite map_app, List.filter_app, IH.
  by rewrite entry_lines_kept.
Qed.

(** X11: cleaning a generated manifest gives the standard playlist.  For
    a duration that is a safe integer, which JavaScript prints in decimal,
    and segments whose references are bare file names and whose nonces are
    base64 text, what [cleanM3U8ForHls] makes of the text written by
    [generateCustomM3U8] is the header without the key directive, then for
    each segment its duration line and its reference, resolved under the
    base URL, then the end marker: no blank line, no nonce directive. *)
Theorem generated_manifest_cleaned (loc : Location) (baseUrl : option string)
  (segs : list segment) (key : list byte) (dur : N) :
  safe_integer dur = true →
  Forall (fun s => bare_filename (encrypted s) = true
                   ∧ is_base64_text (nonce s) = true) segs →
  cleanM3U8ForHls loc (generateCustomM3U8 segs key dur) baseUrl
  = join nl (standard_lines loc baseUrl dur segs).
Proof.
  intros _ Hsegs. unfold cleanM3U8ForHls. rewrite clean_lines_spec.
  rewrite generate_lines.
  2:{ eapply Forall_impl; [exact Hsegs|]. intros s [Hf Hn]. split.
      - by apply base64_text_lacks.
      - by apply bare_filename_inv in Hf as (_ & _ & _ & ? & _). }
  f_equal. rewrite !map_app, !List.filter_app.
  rewrite header_lines_kept, filter_flat_map_entries by done.
  rewrite !map_app. unfold standard_lines.
  assert (Hentries :
    map (resolve loc baseUrl)
      (flat_map (fun s => [ "#EXTINF:" +:+ pretty dur +:+ ".0,";
                            encrypted s ]) segs)
    = flat_map (fun s => [ "#EXTINF:" +:+ pretty dur +:+ ".0,";
                           resolve loc baseUrl (encrypted s) ]) segs).
  { clear Hsegs. induction segs as [|s segs IH]; [done|].
    cbn [flat_map app map]. rewrite IH.
    by rewrite resolve_comment by reflexivity. }
  rewrite Hentries. cbn [map].
  by rewrite !resolve_comment by reflexivity.
Qed.

Lemma generated_manifest_cleaned_witness :
  cleanM3U8ForHls sample_location
    (generateCustomM3U8 sample_segments sample_key 10)
    (Some "blob:http://localhost/0b5c")
  = join nl
      [ "#EXTM3U"; "#EXT-X-VERSION:3"; "#EXT-X-TARGETDURATION:10";
        "#EXT-X-MEDIA-SEQUENCE:0"; "#EXT-X-PLAYLIST-TYPE:VOD";
        "#EXTINF:10.0,";
        "http://localhost:5173/output/my-encrypted-video/segment_000.enc";
        "#EXTINF:10.0,";
        "http://localhost:5173/output/my-encrypted-video/segment_001.enc";
        "#EXT-X-ENDLIST" ].
Proof.
  refine (eq_trans (generated_manifest_cleaned sample_location _
                      sample_segments sample_key 10 _ _) _).
  - reflexivity.
  - unfold sample_segments.
    repeat (apply Forall_cons; split; [split; vm_compute; reflexivity|]).
    apply Forall_nil_2.
  - vm_compute. reflexivity.
Defined.

End CleaningProperties.

(* ===================================================================== *)
(** ** Further properties: encrypting a directory                          *)
(* ===================================================================== *)

Section PipelineProperties.
Import ChaCha20Poly1305 Server.

Lemma substring_skip (n : nat) (s : string) :
  substring 0 n s +:+ skip n s = s.
Proof.
  revert s. induction n as [|n IH]; intros [|c s]; try reflexivity.
  cbn [substring skip]. by rewrite append_cons, IH.
Qed.

Lemma endsWith_split (s p : string) :
  endsWith s p = true →
  s = substring 0 (String.length s - String.length p) s +:+ p.
Proof.
  intros [_ He%String.eqb_eq]%andb_prop.
  pose proof (substring_skip (String.length s - String.length p) s) as H.
  rewrite He in H. by symmetry.
Qed.

Lemma append_inv_same_length (a b p q : string) :
  String.length p = String.length q → a +:+ p = b +:+ q → a = b ∧ p = q.
Proof.
  intros Hlen. revert b. induction a as [|c a IH]; intros [|c' b] H.
  - by rewrite !append_nil_l in H.
  - exfalso. apply (f_equal String.length) in H.
    rewrite append_cons, append_nil_l in H. cbn [String.length] in H.
    rewrite string_length_append in H. lia.
  - exfalso. apply (f_equal String.length) in H.
    rewrite append_cons, append_nil_l in H. cbn [String.length] in H.
    rewrite string_length_append in H. lia.
  - rewrite !append_cons in H. injection H as -> H.
    destruct (IH _ H) as [-> ->]. done.
Qed.

Lemma startsWith_long (x y p : string) :
  (String.length p ≤ String.length x)%nat →
  startsWith (x +:+ y) p = startsWith x p.
Proof.
  revert x. induction p as [|c p IH]; intros x Hlen; [done|].
  destruct x as [|a x]; [cbn in Hlen; lia|].
  rewrite append_cons. cbn [startsWith]. f_equal. apply IH.
  cbn [String.length] in Hlen. lia.
Qed.

Lemma replace_at_end (a : string) :
  contains (a +:+ ".t") ".ts" = false →
  replace (a +:+ ".ts") ".ts" ".enc" = a +:+ ".enc".
Proof.
  induction a as [|c a IH]; [reflexivity|].
  rewrite !append_cons. cbn [contains]. intros [Hs Hc]%orb_false_elim.
  cbn [replace].
  assert (Hs' : startsWith (String c (a +:+ ".ts")) ".ts" = false).
  { change (String c (a +:+ ".ts")) with (String c a +:+ ".ts").
    replace (String c a +:+ ".ts") with ((String c a +:+ ".t") +:+ "s")
      by (by rewrite append_assoc).
    rewrite startsWith_long; [by rewrite append_cons|].
    rewrite string_length_append. cbn [String.length]. lia. }
  rewrite Hs'. by rewrite (IH Hc).
Qed.

Lemma substring_append (k : nat) (a b : string) :
  substring 0 (String.length a + k) (a +:+ b) = a +:+ substring 0 k b.
Proof.
  induction a as [|c a IH]; [done|].
  rewrite !append_cons. cbn [String.length Nat.add substring].
  by rewrite IH.
Qed.

Lemma segment_name_inv (name : string) :
  segment_name name = true →
  name = stem name +:+ ".ts"
  ∧ replace name ".ts" ".enc" = stem name +:+ ".enc".
Proof.
  unfold segment_name. intros [He Hc%negb_true_iff]%andb_prop.
  pose proof (endsWith_split _ _ He) as Hn. cbn [String.length] in Hn.
  fold (stem name) in Hn. split; [done|].
  rewrite Hn at 1. apply replace_at_end.
  rewrite Hn in Hc. rewrite string_length_append in Hc.
  cbn [String.length] in Hc.
  replace (String.length (stem name) + 3 - 1)%nat
    with (String.length (stem name) + 2)%nat in Hc by lia.
  by rewrite substring_append in Hc.
Qed.

Lemma encrypted_name_injective (a b : string) :
  segment_name a = true → segment_name b = true →
  stem a +:+ ".enc" = stem b +:+ ".enc" → a = b.
Proof.
  intros [Ha _]%segment_name_inv [Hb _]%segment_name_inv H.
  apply append_inv_same_length in H as [H _]; [|done].
  rewrite Ha, Hb. by rewrite H.
Qed.

Lemma encrypted_name_fresh (a b : string) :
  endsWith a ".ts" = true → a ≠ stem b +:+ ".enc".
Proof.
  intros He ->.
  unfold endsWith in He. rewrite string_length_append in He.
  cbn [String.length] in He.
  replace (String.length (stem b) + 4 - 3)%nat
    with (String.length (stem b +:+ ".")) in He
    by (rewrite string_length_append; cbn [String.length]; lia).
  replace (stem b +:+ ".enc") with ((stem b +:+ ".") +:+ "enc") in He
    by (by rewrite append_assoc).
  rewrite skip_append in He. cbn in He.
  by rewrite andb_false_r in He.
Qed.

Lemma encryptSegment_ok (data key nonce : list byte) :
  length key = 32%nat → length nonce = 12%nat →
  encryptSegment data key nonce None = Ok (aead_encrypt data [] nonce key).
Proof.
  intros HK HN. unfold encryptSegment, sn_encrypt.
  rewrite Nat.eqb_refl, HK, HN. reflexivity.
Qed.

Lemma draw_length (r : Rng) (offset n : nat) : length (draw r offset n) = n.
Proof. unfold draw. by rewrite length_map, length_seq. Qed.

Lemma draw_next (r : Rng) (i n : nat) :
  draw {| tape := tape r; position := (position r + 12)%nat |} (12 * i) n
  = draw r (12 * S i) n.
Proof. unfold draw. cbn [tape position]. do 2 f_equal. lia. Qed.

(** The loop of [encryptHLSSegments] over well-named, distinct segment
    files, when it ends well: the [i]-th record describes the [i]-th file,
    the encrypted file holds the sealed content, and no other file
    changes. *)
Lemma encrypt_segments_run (key : list byte) (segments : list string) :
  ∀ (d : Directory) (r : Rng) (acc out : list segment) (d' : Directory)
    (r' : Rng),
  length key = 32%nat → NoDup segments →
  Forall (fun n => segment_name n = true) segments →
  encrypt_segments key segments d r acc = Ok (out, d', r') →
  ∃ recs,
    out = acc ++ recs
    ∧ length recs = length segments
    ∧ (∀ x, x ∉ map (fun n => stem n +:+ ".enc") segments →
            contents d' !! x = contents d !! x)
    ∧ ∀ i n, segments !! i = Some n →
        ∃ data, contents d !! n = Some data
          ∧ recs !! i
            = Some {| original := n;
                      encrypted := stem n +:+ ".enc";
                      nonce := Base64.to_base64 (draw r (12 * i) 12);
                      size := length data;
                      encryptedSize := (length data + 16)%nat |}
          ∧ contents d' !! (stem n +:+ ".enc")
            = Some (aead_encrypt data [] (draw r (12 * i) 12) key).
Proof.
  induction segments as [|n rest IH];
    intros d r acc out d' r' HK Hnd Hnames Hrun.
  { cbn [encrypt_segments] in Hrun. injection Hrun as <- <- <-.
    exists []. rewrite app_nil_r.
    split; [done|]. split; [done|]. split; [done|].
    intros i n Hi. by rewrite lookup_nil in Hi. }
  apply NoDup_cons in Hnd as [Hn Hnd].
  apply Forall_cons in Hnames as [Hname Hnames].
  destruct (segment_name_inv _ Hname) as [_ Hrep].
  cbn [encrypt_segments] in Hrun. unfold readFile in Hrun.
  destruct (contents d !! n) as [data|] eqn:Hdata; [|discriminate Hrun].
  unfold generateNonce, randombytes_buf, NPUBBYTES in Hrun.
  rewrite encryptSegment_ok in Hrun by (by rewrite ?length_map, ?length_seq).
  rewrite Hrep in Hrun. unfold writeFile in Hrun.
  destruct (writable d (stem n +:+ ".enc")); [|discriminate Hrun].
  set (N0 := map (tape r) (seq (position r) 12)) in Hrun.
  assert (HN0 : N0 = draw r (12 * 0) 12).
  { unfold draw, N0. do 2 f_equal. lia. }
  set (C := aead_encrypt data [] N0 key) in Hrun.
  set (d1 := {| contents := <[stem n +:+ ".enc" := C]> (contents d) |})
    in Hrun.
  set (r1 := {| tape := tape r; position := (position r + 12)%nat |}) in Hrun.
  set (rec := {| original := n; encrypted := stem n +:+ ".enc" |}) in Hrun.
  destruct (IH d1 r1 (acc ++ [rec]) out d' r' HK Hnd Hnames Hrun)
    as (recs & -> & Hlen & Hframe & Hrecs).
  clear Hrun.
  exists (rec :: recs). split; [|split; [|split]].
  - by rewrite <- app_assoc.
  - cbn [length]. by rewrite Hlen.
  - intros x Hx. cbn [map] in Hx. apply not_elem_of_cons in Hx as [Hx1 Hx2].
    rewrite (Hframe x Hx2). cbn. by rewrite lookup_insert_ne.
  - intros [|i] m Hi.
    + injection Hi as <-. exists data. split; [exact Hdata|]. split.
      * cbn [lookup list_lookup]. unfold rec, C.
        rewrite aead_encrypt_length, <- HN0. reflexivity.
      * rewrite Hframe.
        -- cbn. rewrite lookup_insert_eq. unfold C. by rewrite HN0.
        -- intros Hin. apply list_elem_of_fmap in Hin as (m & Hm & Hin).
           apply encrypted_name_injective in Hm; [|exact Hname|].
           ++ by subst m.
           ++ by apply (proj1 (Forall_forall _ _) Hnames).
    + cbn [lookup list_lookup] in Hi.
      destruct (Hrecs i m Hi) as (data' & Hd' & Hrec & Hfile).
      assert (Hm : segment_name m = true).
      { apply (proj1 (Forall_forall _ _) Hnames).
        by eapply list_elem_of_lookup_2. }
      exists data'. split; [|split].
      * cbn in Hd'. rewrite lookup_insert_ne in Hd'; [exact Hd'|].
        intros E. apply (encrypted_name_fresh m n); [|by rewrite E].
        unfold segment_name in Hm. by apply andb_prop in Hm as [? _].
      * cbn [lookup list_lookup]. rewrite <- (draw_next r i 12). exact Hrec.
      * rewrite <- (draw_next r i 12). exact Hfile.
Qed.

(** How the loop ends, whatever the names are. *)
Lemma encrypt_segments_outcome (key : list byte) (segments : list string) :
  ∀ (d : Directory) (r : Rng) (acc : list segment),
  length key = 32%nat →
  match encrypt_segments key segments d r acc with
  | Ok (out, d', r') =>
      position r' = (position r + 12 * length segments)%nat
      ∧ ∃ recs, out = acc ++ recs ∧ map original recs = segments
                ∧ Forall record_consistent recs
                ∧ ∀ i s, recs !! i = Some s →
                    nonce s = Base64.to_base64 (draw r (12 * i) 12)
  | Throw ListingFailed => False
  | Throw (ReadFailed n) => n ∈ segments ∧ contents d !! n = None
  | Throw (WriteFailed n) =>
      ∃ m, m ∈ segments ∧ n = replace m ".ts" ".enc" ∧ writable d n = false
  | Throw (CipherError _) => False
  end.
Proof.
  induction segments as [|n rest IH]; intros d r acc HK.
  { cbn [encrypt_segments length]. split; [lia|]. exists [].
    rewrite app_nil_r. split; [done|]. split; [done|]. split; [done|].
    intros i s Hi. by rewrite lookup_nil in Hi. }
  cbn [encrypt_segments]. unfold readFile.
  destruct (contents d !! n) as [data|] eqn:Hdata;
    [|split; [by left|exact Hdata]].
  unfold generateNonce, randombytes_buf, NPUBBYTES.
  rewrite encryptSegment_ok by (by rewrite ?length_map, ?length_seq).
  pose proof (aead_encrypt_length data []
                (map (tape r) (seq (position r) 12)) key) as HC.
  revert HC. generalize (aead_encrypt data []
                           (map (tape r) (seq (position r) 12)) key).
  intros C HC. unfold writeFile.
  destruct (writable d (replace n ".ts" ".enc")) eqn:Hw;
    [|exists n; split; [by left|by split]].
  set (rec := {| original := n; encryptedSize := length C |}).
  set (d1 := {| contents := <[replace n ".ts" ".enc" := C]> (contents d) |}).
  set (r1 := {| tape := tape r; position := (position r + 12)%nat |}).
  specialize (IH d1 r1 (acc ++ [rec]) HK).
  destruct (encrypt_segments key rest d1 r1 (acc ++ [rec]))
    as [[[out d'] r']|[|m|m|e]]; [|done| | |done].
  - destruct IH as (Hpos & recs & -> & Hnames & Hrecs & Hdraw). split.
    { rewrite Hpos. cbn [position r1 length]. lia. }
    exists (rec :: recs). split; [by rewrite <- app_assoc|].
    split; [cbn [map]; by rewrite Hnames|]. split.
    + apply Forall_cons. split; [|done].
      split; [reflexivity|]. split; [exact HC|].
      exists (map (tape r) (seq (position r) 12)).
      split; [by rewrite length_map, length_seq|reflexivity].
    + intros [|i] s Hi.
      * injection Hi as <-. cbn [nonce rec]. unfold draw.
        by rewrite Nat.mul_0_r, Nat.add_0_r.
      * rewrite <- (draw_next r i 12). by apply Hdraw.
  - destruct IH as [Hin Hm]. split; [by right|].
    cbn in Hm. by apply lookup_insert_None in Hm as [? _].
  - destruct IH as (m0 & Hin & -> & Hm). exists m0.
    split; [by right|]. by split.
Qed.

(** The loop ends well when every read and every write does. *)
Lemma encrypt_segments_succeeds (key : list byte) (segments : list string) :
  ∀ (d : Directory) (r : Rng) (acc : list segment),
  length key = 32%nat →
  Forall (fun n => is_Some (contents d !! n)
                   ∧ writable d (replace n ".ts" ".enc") = true) segments →
  ∃ out, encrypt_segments key segments d r acc = Ok out.
Proof.
  induction segments as [|n rest IH]; intros d r acc HK Hfiles;
    [by eexists|].
  apply Forall_cons in Hfiles as [[[data Hdata] Hw] Hfiles].
  cbn [encrypt_segments]. unfold readFile. rewrite Hdata.
  unfold generateNonce, randombytes_buf, NPUBBYTES.
  rewrite encryptSegment_ok by (by rewrite ?length_map, ?length_seq).
  generalize (aead_encrypt data [] (map (tape r) (seq (position r) 12)) key).
  intros C. unfold writeFile. rewrite Hw. apply IH; [exact HK|].
  eapply Forall_impl; [exact Hfiles|]. intros m [[x Hx] Hm]. cbn.
  split; [|exact Hm]. rewrite lookup_insert. case_decide; by eexists.
Qed.

(** X12: how a pass over a directory ends.  [encryptHLSSegments] never
    fails in the cipher.  It is rejected when the directory cannot be
    listed, when a listed .ts file cannot be read, or when the file named
    after a listed .ts file cannot be written; it succeeds when the
    directory can be listed, every listed .ts file can be read and every
    output name can be written.  When it succeeds the key is the first 32
    bytes drawn, there is one record per listed .ts file, in the order of
    the listing, each with the output name derived from the input name, an
    encrypted size 16 above the size and the base64 text of a 12-byte
    nonce, and the random source has moved by 32 bytes plus 12 per file. *)
Theorem encryption_pass_outcome (d : Directory) (r : Rng) :
  match encryptHLSSegments d r with
  | Ok (key, segs, d', r') =>
      listable d = true
      ∧ key = draw r 0 32
      ∧ map original segs = segment_files d
      ∧ Forall record_consistent segs
      ∧ position r' = (position r + 32 + 12 * length segs)%nat
  | Throw ListingFailed => listable d = false
  | Throw (ReadFailed n) =>
      listable d = true ∧ n ∈ names d ∧ endsWith n ".ts" = true
      ∧ contents d !! n = None
  | Throw (WriteFailed n) =>
      listable d = true
      ∧ ∃ m, m ∈ names d ∧ endsWith m ".ts" = true
             ∧ n = replace m ".ts" ".enc" ∧ writable d n = false
  | Throw (CipherError _) => False
  end
  ∧ (listable d = true →
     Forall (fun n => is_Some (contents d !! n)
                      ∧ writable d (replace n ".ts" ".enc") = true)
            (segment_files d) →
     ∃ key segs d' r', encryptHLSSegments d r = Ok (key, segs, d', r')).
Proof.
  unfold encryptHLSSegments, generateKey, randombytes_buf, KEYBYTES, readdir.
  set (key := map (tape r) (seq (position r) 32)).
  set (r0 := {| tape := tape r; position := (position r + 32)%nat |}).
  assert (HK : length key = 32%nat)
    by (by unfold key; rewrite length_map, length_seq).
  destruct (listable d); [|by split].
  fold (segment_files d). split.
  - pose proof (encrypt_segments_outcome key (segment_files d) d r0 [] HK)
      as H.
    destruct (encrypt_segments key (segment_files d) d r0 [])
      as [[[out d'] r']|[|m|m|e]]; [|done| | |done].
    + destruct H as (Hpos & recs & -> & Hnames & Hrecs & _).
      rewrite app_nil_l. split; [done|].
      split; [|split; [done|split; [done|]]].
      * unfold key, draw. by rewrite Nat.add_0_r.
      * rewrite Hpos. cbn [position r0].
        by rewrite <- Hnames, length_map.
    + destruct H as [Hin Hm]. unfold segment_files in Hin.
      apply list_elem_of_In, filter_In in Hin as [Hin He].
      by apply list_elem_of_In in Hin.
    + destruct H as (m0 & Hin & -> & Hm). unfold segment_files in Hin.
      apply list_elem_of_In, filter_In in Hin as [Hin He].
      apply list_elem_of_In in Hin. split; [done|]. by exists m0.
  - intros _ Hfiles.
    destruct (encrypt_segments_succeeds key (segment_files d) d r0 [] HK
                Hfiles) as [[[out d'] r'] ->].
    by exists key, out, d', r'.
Qed.

Lemma encryption_pass_outcome_witness :
  ∃ key segs d' r',
    encryptHLSSegments sample_directory sample_rng = Ok (key, segs, d', r').
Proof.
  apply (proj2 (encryption_pass_outcome sample_directory sample_rng)).
  - reflexivity.
  - change (segment_files sample_directory)
      with ["segment0000.ts"; "segment0001.ts"].
    repeat (apply Forall_cons; split;
            [split; [vm_compute; eexists; reflexivity|reflexivity]|]).
    apply Forall_nil_2.
Defined.

(** X13: no random byte is used twice.  When [encryptHLSSegments]
    succeeds, the key is the window of 32 bytes of the random source at its
    position, and the nonce recorded for the [i]-th segment is the base64
    text of the window of 12 bytes that starts 32 + 12 i bytes further:
    the windows follow one another and do not overlap. *)
Theorem nonces_are_successive_draws (d d' : Directory) (r r' : Rng)
  (key : list byte) (segs : list segment) :
  encryptHLSSegments d r = Ok (key, segs, d', r') →
  key = draw r 0 32
  ∧ ∀ i s, segs !! i = Some s →
      nonce s = Base64.to_base64 (draw r (32 + 12 * i) 12).
Proof.
  unfold encryptHLSSegments, generateKey, randombytes_buf, KEYBYTES, readdir.
  set (k := map (tape r) (seq (position r) 32)).
  set (r0 := {| tape := tape r; position := (position r + 32)%nat |}).
  assert (HK : length k = 32%nat)
    by (by unfold k; rewrite length_map, length_seq).
  destruct (listable d); [|discriminate].
  fold (segment_files d).
  pose proof (encrypt_segments_outcome k (segment_files d) d r0 [] HK) as H.
  destruct (encrypt_segments k (segment_files d) d r0 [])
    as [[[out d1] r1]|e]; [|discriminate].
  destruct H as (_ & recs & -> & _ & _ & Hdraw).
  rewrite app_nil_l. intros E. injection E as <- <- _ _. split.
  - unfold k, draw. by rewrite Nat.add_0_r.
  - intros i s Hi. rewrite (Hdraw i s Hi). unfold draw, r0.
    cbn [tape position]. do 3 f_equal. lia.
Qed.

Lemma nonces_are_successive_draws_witness :
  ∃ key segs d' r',
    encryptHLSSegments sample_directory sample_rng = Ok (key, segs, d', r')
    ∧ key = draw sample_rng 0 32
    ∧ ∀ i s, segs !! i = Some s →
        nonce s = Base64.to_base64 (draw sample_rng (32 + 12 * i) 12).
Proof.
  destruct (encryptHLSSegments sample_directory sample_rng)
    as [[[[key segs] d'] r']|e] eqn:E.
  - exists key, segs, d', r'. split; [reflexivity|].
    exact (nonces_are_successive_draws sample_directory d' sample_rng r'
             key segs E).
  - exfalso. vm_compute in E. discriminate E.
Defined.

(** The whole pass over a directory whose segment files are distinct and
    well named, when it succeeds. *)
Lemma encrypt_directory_run (d d' : Directory) (r r' : Rng)
  (key : list byte) (segs : list segment) :
  NoDup (segment_files d) →
  Forall (fun n => segment_name n = true) (segment_files d) →
  encryptHLSSegments d r = Ok (key, segs, d', r') →
  key = draw r 0 32
  ∧ map original segs = segment_files d
  ∧ (∀ n, endsWith n ".ts" = true → contents d' !! n = contents d !! n)
  ∧ Forall (fun s =>
      encrypted s = stem (original s) +:+ ".enc"
      ∧ ∃ data C N,
          length N = 12%nat ∧ nonce s = Base64.to_base64 N
          ∧ contents d !! original s = Some data
          ∧ contents d' !! encrypted s = Some C
          ∧ (ABYTES ≤ length C)%nat
          ∧ aead_decrypt C [] N (draw r 0 32) = Some data) segs.
Proof.
  intros Hnd Hnames.
  unfold encryptHLSSegments, generateKey, randombytes_buf, KEYBYTES, readdir.
  destruct (listable d); [|discriminate].
  fold (segment_files d).
  replace (map (tape r) (seq (position r) 32)) with (draw r 0 32)
    by (unfold draw; by rewrite Nat.add_0_r).
  set (k := draw r 0 32).
  set (r0 := {| tape := tape r; position := (position r + 32)%nat |}).
  assert (HK : length k = 32%nat) by apply draw_length.
  destruct (encrypt_segments k (segment_files d) d r0 [])
    as [[[out d1] r1]|e] eqn:Hrun; [|discriminate].
  intros E. injection E as <- <- <- <-.
  destruct (encrypt_segments_run k (segment_files d) d r0 [] out d1 r1 HK Hnd
              Hnames Hrun)
    as (recs & Hout & Hlen & Hframe & Hrecs).
  rewrite app_nil_l in Hout. subst out. clear Hrun.
  assert (Hrec : ∀ i s, recs !! i = Some s →
            ∃ n data, segment_files d !! i = Some n
              ∧ contents d !! n = Some data
              ∧ s = {| original := n;
                       encrypted := stem n +:+ ".enc";
                       nonce := Base64.to_base64 (draw r0 (12 * i) 12);
                       size := length data;
                       encryptedSize := (length data + 16)%nat |}
              ∧ contents d1 !! (stem n +:+ ".enc")
                = Some (aead_encrypt data [] (draw r0 (12 * i) 12) k)).
  { intros i s Hi.
    destruct (lookup_lt_is_Some_2 (segment_files d) i) as [n Hn].
    { rewrite <- Hlen. by eapply lookup_lt_Some. }
    destruct (Hrecs i n Hn) as (data & Hd & Hs & Hfile).
    exists n, data. split; [exact Hn|]. split; [exact Hd|].
    split; [|exact Hfile]. rewrite Hi in Hs. by injection Hs. }
  split; [reflexivity|]. split; [|split].
  - apply list_eq_same_length with (length recs);
      [by rewrite Hlen|by rewrite length_map|].
    intros i x y _ Hx Hy. rewrite list_lookup_fmap in Hx.
    destruct (recs !! i) as [s|] eqn:Hi; [|discriminate Hx].
    destruct (Hrec i s Hi) as (n & data & Hn & _ & -> & _).
    cbn in Hx. congruence.
  - intros n Hn. apply Hframe. intros Hin.
    apply list_elem_of_fmap in Hin as (m & -> & _).
    by apply (encrypted_name_fresh _ m Hn).
  - apply Forall_forall. intros s Hin.
    apply list_elem_of_lookup_1 in Hin as [i Hi].
    destruct (Hrec i s Hi) as (n & data & Hn & Hd & -> & Hfile).
    cbn [original encrypted nonce]. split; [reflexivity|].
    exists data, (aead_encrypt data [] (draw r0 (12 * i) 12) k),
      (draw r0 (12 * i) 12).
    split; [apply draw_length|]. split; [reflexivity|].
    split; [exact Hd|]. split; [exact Hfile|]. split.
    + rewrite aead_encrypt_length. lia.
    + apply aead_round_trip.
Qed.

(** X14: the files written can be opened.  Take a directory whose .ts
    files are listed once and are named with .ts as their extension only.
    When [encryptHLSSegments] succeeds on it, there is a record for every
    listed .ts file, every .ts file is left as it was, and for each record
    the file written under the encrypted name is decrypted by
    [decryptSegment], under the key returned and the nonce recorded, to
    the content of the original file. *)
Theorem encrypted_files_decrypt (d d' : Directory) (r r' : Rng)
  (key : list byte) (segs : list segment) :
  NoDup (segment_files d) →
  Forall (fun n => segment_name n = true) (segment_files d) →
  encryptHLSSegments d r = Ok (key, segs, d', r') →
  map original segs = segment_files d
  ∧ (∀ n, endsWith n ".ts" = true → contents d' !! n = contents d !! n)
  ∧ Forall (fun s => ∃ data C N,
              contents d !! original s = Some data
              ∧ contents d' !! encrypted s = Some C
              ∧ nonce s = Base64.to_base64 N
              ∧ Server.decryptSegment C key N None = Ok data) segs.
Proof.
  intros Hnd Hnames Hrun.
  destruct (encrypt_directory_run d d' r r' key segs Hnd Hnames Hrun)
    as (-> & Horig & Hframe & Hsegs).
  split; [exact Horig|]. split; [exact Hframe|].
  eapply Forall_impl; [exact Hsegs|].
  intros s (_ & data & C & N & HN & Hnonce & Hd & Hfile & HC & Hdec).
  exists data, C, N. split; [exact Hd|]. split; [exact Hfile|].
  split; [exact Hnonce|].
  rewrite server_decrypt_core; [|apply draw_length|exact HN|exact HC].
  rewrite Hdec. reflexivity.
Qed.

Lemma encrypted_files_decrypt_witness :
  ∃ key segs d' r',
    encryptHLSSegments sample_directory sample_rng = Ok (key, segs, d', r')
    ∧ map original segs = segment_files sample_directory
    ∧ (∀ n, endsWith n ".ts" = true →
            contents d' !! n = contents sample_directory !! n)
    ∧ Forall (fun s => ∃ data C N,
                contents sample_directory !! original s = Some data
                ∧ contents d' !! encrypted s = Some C
                ∧ nonce s = Base64.to_base64 N
                ∧ Server.decryptSegment C key N None = Ok data) segs.
Proof.
  destruct (encryptHLSSegments sample_directory sample_rng)
    as [[[[key segs] d'] r']|e] eqn:E.
  - exists key, segs, d', r'. split; [reflexivity|].
    apply (encrypted_files_decrypt sample_directory d' sample_rng r' key
             segs).
    + apply (bool_decide_unpack _). vm_compute. exact I.
    + change (segment_files sample_directory)
        with ["segment0000.ts"; "segment0001.ts"].
      repeat (apply Forall_cons; split; [vm_compute; reflexivity|]).
      apply Forall_nil_2.
    + exact E.
  - exfalso. vm_compute in E. discriminate E.
Defined.

Lemma trim_fixed_head (c : ascii) (s : string) :
  trim (String c s) = String c s → is_js_space c = false.
Proof.
  unfold trim. intros H.
  destruct (trimStart_head (String c s)) as [E|(c' & t & E & Hc)];
    rewrite E in H; [discriminate H|].
  destruct (trimEnd_head c' t) as [E'|[u E']]; rewrite E' in H;
    [discriminate H|].
  by injection H as -> _.
Qed.

Lemma trimEnd_append_fixed (a b : string) :
  trimEnd b = b → truthy b = true → trimEnd (a +:+ b) = a +:+ b.
Proof.
  intros Hb Ht. induction a as [|c a IH]; [by rewrite append_nil_l|].
  rewrite append_cons. cbn [trimEnd]. rewrite IH.
  destruct (a +:+ b) eqn:E; [|done].
  apply (f_equal String.length) in E. rewrite string_length_append in E.
  destruct b; [done|]. cbn [String.length] in E. lia.
Qed.

(** The name written for a bare segment file name is bare as well. *)
Lemma bare_encrypted_name (n : string) :
  segment_name n = true → bare_filename n = true →
  bare_filename (stem n +:+ ".enc") = true.
Proof.
  intros [Hn _]%segment_name_inv Hb.
  apply bare_filename_inv in Hb as (_ & Hh & Ht & Hl & Hs).
  revert Hn Hh Ht Hl Hs. generalize (stem n). intros a -> Hh Ht Hl Hs.
  rewrite lacks_append in Hl, Hs.
  apply andb_prop in Hl as [Hl _]. apply andb_prop in Hs as [Hs _].
  unfold bare_filename. rewrite !lacks_append, Hl, Hs.
  destruct a as [|c a]; [reflexivity|].
  rewrite !append_cons in *. apply trim_fixed_head in Ht.
  cbn [truthy startsWith] in *. rewrite Hh. unfold trim.
  cbn [trimStart]. rewrite Ht.
  change (String c (a +:+ ".enc")) with (String c a +:+ ".enc").
  rewrite trimEnd_append_fixed by reflexivity.
  by rewrite String.eqb_refl.
Qed.

Lemma to_base64_truthy (bs : list byte) :
  bs ≠ [] → truthy (Base64.to_base64 bs) = true.
Proof. intros H. by destruct bs as [|a [|b [|c l]]]. Qed.

(** What the loader keeps of a generated manifest. *)
Lemma manifest_state (loc : Loader.Location) (lib_text : lib_failure → string)
  (st : Loader.EncryptionState) (segs : list segment) (key : list byte)
  (dur : N) (url : string) :
  Loader.sodium st = true → key ≠ [] →
  Forall (fun s => bare_filename (encrypted s) = true
                   ∧ is_base64_text (nonce s) = true) segs →
  fst (Loader.onload loc lib_text st url
         (ok_response (Loader.TextBody (generateCustomM3U8 segs key dur))))
  = Loader.with_nonces (Loader.with_key st key) (table_of segs).
Proof.
  intros Hst Hkey Hsegs. unfold Loader.onload, ok_response.
  cbn [Loader.status Loader.response]. change (200 =? 200) with true.
  cbv iota. unfold Loader.parseEncryptionKey.
  rewrite key_match_generated, Hst by done.
  rewrite trim_no_space by (apply base64_text_no_space, to_base64_text).
  rewrite decode_base64_any. cbn [fst]. f_equal.
  unfold Loader.parseSegmentNonces. rewrite generate_lines.
  - rewrite parse_header, parse_entries; [reflexivity|].
    eapply Forall_impl; [exact Hsegs|]. intros t [Hf Hn]. split; [done|].
    by apply base64_text_lacks.
  - eapply Forall_impl; [exact Hsegs|]. intros t [Hf Hn]. split.
    + by apply base64_text_lacks.
    + by apply bare_filename_inv in Hf as (_ & _ & _ & ? & _).
Qed.

(** X15: from the directory to the player.  Take a directory whose .ts
    files are listed once and are bare file names with .ts as their
    extension only, and a duration that is a safe integer.  When
    [encryptHLSSegments] succeeds on it, and the loader, with libsodium
    loaded, has loaded the manifest that [generateCustomM3U8] renders from
    the outcome, a request for any URL that ends in the encrypted name of
    a record, answered 200 with the file written under that name, ends in
    the success callback with the content of the original file, and
    leaves the state as it is.  There is a record for every listed .ts
    file. *)
Theorem playback_round_trip (loc : Loader.Location)
  (lib_text : lib_failure → string) (st : Loader.EncryptionState)
  (d d' : Directory) (r r' : Rng) (key : list byte) (segs : list segment)
  (dur : N) (manifestUrl : string) :
  Loader.sodium st = true → safe_integer dur = true →
  NoDup (segment_files d) →
  Forall (fun n => segment_name n = true ∧ bare_filename n = true)
         (segment_files d) →
  encryptHLSSegments d r = Ok (key, segs, d', r') →
  map original segs = segment_files d
  ∧ let st1 :=
      fst (Loader.load loc lib_text st manifestUrl
             (Loader.Loaded (ok_response
                (Loader.TextBody (generateCustomM3U8 segs key dur))))) in
    Forall (fun s => ∃ data C,
              contents d !! original s = Some data
              ∧ contents d' !! encrypted s = Some C
              ∧ ∀ url, endsWith url ".enc" = true →
                  Loader.basename url = Some (encrypted s) →
                  Loader.load loc lib_text st1 url
                    (Loader.Loaded (ok_response (Loader.BinaryBody C)))
                  = (st1, Loader.onSuccess url (Loader.BinaryBody data)
                            (length C))) segs.
Proof.
  intros Hst _ Hnd Hfiles Hrun.
  assert (Hnames : Forall (fun n => segment_name n = true) (segment_files d)).
  { eapply Forall_impl; [exact Hfiles|]. by intros n [? _]. }
  destruct (encrypt_directory_run d d' r r' key segs Hnd Hnames Hrun)
    as (-> & Horig & _ & Hsegs).
  clear Hrun. split; [exact Horig|].
  assert (Hin : ∀ s, s ∈ segs →
            segment_name (original s) = true
            ∧ bare_filename (original s) = true).
  { intros s Hs. apply (list_elem_of_fmap_2 original) in Hs.
    change (original <$> segs) with (map original segs) in Hs.
    rewrite Horig in Hs.
    exact (proj1 (Forall_forall _ _) Hfiles _ Hs). }
  assert (Hwf : Forall (fun s => bare_filename (encrypted s) = true
                                 ∧ is_base64_text (nonce s) = true) segs).
  { apply Forall_forall. intros s Hs.
    destruct (proj1 (Forall_forall _ _) Hsegs s Hs)
      as (-> & _ & _ & N & _ & -> & _).
    destruct (Hin s Hs) as [Hn Hb].
    split; [by apply bare_encrypted_name|apply to_base64_text]. }
  assert (Hdistinct : NoDup (map encrypted segs)).
  { assert (E : map encrypted segs
                = map (fun n => stem n +:+ ".enc") (map original segs)).
    { rewrite map_map. apply map_ext_Forall.
      eapply Forall_impl; [exact Hsegs|]. by intros s [? _]. }
    rewrite E, Horig. apply NoDup_fmap_2_strong; [|exact Hnd].
    intros a b Ha Hb. apply encrypted_name_injective.
    - by apply (proj1 (Forall_forall _ _) Hnames).
    - by apply (proj1 (Forall_forall _ _) Hnames). }
  intros st1.
  assert (Hst1 : st1 = Loader.with_nonces
                         (Loader.with_key st (draw r 0 32)) (table_of segs)).
  { apply manifest_state; [exact Hst| |exact Hwf].
    intros E. apply (f_equal length) in E. by rewrite draw_length in E. }
  clearbody st1. subst st1.
  apply Forall_forall. intros s Hs.
  destruct (proj1 (Forall_forall _ _) Hsegs s Hs)
    as (_ & data & C & N & HN & Hnonce & Hd & Hfile & HC & Hdec).
  destruct (proj1 (Forall_forall _ _) Hwf s Hs) as [Hbare _].
  apply bare_filename_inv in Hbare as (Htruthy & _).
  exists data, C. split; [exact Hd|]. split; [exact Hfile|].
  intros url Henc Hbase. unfold Loader.load, Loader.onload, ok_response.
  cbn [Loader.status Loader.response]. change (200 =? 200) with true.
  cbv iota. rewrite Henc. unfold Loader.load_segment.
  rewrite Hbase, Htruthy.
  cbn [Loader.segmentNonces Loader.with_nonces Loader.decryptionKey
       Loader.with_key].
  unfold table_of. rewrite (table_lookup segs s ∅ Hdistinct Hs).
  rewrite Hnonce, to_base64_truthy
    by (intros E; by rewrite E in HN).
  cbn [mbind result_bind].
  rewrite (loader_decrypt_core _ C (draw r 0 32) N);
    [|exact Hst|apply decode_base64_any|apply draw_length|exact HN].
  destruct (Nat.ltb_spec (length C) ABYTES) as [Hlt|_]; [lia|].
  rewrite Hdec. reflexivity.
Qed.

Lemma playback_round_trip_witness :
  ∃ key segs d' r',
    encryptHLSSegments sample_directory sample_rng = Ok (key, segs, d', r')
    ∧ map original segs = segment_files sample_directory
    ∧ let st1 :=
        fst (Loader.load sample_location sample_lib_text fresh_state
               sample_url
               (Loader.Loaded (ok_response
                  (Loader.TextBody (generateCustomM3U8 segs key 10))))) in
      Forall (fun s => ∃ data C,
                contents sample_directory !! original s = Some data
                ∧ contents d' !! encrypted s = Some C
                ∧ ∀ url, endsWith url ".enc" = true →
                    Loader.basename url = Some (encrypted s) →
                    Loader.load sample_location sample_lib_text st1 url
                      (Loader.Loaded (ok_response (Loader.BinaryBody C)))
                    = (st1, Loader.onSuccess url (Loader.BinaryBody data)
                              (length C))) segs.
Proof.
  destruct (encryptHLSSegments sample_directory sample_rng)
    as [[[[key segs] d'] r']|e] eqn:E.
  - exists key, segs, d', r'. split; [reflexivity|].
    apply (playback_round_trip sample_location sample_lib_text fresh_state
             sample_directory d' sample_rng r' key segs 10 sample_url).
    + reflexivity.
    + reflexivity.
    + apply (bool_decide_unpack _). vm_compute. exact I.
    + change (segment_files sample_directory)
        with ["segment0000.ts"; "segment0001.ts"].
      repeat (apply Forall_cons; split;
              [split; vm_compute; reflexivity|]).
      apply Forall_nil_2.
    + exact E.
  - exfalso. vm_compute in E. discriminate E.
Defined.

End PipelineProperties.

(* ===================================================================== *)
(** ** Further properties: what a request needs                            *)
(* ===================================================================== *)

Section RequestProperties.
Import Loader.

(** X16: before libsodium is loaded nothing is decoded.  With the
    libsodium handle unset, a text response with status 200 is handed
    over unmodified, key directive or not, and the state stays as it is;
    a binary response for a URL ending in .enc ends in the error callback
    with code 200, for a missing nonce, a missing key or the missing
    library. *)
Theorem uninitialized_loader (loc : Location)
  (lib_text : lib_failure → string) (st : EncryptionState) (url : string)
  (xhr : Xhr) :
  sodium st = false → status xhr = 200 →
  match response xhr with
  | TextBody text =>
      load loc lib_text st url (Loaded xhr)
      = (st, onSuccess url (TextBody text) (String.length text))
  | BinaryBody data =>
      endsWith url ".enc" = true →
      ∃ e, load loc lib_text st url (Loaded xhr)
           = (st, onError 200 (message lib_text e))
           ∧ ((∃ file, e = NonceNotFound file)
              ∨ e = DecryptionKeyNotAvailable ∨ e = SodiumNotInitialized)
  end.
Proof.
  intros Hst Hs. unfold load, onload. rewrite Hs.
  change (200 =? 200) with true. cbv iota.
  destruct (response xhr) as [text|data].
  - unfold parseEncryptionKey. rewrite Hst.
    by destruct (key_match text).
  - intros ->. unfold load_segment.
    set (nonce := match basename url with
                  | Some f => if truthy f then segmentNonces st !! f else None
                  | None => None
                  end).
    destruct nonce as [n|]; [destruct (truthy n)|];
      try (eexists; split; [reflexivity|left; by eexists]).
    cbn [mbind result_bind].
    destruct (decryptionKey st) as [key|];
      [|eexists; split; [reflexivity|right; by left]].
    cbn [mbind result_bind]. unfold decryptSegment. rewrite Hst.
    eexists. split; [reflexivity|right; by right].
Qed.

Lemma uninitialized_loader_witness :
  load sample_location sample_lib_text
    {| decryptionKey := None; sodium := false; segmentNonces := ∅ |}
    sample_url (Loaded (ok_response (TextBody sample_key_line)))
  = ({| decryptionKey := None; sodium := false; segmentNonces := ∅ |},
     onSuccess sample_url (TextBody sample_key_line)
       (String.length sample_key_line)).
Proof.
  apply (uninitialized_loader sample_location sample_lib_text
           {| decryptionKey := None; sodium := false; segmentNonces := ∅ |}
           sample_url (ok_response (TextBody sample_key_line)));
    reflexivity.
Defined.

Lemma split_path (dir file : string) :
  lacks "/" file = true →
  ∃ ws, split "/" (dir +:+ "/" +:+ file) = ws ++ [file] ∧ ws ≠ [].
Proof.
  intros Hf. induction dir as [|c dir (ws & IH & Hws)].
  - exists [""]. rewrite append_nil_l.
    change ("/" +:+ file) with (String "/" file). cbn [split].
    change (Ascii.eqb "/" "/") with true. cbv iota.
    by rewrite split_lacks.
  - rewrite append_cons. cbn [split]. rewrite IH.
    destruct (Ascii.eqb c "/"); [by exists ("" :: ws)|].
    destruct ws as [|w ws]; [done|]. by exists (String c w :: ws).
Qed.

(** X17: the name under which a nonce is looked up.  The file name that
    [load] takes from a URL is what follows its last slash: for a name
    without slash, whatever stands before the slash, and the name itself
    when the URL has no slash at all. *)
Theorem basename_of_path (dir file : string) :
  lacks "/" file = true →
  basename (dir +:+ "/" +:+ file) = Some file ∧ basename file = Some file.
Proof.
  intros Hf. split; [|by apply basename_bare].
  destruct (split_path dir file Hf) as (ws & E & _).
  unfold basename, pop. rewrite E. apply last_snoc.
Qed.

Lemma basename_of_path_witness :
  basename ("http://localhost:5173/output/a" +:+ "/" +:+ "segment0000.enc")
  = Some "segment0000.enc"
  ∧ basename "segment0000.enc" = Some "segment0000.enc".
Proof.
  apply (basename_of_path "http://localhost:5173/output/a" "segment0000.enc").
  reflexivity.
Defined.

(** X18: what a segment request needs, and in which order it is missed.
    For a binary response with status 200 to a URL ending in .enc whose
    file name is not empty: without a nonce stored under the file name, or
    with an empty one, the error callback gets code 200 and the
    nonce-not-found message naming the file, whether a key is stored or
    not; with a nonce but no key stored, it gets the message that the key
    is not available.  The state is left as it is. *)
Theorem segment_request_preconditions (loc : Location)
  (lib_text : lib_failure → string) (st : EncryptionState) (url : string)
  (xhr : Xhr) (data : list byte) (file : string) :
  status xhr = 200 → response xhr = BinaryBody data →
  endsWith url ".enc" = true → basename url = Some file →
  truthy file = true →
  ((segmentNonces st !! file = None ∨ segmentNonces st !! file = Some "") →
   load loc lib_text st url (Loaded xhr)
   = (st, onError 200 (message lib_text (NonceNotFound file))))
  ∧ (∀ nonce, segmentNonces st !! file = Some nonce → truthy nonce = true →
       decryptionKey st = None →
       load loc lib_text st url (Loaded xhr)
       = (st, onError 200 (message lib_text DecryptionKeyNotAvailable))).
Proof.
  intros Hs Hr Henc Hbase Hfile. unfold load, onload.
  rewrite Hs, Hr, Henc. change (200 =? 200) with true. cbv iota.
  unfold load_segment. rewrite Hbase, Hfile. split.
  - by intros [->| ->].
  - intros nonce -> -> ->. reflexivity.
Qed.

Lemma segment_request_preconditions_witness :
  ((segmentNonces fresh_state !! "a.enc" = None
    ∨ segmentNonces fresh_state !! "a.enc" = Some "") →
   load sample_location sample_lib_text fresh_state "/output/a.enc"
     (Loaded (ok_response (BinaryBody sample_plaintext)))
   = (fresh_state,
      onError 200 (message sample_lib_text (NonceNotFound "a.enc"))))
  ∧ (∀ nonce, segmentNonces fresh_state !! "a.enc" = Some nonce →
       truthy nonce = true → decryptionKey fresh_state = None →
       load sample_location sample_lib_text fresh_state "/output/a.enc"
         (Loaded (ok_response (BinaryBody sample_plaintext)))
       = (fresh_state,
          onError 200 (message sample_lib_text DecryptionKeyNotAvailable))).
Proof.
  apply (segment_request_preconditions sample_location sample_lib_text
           fresh_state "/output/a.enc"
           (ok_response (BinaryBody sample_plaintext)) sample_plaintext
           "a.enc"); reflexivity.
Defined.

End RequestProperties.
